(** * Calibre library backup / restore: a verification development

    A shallow embedding of the two scripts of the repository,

    - [scripts/backup_library.py]  (the producer, module [Backup]) and
    - [scripts/restore_backup.py]  (the consumer, module [Restore]),

    together with the part of the Python runtime they rely on: [str]
    methods (module [Py]), [hashlib.sha256] (module [Sha256]) and the
    file-system calls, which are modelled on explicit stores.

    Conventions.  A Python [str] is a [string]: the sequence of the bytes
    of its UTF-8 encoding, so that [s.encode("utf-8")] is the identity and
    the code-point order used by [list.sort] is the byte-wise order
    [String.le].  Code that performs I/O is written in a state-and-
    exception monad; the state survives an exception, as the file system
    does. *)

From Stdlib Require Import String Ascii NArith ZArith List Lia.
From stdpp Require Import base option list gmap strings sorting pretty.

Set Warnings "-register-all,-level-tolerance,-clear-no-such-hyp".

(** ** Python [str] operations *)
Module Py.

(** [c.isspace()] on the characters the model has; [str.strip()] with no
    argument removes exactly these. *)
Definition isspace (c : ascii) : bool :=
  let n := N_of_ascii c in
  ((9 <=? n) && (n <=? 13) || (28 <=? n) && (n <=? 32))%N.

(** [s.lstrip()] *)
Fixpoint lstrip (s : string) : string :=
  match s with
  | EmptyString => EmptyString
  | String c s' => if isspace c then lstrip s' else s
  end.

(** [s.rstrip()] *)
Fixpoint rstrip (s : string) : string :=
  match s with
  | EmptyString => EmptyString
  | String c s' =>
      match rstrip s' with
      | EmptyString => if isspace c then EmptyString else String c EmptyString
      | r => String c r
      end
  end.

(** [s.strip()] *)
Definition strip (s : string) : string := rstrip (lstrip s).

(** [s.startswith(pre)] *)
Definition startswith (s pre : string) : bool := String.prefix pre s.

(** [s.endswith(suf)] *)
Fixpoint endswith (s suf : string) : bool :=
  if String.eqb s suf then true
  else match s with
       | EmptyString => false
       | String _ s' => endswith s' suf
       end.

(** [sub in s] *)
Fixpoint contains (sub s : string) : bool :=
  if String.prefix sub s then true
  else match s with
       | EmptyString => false
       | String _ s' => contains sub s'
       end.

Definition lower_char (c : ascii) : ascii :=
  let n := N_of_ascii c in
  if ((65 <=? n) && (n <=? 90))%N then ascii_of_N (n + 32) else c.

(** [s.lower()] (on the ASCII letters) *)
Fixpoint lower (s : string) : string :=
  match s with
  | EmptyString => EmptyString
  | String c s' => String (lower_char c) (lower s')
  end.

(** [l.sort()] on a list of [str]: ascending in the order of [str]
    comparison, [String.le]. *)
Definition sort (l : list string) : list string := merge_sort String.le l.

(** [l[:-k]] for a non-negative [k]: note that [l[:-0]] is [l[:0]]. *)
Definition slice_to_neg {A} (l : list A) (k : nat) : list A :=
  match k with
  | O => []
  | _ => take (length l - k) l
  end.

(** [l[-1]] of a non-empty list *)
Definition last_item {A} (l : list A) : option A := last l.

(** [str(n)] / the [{n}] of an f-string for an [int] *)
Definition str_of_int (z : Z) : string := pretty z.

End Py.

(** ** [hashlib.sha256] *)
Module Sha256.

Local Open Scope N_scope.

Definition w32 (x : N) : N := x mod 2 ^ 32.
Definition add32 (x y : N) : N := w32 (x + y).
Definition rotr (n x : N) : N :=
  N.lor (N.shiftr x n) (w32 (N.shiftl x (32 - n))).
Definition not32 (x : N) : N := N.lxor x 0xffffffff.

Definition Ch (x y z : N) : N := N.lxor (N.land x y) (N.land (not32 x) z).
Definition Maj (x y z : N) : N :=
  N.lxor (N.lxor (N.land x y) (N.land x z)) (N.land y z).
Definition bsig0 x := N.lxor (N.lxor (rotr 2 x) (rotr 13 x)) (rotr 22 x).
Definition bsig1 x := N.lxor (N.lxor (rotr 6 x) (rotr 11 x)) (rotr 25 x).
Definition ssig0 x := N.lxor (N.lxor (rotr 7 x) (rotr 18 x)) (N.shiftr x 3).
Definition ssig1 x := N.lxor (N.lxor (rotr 17 x) (rotr 19 x)) (N.shiftr x 10).

(** The constants of the algorithm are the first 32 bits of the
    fractional parts of the cube roots (for [K]) and of the square roots
    (for [H0]) of the first prime numbers. *)
Definition is_prime (n : N) : bool :=
  (1 <? n) && forallb (fun d => negb (n mod d =? 0))
                      (List.map N.of_nat (seq 2 (N.to_nat n - 2))).

Definition primes : list N :=
  List.filter is_prime (List.map N.of_nat (seq 2 310)).

(** The largest [r] below [2 ^ bits] with [r ^ 3 <= n]. *)
Fixpoint cube_root (bits : nat) (n r : N) : N :=
  match bits with
  | O => r
  | S b => let r' := r + 2 ^ N.of_nat b in
           cube_root b n (if r' ^ 3 <=? n then r' else r)
  end.

Definition K : list N :=
  Eval vm_compute in List.map (fun p => w32 (cube_root 35 (p * 2 ^ 96) 0)) primes.

Definition H0 : list N :=
  Eval vm_compute in List.map (fun p => w32 (N.sqrt (p * 2 ^ 64))) (firstn 8 primes).

(** Big-endian bytes of a number, [n] of them. *)
Fixpoint be_bytes (n : nat) (x : N) : list N :=
  match n with
  | O => []
  | S n' => (N.shiftr x (8 * N.of_nat n')) mod 256 :: be_bytes n' x
  end.

Definition be_word (bs : list N) : N :=
  fold_left (fun acc b => acc * 256 + b) bs 0.

(** Padding: a one bit, zeros up to 56 mod 64, the bit length on 8 bytes. *)
Definition pad (msg : list N) : list N :=
  let len := length msg in
  let zeros := ((119 - len mod 64) mod 64)%nat in
  msg ++ 128 :: repeat 0 zeros ++ be_bytes 8 (8 * N.of_nat len).

Fixpoint chunks {A} (fuel size : nat) (l : list A) : list (list A) :=
  match fuel with
  | O => []
  | S fuel' =>
      match l with
      | [] => []
      | _ => take size l :: chunks fuel' size (drop size l)
      end
  end.

(** The message schedule, most recent word first. *)
Fixpoint expand (n : nat) (w : list N) : list N :=
  match n with
  | O => w
  | S n' =>
      let x := add32 (add32 (ssig1 (nth 1 w 0)) (nth 6 w 0))
                     (add32 (ssig0 (nth 14 w 0)) (nth 15 w 0)) in
      expand n' (x :: w)
  end.

Definition schedule (block : list N) : list N :=
  rev (expand 48 (rev (map be_word (chunks 16 4 block)))).

Definition round (s : list N) (kw : N * N) : list N :=
  match s with
  | [a; b; c; d; e; f; g; h] =>
      let t1 := add32 (add32 (add32 h (bsig1 e)) (add32 (Ch e f g) kw.1)) kw.2 in
      let t2 := add32 (bsig0 a) (Maj a b c) in
      [add32 t1 t2; a; b; c; add32 d t1; e; f; g]
  | _ => s
  end.

Definition compress (h : list N) (block : list N) : list N :=
  zip_with add32 h (fold_left round (zip K (schedule block)) h).

Definition digest_words (msg : list N) : list N :=
  let p := pad msg in
  fold_left compress (chunks (length p) 64 p) H0.

Definition hex_digit (n : N) : ascii :=
  ascii_of_N (if n <? 10 then 48 + n else 87 + n).

(** The [n] hexadecimal digits of [x], most significant first. *)
Fixpoint hex (n : nat) (x : N) : string :=
  match n with
  | O => EmptyString
  | S n' => String (hex_digit ((N.shiftr x (4 * N.of_nat n')) mod 16)) (hex n' x)
  end.

Definition bytes_of_string (s : string) : list N :=
  map N_of_ascii (list_ascii_of_string s).

(** [hashlib.sha256(data).hexdigest()] *)
Definition hexdigest_of (data : string) : string :=
  fold_right (fun w acc => hex 8 w +:+ acc) "" (take 8 (digest_words (bytes_of_string data) ++ repeat 0 8)).

(** The hasher object: [hashlib.sha256()], [h.update(b)], [h.hexdigest()]. *)
Record hasher := { fed : string }.
Definition new : hasher := {| fed := "" |}.
Definition update (h : hasher) (b : string) : hasher := {| fed := fed h +:+ b |}.
Definition hexdigest (h : hasher) : string := hexdigest_of (fed h).

End Sha256.

(** ** State-and-exception monad shared by the two scripts *)
Module Exec.

(** The Python exceptions the modelled calls can raise. *)
Inductive exn :=
| FileNotFoundError (path : string)
| FileExistsError (path : string)
| IsADirectoryError (path : string)
| NotADirectoryError (path : string)
| UnicodeDecodeError (path : string)
| BadZipFile (path : string)
| ValueError (msg : string)
| IndexError (msg : string)
| OSError (msg : string)
| StructError (msg : string).            (* struct.error *)

Inductive result (A : Type) :=
| Ok (a : A)
| Raise (e : exn).
Arguments Ok {A} a.
Arguments Raise {A} e.

Definition M (S A : Type) : Type := S → S * result A.

Definition ret {S A} (a : A) : M S A := λ s, (s, Ok a).
Definition raise {S A} (e : exn) : M S A := λ s, (s, Raise e).
Definition bind {S A B} (m : M S A) (k : A → M S B) : M S B :=
  λ s, match m s with
       | (s', Ok a) => k a s'
       | (s', Raise e) => (s', Raise e)
       end.
Definition get {S} : M S S := λ s, (s, Ok s).
Definition modify {S} (f : S → S) : M S unit := λ s, (f s, Ok tt).

(** [try: m  except FileNotFoundError: h] *)
Definition try_file_not_found {S A} (m : M S A) (h : M S A) : M S A :=
  λ s, match m s with
       | (s', Raise (FileNotFoundError _)) => h s'
       | r => r
       end.

(** [try: m  except ...: h e]: [h e] is [None] for an exception that no
    [except] clause matches. *)
Definition try_except {S A} (m : M S A) (h : exn → option (M S A)) : M S A :=
  λ s, match m s with
       | (s', Raise e) => match h e with
                          | Some k => k s'
                          | None => (s', Raise e)
                          end
       | r => r
       end.

(** [for x in l: body x] *)
Fixpoint for_each {S A} (l : list A) (body : A → M S unit) : M S unit :=
  match l with
  | [] => ret tt
  | x :: l' => bind (body x) (λ _, for_each l' body)
  end.

(** A [for] loop that threads the local variables [v] of the enclosing
    function through its body. *)
Fixpoint for_fold {S A V} (l : list A) (body : V → A → M S V) (v : V) : M S V :=
  match l with
  | [] => ret v
  | x :: l' => bind (body v x) (for_fold l' body)
  end.

Definition is_ok {A} (r : result A) : bool :=
  match r with Ok _ => true | Raise _ => false end.

End Exec.

Declare Scope exec_scope.
Delimit Scope exec_scope with exec.
Notation "x <- m ;; k" := (Exec.bind m (λ x, k))
  (at level 100, m at next level, right associativity) : exec_scope.
Notation "m ;; k" := (Exec.bind m (λ _, k))
  (at level 100, right associativity) : exec_scope.

(** ** The producer: [scripts/backup_library.py] *)
Module Backup.
Import Exec.
Local Open Scope exec_scope.

(** *** The library tree, as [os.walk] and [os.stat] see it *)

(** [os.stat(p)]: the two fields the script reads.  [st_mtime] is a
    Python float; every float is a rational [num / den], and [int(x)]
    truncates it toward zero. *)
Record stat_result := { st_size : N; st_mtime_num : Z; st_mtime_den : positive }.

Definition int_of_mtime (st : stat_result) : Z :=
  Z.quot (st_mtime_num st) (Z.pos (st_mtime_den st)).

(** A directory entry.  The order of [children] is the order in which the
    operating system enumerates the directory.
    - [File (Some st)]: a non-directory entry that [os.stat] can stat;
    - [File None]: a name that is listed but for which [os.stat] raises
      [FileNotFoundError] (the file vanished after the listing, or it is a
      dangling symbolic link);
    - [DirLink]: a symbolic link to a directory; [os.walk] reports it among
      [dirs] and, with [followlinks=False], does not descend into it. *)
Inductive entry :=
| File (st : option stat_result)
| Dir (children : list (string * entry))
| DirLink.

Abbreviation path := (list string).

(** [os.sep] on the producer (the configured paths are Windows paths). *)
Definition os_sep : string := String "092"%char "".
Definition newline : string := String "010"%char "".

(** Lookup by name in a directory listing (first match; the names of a
    real directory are distinct). *)
Fixpoint lookup_name {A} (n : string) (cs : list (string * A)) : option A :=
  match cs with
  | [] => None
  | (m, e) :: cs' => if String.eqb n m then Some e else lookup_name n cs'
  end.

(** What is found at the relative path [p] below [e]. *)
Fixpoint entry_at (e : entry) (p : path) : option entry :=
  match p with
  | [] => Some e
  | n :: p' =>
      match e with
      | Dir cs =>
          match lookup_name n cs with
          | Some c => entry_at c p'
          | None => None
          end
      | _ => None
      end
  end.

Definition is_dir (e : entry) : bool :=
  match e with File _ => false | _ => true end.

(** [os.stat] of a relative path below the library root: [None] stands
    for [FileNotFoundError].  It is only called on names that [os.walk]
    reported in [files]. *)
Definition os_stat (top : entry) (p : path) : option stat_result :=
  match entry_at top p with
  | Some (File (Some st)) => Some st
  | _ => None
  end.

(** [os.walk(top)], top-down.  Each step yields [(root, dirs, files)];
    the caller may reorder [dirs] in place before the generator resumes,
    and the generator then descends in that order, resolving each name
    again under [root]: [visit] is what the loop body does to [dirs].
    [root] is kept as the list of components below [top]. *)
Fixpoint os_walk (visit : list string → list string) (root : path) (e : entry)
  : list (path * list string) :=
  match e with
  | Dir cs =>
      let dirs := (filter (λ nc, is_dir nc.2 = true) cs).*1 in
      let files := (filter (λ nc, is_dir nc.2 = false) cs).*1 in
      let below :=
        List.map (λ nc, match nc with
                        | (n, c) => (n, os_walk visit (root ++ [n]) c)
                        end) cs in
      (root, files)
        :: concat (map (λ d, default [] (lookup_name d below)) (visit dirs))
  | _ => []
  end.

(** [os.path.relpath(os.path.join(root, file), library_dir)] *)
Fixpoint relpath (p : path) : string :=
  match p with
  | [] => "."
  | [n] => n
  | n :: p' => n +:+ os_sep +:+ relpath p'
  end.

(** The line fed to the hash for one file:
    [f"{rel_path}|{size}|{mtime}\n"]. *)
Definition entry_line (p : path) (st : stat_result) : string :=
  relpath p +:+ "|" +:+ Py.str_of_int (Z.of_N (st_size st))
            +:+ "|" +:+ Py.str_of_int (int_of_mtime st) +:+ newline.

(** [compute_library_fingerprint(library_dir)], on the tree found at
    [library_dir]. *)
Definition compute_library_fingerprint (library_dir : entry) : string :=
  let hasher := Sha256.new in
  let hasher :=
    fold_left (λ hasher '(root, files),
      fold_left (λ hasher file,
        let full_path := root ++ [file] in
        match os_stat library_dir full_path with
        | None => hasher                      (* except FileNotFoundError: continue *)
        | Some stat => Sha256.update hasher (entry_line full_path stat)
        end) (Py.sort files) hasher)
      (os_walk Py.sort [] library_dir) hasher in
  Sha256.hexdigest hasher.

(** *** The fingerprint, as the specification words it

    "Traverse the tree rooted at root; at each directory, visit
    subdirectories and files in lexicographically sorted order; for every
    regular file encountered, append to a running hash the record
    [<path-relative-to-root>|<size-bytes>|<integer-mtime-seconds>\n];
    return the hex-encoded digest.  Files that vanish between listing and
    stat are silently skipped." *)

(** The records of the files below [e], in the order of the sorted
    traversal: the files of a directory, then its subdirectories. *)
Fixpoint spec_records (rel : path) (e : entry) : list string :=
  match e with
  | Dir cs =>
      let names := Py.sort cs.*1 in
      let below :=
        List.map (λ nc, match nc with
                        | (n, c) => (n, spec_records (rel ++ [n]) c)
                        end) cs in
      flat_map (λ n, match lookup_name n cs with
                     | Some (File (Some st)) => [entry_line (rel ++ [n]) st]
                     | _ => []
                     end) names
      ++ flat_map (λ n, default [] (lookup_name n below)) names
  | _ => []
  end.

Fixpoint concat_str (l : list string) : string :=
  match l with
  | [] => ""
  | s :: l' => s +:+ concat_str l'
  end.

Definition spec_fingerprint (root : entry) : string :=
  Sha256.hexdigest_of (concat_str (spec_records [] root)).

(** The names of a directory are distinct, at every level. *)
Inductive wf : entry → Prop :=
| wf_File st : wf (File st)
| wf_DirLink : wf DirLink
| wf_Dir cs : NoDup cs.*1 → Forall (λ nc, wf nc.2) cs → wf (Dir cs).

(** What a tree holds, whatever the order of its listings: the kind of
    entry found at each path. *)
Inductive kind :=
| KFile (st : option stat_result)
| KDir
| KDirLink.

Definition kind_of (e : entry) : kind :=
  match e with
  | File st => KFile st
  | Dir _ => KDir
  | DirLink => KDirLink
  end.

Definition same_files (t1 t2 : entry) : Prop :=
  ∀ p, kind_of <$> entry_at t1 p = kind_of <$> entry_at t2 p.

(** *** Configuration *)

Definition LIBRARIES : list (string * string) :=
  [ ("books", "C:\Users\user\Books Library");
    ("manga", "C:\Users\user\Manga Library") ].

Definition BACKUP_DIR : string := "C:\Users\user\calibrebackups".
Definition MAX_RECENT_BACKUPS : nat := 1.
Definition MAX_MONTHLY_SNAPSHOTS : nat := 12.

(** *** The world of the producer *)

(** [datetime.datetime.now()] *)
Record datetime :=
  { year : N; month : N; day : N; hour : N; minute : N; second : N }.

Definition digit (n : N) : ascii := ascii_of_N (48 + n mod 10).

(** ["%0wd"]: the [w] low decimal digits of [n], zero padded. *)
Fixpoint dec (w : nat) (n : N) : string :=
  match w with
  | O => ""
  | S w' => String (digit (n / 10 ^ N.of_nat w')) (dec w' n)
  end.

(** [now.strftime("%Y-%m-%d_%H-%M-%S")] *)
Definition strftime_timestamp (d : datetime) : string :=
  dec 4 (year d) +:+ "-" +:+ dec 2 (month d) +:+ "-" +:+ dec 2 (day d)
    +:+ "_" +:+ dec 2 (hour d) +:+ "-" +:+ dec 2 (minute d)
    +:+ "-" +:+ dec 2 (second d).

(** [now.strftime("%Y-%m")] *)
Definition strftime_month (d : datetime) : string :=
  dec 4 (year d) +:+ "-" +:+ dec 2 (month d).

(** The date of the day number [z] (days since 1970-01-01) in the
    Gregorian calendar: year, month and day. *)
Definition date_of_day (z : Z) : Z * Z * Z :=
  let shifted := (z + 719468)%Z in                (* days since 0000-03-01 *)
  let era := (shifted / 146097)%Z in              (* 400-year cycles *)
  let in_era := (shifted - era * 146097)%Z in
  let y_in_era :=
    ((in_era - in_era / 1460 + in_era / 36524 - in_era / 146096) / 365)%Z in
  let in_year := (in_era - (365 * y_in_era + y_in_era / 4 - y_in_era / 100))%Z in
  let m_from_march := ((5 * in_year + 2) / 153)%Z in
  let d := (in_year - (153 * m_from_march + 2) / 5 + 1)%Z in
  let m := (if m_from_march <? 10 then m_from_march + 3 else m_from_march - 9)%Z in
  ((if m <=? 2 then y_in_era + era * 400 + 1 else y_in_era + era * 400)%Z, m, d).

(** [time.localtime] on a machine whose local time is UTC. *)
Definition gmtime (t : Z) : Exec.result datetime :=
  let '(y, m, d) := date_of_day (t / 86400) in
  let s := (t mod 86400)%Z in
  Exec.Ok {| year := Z.to_N y; month := Z.to_N m; day := Z.to_N d;
             hour := Z.to_N (s / 3600); minute := Z.to_N (s mod 3600 / 60);
             second := Z.to_N (s mod 60) |}.

(** A file of [BACKUP_DIR]: a text file, or a zip archive with its
    members (relative path and metadata of each archived file; the data
    themselves are not modelled). *)
Inductive content :=
| Text (s : string)
| Archive (members : list (path * stat_result)).

(** What the script prints. *)
Inductive message :=
| MsgLibraryDirMissing (prefix library_dir : string)
| MsgNoChanges (prefix : string)
| MsgChangesDetected (prefix : string)
| MsgCreatingBackup (prefix backup_name : string)
| MsgBackupCreated (prefix : string)
| MsgNoMonthlySnapshot (prefix month_tag : string)
| MsgMonthlyCreated (prefix monthly_name : string)
| MsgMonthlyExists (prefix month_tag : string)
| MsgDeletingOldBackup (prefix name : string)
| MsgDeletingOldMonthly (prefix name : string)
| MsgRoutineComplete.

(** What a run does, in order: its output and its writes to
    [BACKUP_DIR]. *)
Inductive event :=
| Printed (m : message)
| StateWritten (name value : string)     (* open(path, "w"); f.write(value) *)
| ZipOpened (name : string)              (* zipfile.ZipFile(path, "w", ...) *)
| ZipMember (name : string) (arcname : path)  (* zf.write(full_path, rel_path) *)
| Copied (src dst : string)              (* shutil.copy2(src, dst) *)
| Removed (name : string).               (* os.remove(path) *)

(** The state of the producer's machine.  The files of [BACKUP_DIR] are
    kept by name: every path the script builds in that directory is
    [os.path.join(BACKUP_DIR, name)].  The library directories are
    outside [BACKUP_DIR]; the script only reads them. *)
Record state := {
  backup_dir : option (gmap string content);  (* [None]: no such directory *)
  libraries : gmap string entry;              (* what is at each library path *)
  clock : nat → datetime;                     (* the successive readings of the clock *)
  ticks : nat;
  localtime : Z → result datetime;            (* [time.localtime] of this machine *)
  log : list event
}.

Definition set_backup_dir (d : option (gmap string content)) (st : state) : state :=
  {| backup_dir := d; libraries := libraries st; clock := clock st;
     ticks := ticks st; localtime := localtime st; log := log st |}.
Definition emit (e : event) : M state unit :=
  modify (λ st, {| backup_dir := backup_dir st; libraries := libraries st;
                   clock := clock st; ticks := ticks st; localtime := localtime st; log := log st ++ [e] |}).
Definition print (m : message) : M state unit := emit (Printed m).

(** The path of [name] in [BACKUP_DIR], as the script prints and sorts it. *)
Definition backup_path (name : string) : string := BACKUP_DIR +:+ os_sep +:+ name.

Definition datetime_now : M state datetime :=
  λ st, ({| backup_dir := backup_dir st; libraries := libraries st;
            clock := clock st; ticks := S (ticks st);
            localtime := localtime st; log := log st |},
         Ok (clock st (ticks st))).

(** The files of [BACKUP_DIR], [∅] when it does not exist. *)
Definition files (st : state) : gmap string content := default ∅ (backup_dir st).

(** [os.path.exists(os.path.join(BACKUP_DIR, name))] *)
Definition path_exists (name : string) : M state bool :=
  st <- get;; ret (bool_decide (is_Some (files st !! name))).

(** *** The functions of the script *)

(** [os.makedirs(BACKUP_DIR, exist_ok=True)] *)
Definition ensure_backup_dir : M state unit :=
  modify (λ st, match backup_dir st with
                | Some _ => st
                | None => set_backup_dir (Some ∅) st
                end).

(** [with open(path, "r", encoding="utf-8") as f: f.read()] *)
Definition read_text (name : string) : M state string :=
  st <- get;;
  match files st !! name with
  | Some (Text s) => ret s
  | Some (Archive _) => raise (UnicodeDecodeError (backup_path name))
  | None => raise (FileNotFoundError (backup_path name))
  end.

(** [with open(path, "w", encoding="utf-8") as f: f.write(value)] *)
Definition write_text (name value : string) : M state unit :=
  st <- get;;
  match backup_dir st with
  | None => raise (FileNotFoundError (backup_path name))
  | Some d =>
      modify (set_backup_dir (Some (<[name := Text value]> d)));;
      emit (StateWritten name value)
  end.

(** The name, in [BACKUP_DIR], of the state file of a library. *)
Definition state_file_for_prefix (prefix : string) : string :=
  prefix +:+ "_library_state.txt".

(** The tree found at a library path; a missing path has nothing to walk. *)
Definition library_tree (st : state) (library_dir : string) : entry :=
  default (File None) (libraries st !! library_dir).

Definition has_library_changed (prefix library_dir : string) : M state bool :=
  st <- get;;
  let current := compute_library_fingerprint (library_tree st library_dir) in
  let state_path := state_file_for_prefix prefix in
  ex <- path_exists state_path;;
  same <- (if ex : bool
           then text <- read_text state_path;;
                let old := Py.strip text in
                ret (String.eqb old current)
           else ret false);;
  if same : bool
  then print (MsgNoChanges prefix);; ret false
  else write_text state_path current;;
       print (MsgChangesDetected prefix);;
       ret true.

(** [zipfile.ZipFile(backup_path, "w", zipfile.ZIP_DEFLATED)]: the file is
    created (or truncated) as an empty archive. *)
Definition zip_open (name : string) : M state unit :=
  st <- get;;
  match backup_dir st with
  | None => raise (FileNotFoundError (backup_path name))
  | Some d =>
      modify (set_backup_dir (Some (<[name := Archive []]> d)));;
      emit (ZipOpened name)
  end.

(** [time.localtime(x)] rounds the float [x] down to whole seconds. *)
Definition floor_of_mtime (st : stat_result) : Z :=
  Z.div (st_mtime_num st) (Z.pos (st_mtime_den st)).

(** [zf.write(full_path, rel_path)]: [ZipInfo.from_file] stats the file, so
    it raises [FileNotFoundError] for a name that cannot be stat-ed, and
    takes the local time of its [st_mtime]; the archive is opened with
    [strict_timestamps] left at [True], so a year before 1980 raises
    [ValueError], and a year after 2107 does not fit the 16 bits of the
    DOS date in the header ([struct.error]).  The members written before
    stay in the archive, which the [with] block closes. *)
Definition zip_write (name : string) (top : entry) (full_path : path) : M state unit :=
  match os_stat top full_path with
  | None => raise (FileNotFoundError (relpath full_path))
  | Some stat =>
      st <- get;;
      match localtime st (floor_of_mtime stat) with
      | Raise e => raise e
      | Ok t =>
          if (year t <? 1980)%N
          then raise (ValueError "ZIP does not support timestamps before 1980")
          else if (2107 <? year t)%N
          then raise (StructError "ushort format requires 0 <= number <= 65535")
          else
            modify (λ st, set_backup_dir
                      (alter (λ c, match c with
                                   | Archive ms => Archive (ms ++ [(full_path, stat)])
                                   | Text _ => c
                                   end) name <$> backup_dir st) st);;
            emit (ZipMember name full_path)
      end
  end.

Definition create_backup_zip (prefix library_dir : string) : M state string :=
  now <- datetime_now;;
  let timestamp := strftime_timestamp now in
  let backup_name := prefix +:+ "_library_" +:+ timestamp +:+ ".zip" in
  print (MsgCreatingBackup prefix backup_name);;
  st <- get;;
  let top := library_tree st library_dir in
  zip_open backup_name;;
  for_each (os_walk (λ dirs, dirs) [] top) (λ '(root, files),
    for_each files (λ file, zip_write backup_name top (root ++ [file])));;
  print (MsgBackupCreated prefix);;
  ret backup_name.

(** [shutil.copy2(src, dst)] between two files of [BACKUP_DIR] *)
Definition copy2 (src dst : string) : M state unit :=
  st <- get;;
  match backup_dir st, files st !! src with
  | Some d, Some c =>
      modify (set_backup_dir (Some (<[dst := c]> d)));;
      emit (Copied src dst)
  | _, _ => raise (FileNotFoundError (backup_path src))
  end.

Definition monthly_name_of (prefix month_tag : string) : string :=
  prefix +:+ "_library_" +:+ month_tag +:+ "_monthly.zip".

Definition ensure_monthly_snapshot (prefix latest_backup : string) : M state unit :=
  now <- datetime_now;;
  let month_tag := strftime_month now in
  let monthly_name := monthly_name_of prefix month_tag in
  ex <- path_exists monthly_name;;
  if negb ex
  then print (MsgNoMonthlySnapshot prefix month_tag);;
       copy2 latest_backup monthly_name;;
       print (MsgMonthlyCreated prefix monthly_name)
  else print (MsgMonthlyExists prefix month_tag).

(** [os.listdir(BACKUP_DIR)], in some order *)
Definition listdir : M state (list string) :=
  st <- get;;
  match backup_dir st with
  | Some d => ret (map fst (map_to_list d))
  | None => raise (FileNotFoundError BACKUP_DIR)
  end.

(** [os.remove(path)] for a file of [BACKUP_DIR] *)
Definition os_remove (name : string) : M state unit :=
  st <- get;;
  match backup_dir st with
  | Some d =>
      if bool_decide (is_Some (d !! name))
      then modify (set_backup_dir (Some (delete name d)));; emit (Removed name)
      else raise (FileNotFoundError (backup_path name))
  | None => raise (FileNotFoundError (backup_path name))
  end.

(** The files the pruning of [prefix] looks at, and its two partitions. *)
Definition is_backup_of (prefix f : string) : bool :=
  Py.endswith (Py.lower f) ".zip" && Py.startswith f (prefix +:+ "_library_").
Definition is_monthly (f : string) : bool := Py.contains "_monthly" f.

Definition prune_backups_for_prefix (prefix : string) : M state unit :=
  names <- listdir;;
  let all_files := filter (λ f, is_backup_of prefix f) names in
  let recent := filter (λ p, negb (is_monthly p)) all_files in
  let monthly := filter (λ p, is_monthly p) all_files in
  let recent := Py.sort recent in
  let monthly := Py.sort monthly in
  (if Nat.ltb MAX_RECENT_BACKUPS (length recent)
   then let to_delete := Py.slice_to_neg recent MAX_RECENT_BACKUPS in
        for_each to_delete (λ path,
          print (MsgDeletingOldBackup prefix path);; os_remove path)
   else ret tt);;
  (if Nat.ltb MAX_MONTHLY_SNAPSHOTS (length monthly)
   then let to_delete := Py.slice_to_neg monthly MAX_MONTHLY_SNAPSHOTS in
        for_each to_delete (λ path,
          print (MsgDeletingOldMonthly prefix path);; os_remove path)
   else ret tt).

(** [os.path.isdir(library_dir)] *)
Definition isdir (library_dir : string) : M state bool :=
  st <- get;;
  ret (match libraries st !! library_dir with
       | Some e => is_dir e
       | None => false
       end).

(** The body of the loop of [main]; [continue] ends it early. *)
Definition main_body (lib : string * string) : M state unit :=
  let '(prefix, library_dir) := lib in
  d <- isdir library_dir;;
  if negb d
  then print (MsgLibraryDirMissing prefix library_dir)
  else
    changed <- has_library_changed prefix library_dir;;
    if negb changed
    then ret tt
    else
      latest_backup <- create_backup_zip prefix library_dir;;
      ensure_monthly_snapshot prefix latest_backup;;
      prune_backups_for_prefix prefix.

(** [main], for a given value of [LIBRARIES]. *)
Definition main_for (libs : list (string * string)) : M state unit :=
  ensure_backup_dir;;
  for_each libs main_body;;
  print MsgRoutineComplete.

Definition main : M state unit := main_for LIBRARIES.

(** *** Vocabulary for the statements about a run *)

(** The events a computation adds to the log. *)
Definition trace_of {A} (m : M state A) (st : state) : list event :=
  drop (length (log st)) (log (m st).1).

Definition add_log (tr : list event) (st : state) : state :=
  {| backup_dir := backup_dir st; libraries := libraries st; clock := clock st;
     ticks := ticks st; localtime := localtime st; log := log st ++ tr |}.

(** The fingerprint the producer state file of a library holds, as
    [has_library_changed] reads it: [Ok None] when there is no file. *)
Definition stored (st : state) (prefix : string) : result (option string) :=
  match files st !! state_file_for_prefix prefix with
  | None => Ok None
  | Some (Text s) => Ok (Some (Py.strip s))
  | Some (Archive _) => Raise (UnicodeDecodeError (backup_path (state_file_for_prefix prefix)))
  end.

(** The fingerprint of the library as it is now. *)
Definition current_fingerprint (st : state) (library_dir : string) : string :=
  compute_library_fingerprint (library_tree st library_dir).

Definition is_library_dir (st : state) (library_dir : string) : bool :=
  match libraries st !! library_dir with
  | Some e => is_dir e
  | None => false
  end.

(** The events that create, fill, copy or delete an archive. *)
Definition is_archive_event (e : event) : Prop :=
  match e with
  | ZipOpened _ | ZipMember _ _ | Copied _ _ | Removed _ => True
  | _ => False
  end.

Definition is_print (e : event) : Prop :=
  match e with Printed _ => True | _ => False end.

End Backup.

(** ** The consumer: [scripts/restore_backup.py] *)
Module Restore.
Import Exec.
Local Open Scope exec_scope.

Abbreviation path := (list string).

(** *** Configuration *)

(** [REPO_ROOT] is computed at start-up from the location of the script;
    it is a parameter of [LIBRARIES]. *)
Definition LIBRARIES (REPO_ROOT : path) : list (string * path) :=
  [ ("books", REPO_ROOT ++ ["calibre-libraries"; "Books Library"]);
    ("manga", REPO_ROOT ++ ["calibre-libraries"; "Manga Library"]) ].

Definition LOCAL_STATE_SUFFIX : string := "_library_last_restored_state.txt".
Definition DOCKER_CONTAINER_NAME : string := "calibre".

(** *** The world of the consumer *)

(** The file system outside [BACKUP_DIR], by canonical absolute path
    (the components from the root).  A symbolic link holds the canonical
    path of its target. *)
Inductive node :=
| NFile (size : N)
| NDir
| NLink (target : path).

Inductive message :=
| MsgBackupDirMissing
| MsgProcessing (prefix : string)
| MsgNoRemoteState (prefix : string)
| MsgNoNewBackup (prefix : string)
| MsgNewBackupDetected (prefix : string)
| MsgNoBackupsFound (prefix : string)
| MsgRestoring (prefix backup_name : string)
| MsgTarget (prefix : string) (library_dir : path)
| MsgRestoreComplete (prefix : string)
| MsgStateUpdated (prefix : string)
| MsgStopping
| MsgStopIssued
| MsgStarting
| MsgStartIssued
| MsgNoLibrariesChanged
| MsgAllProcessed.

(** What a run does, in order. *)
Inductive event :=
| Printed (m : message)
| DockerStop                              (* subprocess.run(["docker", "stop", ...]) *)
| DockerStart                             (* subprocess.run(["docker", "start", ...]) *)
| StateWritten (name value : string)      (* open(path, "w"); f.write(value) *)
| MadeDir (p : path)                      (* a directory created by os.makedirs *)
| RemovedTree (p : path)                  (* shutil.rmtree(p) *)
| Unlinked (p : path)                     (* os.remove(p) *)
| ZipRead (name : string)                 (* zipfile.ZipFile(path, "r") *)
| Extracted (p : path).                   (* a member written by zf.extractall *)

(** The state of the consumer's machine: the synced [BACKUP_DIR], by file
    name as on the producer, and the rest of the file system, where the
    libraries are.  [BACKUP_DIR] lies outside the library directories. *)
Record state := {
  backup_dir : option (gmap string Backup.content);
  fs : gmap path node;
  log : list event
}.

Definition set_backup_dir (d : option (gmap string Backup.content)) (st : state) : state :=
  {| backup_dir := d; fs := fs st; log := log st |}.
Definition set_fs (f : gmap path node) (st : state) : state :=
  {| backup_dir := backup_dir st; fs := f; log := log st |}.
Definition emit (e : event) : M state unit :=
  modify (λ st, {| backup_dir := backup_dir st; fs := fs st; log := log st ++ [e] |}).
Definition print (m : message) : M state unit := emit (Printed m).

Definition files (st : state) : gmap string Backup.content := default ∅ (backup_dir st).

(** The path of [name] in [BACKUP_DIR], for messages. *)
Definition backup_path (name : string) : string := "calibrebackups/" +:+ name.

(** *** State files *)

Definition remote_state_file (prefix : string) : string :=
  prefix +:+ "_library_state.txt".

Definition local_state_file (prefix : string) : string :=
  prefix +:+ LOCAL_STATE_SUFFIX.

Definition read_state (name : string) : M state (option string) :=
  st <- get;;
  match files st !! name with
  | None => ret None                            (* not os.path.exists(path) *)
  | Some (Backup.Text s) =>
      let v := Py.strip s in
      ret (if String.eqb v "" then None else Some v)   (* f.read().strip() or None *)
  | Some (Backup.Archive _) => raise (UnicodeDecodeError (backup_path name))
  end.

Definition write_state (name value : string) : M state unit :=
  (* os.makedirs(os.path.dirname(path), exist_ok=True) *)
  modify (λ st, match backup_dir st with
                | Some _ => st
                | None => set_backup_dir (Some ∅) st
                end);;
  modify (λ st, set_backup_dir (Some (<[name := Backup.Text value]> (files st))) st);;
  emit (StateWritten name value).

(** *** Locating the artifact *)

Definition is_candidate (prefix name : string) : bool :=
  Py.endswith name ".zip"
  && Py.startswith name (prefix +:+ "_library_")
  && negb (Py.contains "_monthly" name).

Definition find_latest_non_monthly_backup (prefix : string) : M state (option string) :=
  st <- get;;
  match backup_dir st with
  | None => ret None                            (* not os.path.isdir(BACKUP_DIR) *)
  | Some d =>
      let candidates := filter (λ name, is_candidate prefix name) (map fst (map_to_list d)) in
      match candidates with
      | [] => ret None
      | _ => let candidates := Py.sort candidates in
             ret (Py.last_item candidates)
      end
  end.

(** *** File-system calls on the library side *)

(** The file system is kept by the place of each node: the path that
    leads to it through directories only.  A path handed to a call is
    resolved as the kernel resolves it, following the symbolic links met
    on the way; its components are names (none is empty, ["."] or
    [".."]: the script builds its paths from [Path.resolve], from
    [os.listdir] and from member names that [zipfile] has cleaned). *)

Inductive errno := ENOENT | ENOTDIR | ELOOP.

(** The node at a place; the root is a directory. *)
Definition node_at (f : gmap path node) (k : path) : option node :=
  match k with
  | [] => Some NDir
  | _ => f !! k
  end.

Definition is_last (rest : path) : bool :=
  match rest with [] => true | _ => false end.

(** The number of symbolic links one resolution may follow
    ([MAXSYMLINKS] of the consumer's system). *)
Definition MAXSYMLINKS : nat := 32.

(** Resolution of the components [rest] from the directory at [cur].  A
    symbolic link is replaced by its target, at most [fuel] times; a link
    at the last component is followed when [follow] is set (as [stat]
    does) and is itself the result when it is not (as for [lstat]).  A
    component before the last has to be a directory.  The result is a
    place; no node is there when the last component is missing. *)
Fixpoint walk (fuel : nat) (f : gmap path node) (follow : bool) (cur rest : path)
  {struct fuel} : path + errno :=
  (fix go (cur rest : path) {struct rest} : path + errno :=
     match rest with
     | [] => inl cur
     | n :: rest' =>
         match f !! (cur ++ [n]) with
         | Some (NLink t) =>
             if negb follow && is_last rest'
             then inl (cur ++ [n])
             else match fuel with
                  | O => inr ELOOP
                  | S fuel' => walk fuel' f follow [] (t ++ rest')
                  end
         | Some NDir => go (cur ++ [n]) rest'
         | Some (NFile _) => if is_last rest' then inl (cur ++ [n]) else inr ENOTDIR
         | None => if is_last rest' then inl (cur ++ [n]) else inr ENOENT
         end
     end) cur rest.

Definition locate (f : gmap path node) (follow : bool) (p : path) : path + errno :=
  walk MAXSYMLINKS f follow [] p.

(** [os.stat(p)] ([follow]) and [os.lstat(p)]: the place and the node. *)
Definition fs_stat (f : gmap path node) (follow : bool) (p : path)
  : (path * node) + errno :=
  match locate f follow p with
  | inl k => match node_at f k with
             | Some x => inl (k, x)
             | None => inr ENOENT
             end
  | inr e => inr e
  end.

(** [os.path.exists], [os.path.isdir] and [os.path.islink]: [False] when
    the call to [stat] (or [lstat]) fails. *)
Definition fs_exists (f : gmap path node) (p : path) : bool :=
  match fs_stat f true p with inl _ => true | inr _ => false end.
Definition fs_isdir (f : gmap path node) (p : path) : bool :=
  match fs_stat f true p with inl (_, NDir) => true | _ => false end.
Definition fs_islink (f : gmap path node) (p : path) : bool :=
  match fs_stat f false p with inl (_, NLink _) => true | _ => false end.

Definition path_str (p : path) : string :=
  fold_right (λ n acc, "/" +:+ n +:+ acc) "" p.

Definition os_error (e : errno) (p : path) : exn :=
  match e with
  | ENOENT => FileNotFoundError (path_str p)
  | ENOTDIR => NotADirectoryError (path_str p)
  | ELOOP => OSError (path_str p)
  end.

(** [os.mkdir(p)] *)
Definition os_mkdir (p : path) : M state unit :=
  st <- get;;
  match locate (fs st) false p with
  | inr e => raise (os_error e p)
  | inl k =>
      match node_at (fs st) k with
      | Some _ => raise (FileExistsError (path_str p))
      | None => modify (set_fs (<[k := NDir]> (fs st)));; emit (MadeDir p)
      end
  end.

(** The end of [os.makedirs]:
    [try: mkdir(name)  except OSError: if not exist_ok or not path.isdir(name): raise] *)
Definition mkdir_leaf (exist_ok : bool) (p : path) : M state unit :=
  try_except (os_mkdir p)
    (λ e, Some (st <- get;;
                if exist_ok && fs_isdir (fs st) p then ret tt else raise e)).

(** [os.makedirs(name, exist_ok=exist_ok)], on the components of [name]
    last first: [tail :: head] is [path.split(name)].  The parent is made
    first when it does not exist, a [FileExistsError] of that call being
    passed over. *)
Fixpoint makedirs_split (exist_ok : bool) (name : list string) : M state unit :=
  match name with
  | [] => mkdir_leaf exist_ok []
  | tail :: head =>
      st <- get;;
      (if fs_exists (fs st) (rev head) then ret tt
       else try_except (makedirs_split exist_ok head)
              (λ e, match e with
                    | FileExistsError _ => Some (ret tt)
                    | _ => None
                    end));;
      mkdir_leaf exist_ok (rev head ++ [tail])
  end.

Definition makedirs (exist_ok : bool) (p : path) : M state unit :=
  makedirs_split exist_ok (rev p).

(** The name of [k] in the directory at [d], when [k] is an entry of it. *)
Fixpoint entry_name (d k : path) : option string :=
  match d, k with
  | [], [n] => Some n
  | x :: d', y :: k' => if String.eqb x y then entry_name d' k' else None
  | _, _ => None
  end.

(** [os.listdir(d)], in some order *)
Definition fs_listdir (d : path) : M state (list string) :=
  st <- get;;
  match fs_stat (fs st) true d with
  | inl (k, NDir) => ret (omap (λ kv, entry_name k kv.1) (map_to_list (fs st)))
  | inl _ => raise (NotADirectoryError (path_str d))
  | inr e => raise (os_error e d)
  end.

(** [shutil.rmtree(p)]: removes the directory at [p] and everything
    below it; the symbolic links below [p] are removed, not followed, and
    [p] itself may not be one. *)
Definition rmtree (p : path) : M state unit :=
  st <- get;;
  match fs_stat (fs st) false p with
  | inl (k, NDir) =>
      modify (set_fs (filter (λ kv, ¬ k `prefix_of` kv.1) (fs st)));;
      emit (RemovedTree p)
  | inl (_, NLink _) =>
      raise (if fs_exists (fs st) p
             then OSError "Cannot call rmtree on a symbolic link"
             else FileNotFoundError (path_str p))
  | inl (_, NFile _) => raise (NotADirectoryError (path_str p))
  | inr e => raise (os_error e p)
  end.

(** [os.remove(p)]: unlinks a file or a symbolic link. *)
Definition os_remove (p : path) : M state unit :=
  st <- get;;
  match fs_stat (fs st) false p with
  | inl (_, NDir) => raise (IsADirectoryError (path_str p))
  | inl (k, _) => modify (set_fs (delete k (fs st)));; emit (Unlinked p)
  | inr e => raise (os_error e p)
  end.

Definition clear_directory (dir_path : path) : M state unit :=
  makedirs true dir_path;;
  entries <- fs_listdir dir_path;;
  for_each entries (λ entry,
    let full := dir_path ++ [entry] in
    st <- get;;
    if fs_isdir (fs st) full && negb (fs_islink (fs st) full)
    then rmtree full
    else os_remove full).

(** [zipfile.ZipFile(backup_path, "r")] *)
Definition zip_read (name : string) : M state (list (Backup.path * Backup.stat_result)) :=
  st <- get;;
  match files st !! name with
  | Some (Backup.Archive ms) => emit (ZipRead name);; ret ms
  | Some (Backup.Text _) => raise (BadZipFile (backup_path name))
  | None => raise (FileNotFoundError (backup_path name))
  end.

(** [open(p, "wb")] and the copy of [size] bytes: a link at [p] is
    followed. *)
Definition write_file (p : path) (size : N) : M state unit :=
  st <- get;;
  match locate (fs st) true p with
  | inr e => raise (os_error e p)
  | inl k =>
      match node_at (fs st) k with
      | Some NDir => raise (IsADirectoryError (path_str p))
      | _ => modify (set_fs (<[k := NFile size]> (fs st)));; emit (Extracted p)
      end
  end.

(** The name of a member is kept as its components, [filename.split("/")];
    [zipfile] drops the components that are empty, ["."] or [".."]. *)
Definition invalid_path_parts : list string := [""; "."; ".."].

Definition arcname_of (filename : Backup.path) : path :=
  filter (λ x, x ∉ invalid_path_parts) filename.

(** [member.is_dir()]: [filename[-1] == '/'], which raises [IndexError]
    for the empty name. *)
Definition member_is_dir (filename : Backup.path) : M state bool :=
  match filename with
  | [] | [""] => raise (IndexError "string index out of range")
  | _ => ret (bool_decide (last filename = Some ""))
  end.

(** One member of [zf.extractall(library_dir)]
    ([ZipFile._extract_member]): the directories above the target are
    created when they are missing, then a directory member is created
    and a file member is written. *)
Definition extract_member (library_dir : path) (m : Backup.path * Backup.stat_result)
  : M state unit :=
  let targetpath := library_dir ++ arcname_of m.1 in
  let upperdirs := removelast targetpath in
  st <- get;;
  (if negb (fs_exists (fs st) upperdirs) then makedirs false upperdirs else ret tt);;
  is_dir <- member_is_dir m.1;;
  if is_dir : bool
  then st <- get;;
       if negb (fs_isdir (fs st) targetpath) then os_mkdir targetpath else ret tt
  else write_file targetpath (Backup.st_size m.2).

Definition restore_library_from_backup (prefix backup_name : string) (library_dir : path)
  : M state unit :=
  print (MsgRestoring prefix backup_name);;
  print (MsgTarget prefix library_dir);;
  clear_directory library_dir;;
  members <- zip_read backup_name;;
  for_each members (extract_member library_dir);;
  print (MsgRestoreComplete prefix).

(** *** The Docker container *)

Definition stop_calibre_container : M state unit :=
  print MsgStopping;; emit DockerStop;; print MsgStopIssued.

Definition start_calibre_container : M state unit :=
  print MsgStarting;; emit DockerStart;; print MsgStartIssued.

(** *** [main] *)

(** The body of the loop; [any_restored] is the local variable of [main]
    that the loop updates, and [continue] returns it unchanged. *)
Definition main_body (any_restored : bool) (lib : string * path) : M state bool :=
  let '(prefix, library_dir) := lib in
  print (MsgProcessing prefix);;
  let remote_state_path := remote_state_file prefix in
  let local_state_path := local_state_file prefix in
  remote_state <- read_state remote_state_path;;
  match remote_state with
  | None => print (MsgNoRemoteState prefix);; ret any_restored
  | Some remote =>
      local_state <- read_state local_state_path;;
      if decide (local_state = Some remote)
      then print (MsgNoNewBackup prefix);; ret any_restored
      else
        print (MsgNewBackupDetected prefix);;
        (if negb any_restored then stop_calibre_container else ret tt);;
        latest_backup <- find_latest_non_monthly_backup prefix;;
        match latest_backup with
        | None => print (MsgNoBackupsFound prefix);; ret any_restored
        | Some backup =>
            restore_library_from_backup prefix backup library_dir;;
            write_state local_state_path remote;;
            print (MsgStateUpdated prefix);;
            ret true
        end
  end.

(** [main], for a given value of [LIBRARIES]. *)
Definition main_for (libs : list (string * path)) : M state unit :=
  st <- get;;
  match backup_dir st with
  | None => print MsgBackupDirMissing
  | Some _ =>
      any_restored <- for_fold libs main_body false;;
      (if any_restored : bool
       then start_calibre_container
       else print MsgNoLibrariesChanged);;
      print MsgAllProcessed
  end.

Definition main (REPO_ROOT : path) : M state unit := main_for (LIBRARIES REPO_ROOT).

(** *** Vocabulary for the statements about a run *)

(** The events a computation adds to the log. *)
Definition trace_of {A} (m : M state A) (st : state) : list event :=
  drop (length (log st)) (log (m st).1).

Definition add_log (tr : list event) (st : state) : state :=
  {| backup_dir := backup_dir st; fs := fs st; log := log st ++ tr |}.

(** The fingerprint a state file holds, as [read_state] returns it. *)
Definition stored (st : state) (name : string) : result (option string) :=
  (read_state name st).2.

(** Where a library stands when the loop of [main] reaches it. *)
Inductive status :=
| NoRemote                       (* no producer fingerprint: skipped *)
| InSync                         (* consumer fingerprint = producer fingerprint *)
| Pending (remote : string)      (* they differ: a restore is due *)
| Unreadable (e : exn).          (* reading a state file raises *)

Definition status_of (st : state) (prefix : string) : status :=
  match stored st (remote_state_file prefix) with
  | Raise e => Unreadable e
  | Ok None => NoRemote
  | Ok (Some remote) =>
      match stored st (local_state_file prefix) with
      | Raise e => Unreadable e
      | Ok local_state =>
          if decide (local_state = Some remote) then InSync else Pending remote
      end
  end.

Definition quiet (st : state) (prefix : string) : Prop :=
  status_of st prefix = NoRemote ∨ status_of st prefix = InSync.

(** The artifact [find_latest_non_monthly_backup] selects. *)
Definition latest_artifact (st : state) (prefix : string) : option string :=
  match (find_latest_non_monthly_backup prefix st).2 with
  | Ok o => o
  | Raise _ => None
  end.

Definition is_print (e : event) : Prop :=
  match e with Printed _ => True | _ => False end.

(** The events that change a library directory. *)
Definition is_restore_event (e : event) : Prop :=
  match e with
  | MadeDir _ | RemovedTree _ | Unlinked _ | ZipRead _ | Extracted _ => True
  | _ => False
  end.

Definition is_docker (e : event) : Prop :=
  match e with DockerStop | DockerStart => True | _ => False end.

End Restore.

(** * Sanity checks of the model against the Python runtime *)

Example sha256_abc :
  Sha256.hexdigest_of "abc"
  = "ba7816bf8f01cfea414140de5dae2223b00361a396177a9cb410ff61f20015ad".
Proof. vm_compute. reflexivity. Qed.

Example sha256_empty :
  Sha256.hexdigest_of ""
  = "e3b0c44298fc1c149afbf4c8996fb92427ae41e4649b934ca495991b7852b855".
Proof. vm_compute. reflexivity. Qed.

Example sha256_two_blocks :
  Sha256.hexdigest_of
    "aaaaaaaaaaaaaaaaaaaaaaaaaaaaaaaaaaaaaaaaaaaaaaaaaaaaaaaaaaaaaaaaaaaaaa"
  = "6bd5e5034855a11241f0dee8fc72850ffd9955b28347a86428b5fa19119f6ad0".
Proof. vm_compute. reflexivity. Qed.

Example fingerprint_two_files :
  Backup.compute_library_fingerprint
    (Backup.Dir [("b.txt", Backup.File (Some (Backup.Build_stat_result 50 1700000001 1)));
                 ("a.txt", Backup.File (Some (Backup.Build_stat_result 100 17000000009 10)))])
  = "21cf255e498568fc46a605141d4caf0aee2960e9042f455dd00ca3c10a2a09c7".
Proof. vm_compute. reflexivity. Qed.

(** * Facts about the [str] operations *)
Module PyFacts.
Import Py.

Lemma rstrip_cons_nonspace c s :
  isspace c = false → rstrip (String c s) = String c (rstrip s).
Proof. intros Hc. simpl. rewrite Hc. by destruct (rstrip s). Qed.

Lemma rstrip_idemp s : rstrip (rstrip s) = rstrip s.
Proof.
  induction s as [|c s IH]; [done|]. simpl.
  destruct (rstrip s) as [|c' r] eqn:E.
  - destruct (isspace c) eqn:Hc; [done|]. simpl. by rewrite Hc.
  - simpl in *. rewrite IH. done.
Qed.

Lemma lstrip_head s :
  lstrip s = "" ∨ ∃ c r, lstrip s = String c r ∧ isspace c = false.
Proof.
  induction s as [|c s IH]; [by left|]. simpl.
  destruct (isspace c) eqn:Hc; [done|]. right. eauto.
Qed.

Lemma lstrip_cons_nonspace c s : isspace c = false → lstrip (String c s) = String c s.
Proof. intros Hc. simpl. by rewrite Hc. Qed.

Lemma lstrip_strip s : lstrip (strip s) = strip s.
Proof.
  unfold strip. destruct (lstrip_head s) as [->|(c & r & -> & Hc)]; [done|].
  rewrite rstrip_cons_nonspace by done. by apply lstrip_cons_nonspace.
Qed.

(** [strip] is idempotent: a value read with [.strip()] and written back
    is read again unchanged. *)
Lemma strip_idemp s : strip (strip s) = strip s.
Proof. unfold strip at 1. rewrite lstrip_strip. unfold strip. apply rstrip_idemp. Qed.

(** A string without white space. *)
Fixpoint no_space (s : string) : bool :=
  match s with
  | EmptyString => true
  | String c s' => negb (isspace c) && no_space s'
  end.

Lemma no_space_app a b : no_space (a +:+ b) = no_space a && no_space b.
Proof. induction a as [|c a IH]; simpl; [done|]. rewrite IH. by rewrite andb_assoc. Qed.

Lemma strip_no_space s : no_space s = true → strip s = s.
Proof.
  intros H. unfold strip.
  assert (lstrip s = s) as ->.
  { destruct s as [|c s]; [done|]. simpl in *. by destruct (isspace c). }
  induction s as [|c s IH]; [done|]. simpl in H.
  apply andb_true_iff in H as [Hc Hs]. apply negb_true_iff in Hc.
  rewrite rstrip_cons_nonspace by done. by rewrite IH.
Qed.

(** *** [endswith], [lower], [startswith], [contains] *)

Lemma app_cons c a b : String c a +:+ b = String c (a +:+ b).
Proof. done. Qed.

Lemma length_app a b : String.length (a +:+ b) = String.length a + String.length b.
Proof. induction a as [|c a IH]; [done|]. change (String c a +:+ b) with (String c (a +:+ b)). simpl. by rewrite IH. Qed.

Lemma eqb_app_longer c a b suf :
  String.length suf ≤ String.length b → String.eqb (String c (a +:+ b)) suf = false.
Proof.
  intros Hlen. apply String.eqb_neq. intros E.
  apply (f_equal String.length) in E. simpl in E.
  rewrite length_app in E. lia.
Qed.

Lemma endswith_cons c s suf :
  endswith (String c s) suf
  = if String.eqb (String c s) suf then true else endswith s suf.
Proof. done. Qed.

Lemma endswith_app_r a b suf :
  String.length suf ≤ String.length b → endswith (a +:+ b) suf = endswith b suf.
Proof.
  intros Hlen. induction a as [|c a IH]; [done|].
  change (String c a +:+ b) with (String c (a +:+ b)).
  rewrite endswith_cons, eqb_app_longer by done. apply IH.
Qed.

Lemma endswith_refl s : endswith s s = true.
Proof. destruct s; simpl; [done|]. by rewrite Ascii.eqb_refl, String.eqb_refl. Qed.

Lemma endswith_app a suf : endswith (a +:+ suf) suf = true.
Proof. rewrite endswith_app_r by done. apply endswith_refl. Qed.

Lemma lower_app a b : lower (a +:+ b) = lower a +:+ lower b.
Proof. induction a as [|c a IH]; [done|]. rewrite app_cons. simpl. rewrite app_cons. by rewrite IH. Qed.

Lemma length_lower s : String.length (lower s) = String.length s.
Proof. induction s; simpl; congruence. Qed.

Lemma prefix_app a b : String.prefix a (a +:+ b) = true.
Proof.
  induction a as [|c a IH]; simpl; [by destruct b|].
  change (String c a +:+ b) with (String c (a +:+ b)). cbn.
  destruct (ascii_dec c c); [done|congruence].
Qed.

Lemma str_app_assoc a b c : (a +:+ b) +:+ c = a +:+ (b +:+ c).
Proof. induction a as [|x a IH]; [done|]. rewrite !app_cons. by rewrite IH. Qed.

Lemma app_inv_tail a b s : a +:+ s = b +:+ s → a = b.
Proof.
  revert b. induction a as [|x a IH]; intros [|y b] E; [done|..].
  - apply (f_equal String.length) in E.
    rewrite !length_app in E. simpl in E. lia.
  - apply (f_equal String.length) in E.
    rewrite !length_app in E. simpl in E. lia.
  - rewrite !app_cons in E. injection E as -> E. f_equal. by apply IH.
Qed.

End PyFacts.

(** * Facts about the monad *)
Module ExecFacts.
Import Exec.

Lemma bind_ok {S A B} (m : M S A) (k : A → M S B) st st1 a :
  m st = (st1, Ok a) → bind m k st = k a st1.
Proof. unfold bind. by intros ->. Qed.

Lemma bind_raise {S A B} (m : M S A) (k : A → M S B) st st1 e :
  m st = (st1, Raise e) → bind m k st = (st1, Raise e).
Proof. unfold bind. by intros ->. Qed.

(** A run is known by the state it leaves and by its result. *)
Lemma run_result {S A} (m : M S A) st r : (m st).2 = r → m st = ((m st).1, r).
Proof. intros <-. by destruct (m st). Qed.

Lemma for_fold_app {S A V} (l1 l2 : list A) (body : V → A → M S V) v st :
  for_fold (l1 ++ l2) body v st
  = bind (for_fold l1 body v) (for_fold l2 body) st.
Proof.
  revert v st. induction l1 as [|x l1 IH]; intros v st; simpl.
  - done.
  - unfold bind. destruct (body v x st) as [st1 [v1|e]]; [|done].
    rewrite IH. done.
Qed.

Lemma for_each_app {S A} (l1 l2 : list A) (body : A → M S unit) st :
  for_each (l1 ++ l2) body st
  = bind (for_each l1 body) (λ _, for_each l2 body) st.
Proof.
  revert st. induction l1 as [|x l1 IH]; intros st; simpl.
  - done.
  - unfold bind. destruct (body x st) as [st1 [[]|e]]; [|done].
    rewrite IH. done.
Qed.

(** An exception raised in the body of a loop ends the loop: there is no
    handler, the elements after the failing one are not visited. *)
Lemma for_fold_raise {S A V} (l1 l2 : list A) (body : V → A → M S V) v st x v1 st1 st2 e :
  for_fold l1 body v st = (st1, Ok v1) →
  body v1 x st1 = (st2, Raise e) →
  for_fold (l1 ++ x :: l2) body v st = (st2, Raise e).
Proof.
  intros E1 E2. rewrite for_fold_app. unfold bind. rewrite E1. simpl.
  unfold bind. by rewrite E2.
Qed.

Lemma for_each_raise {S A} (l1 l2 : list A) (body : A → M S unit) st x st1 st2 e :
  for_each l1 body st = (st1, Ok tt) →
  body x st1 = (st2, Raise e) →
  for_each (l1 ++ x :: l2) body st = (st2, Raise e).
Proof.
  intros E1 E2. rewrite for_each_app. unfold bind. rewrite E1. simpl.
  unfold bind. by rewrite E2.
Qed.

(** ** Relational invariants of a computation

    [steps R m]: whatever [m] returns or raises, the state it leaves is
    related to the one it started from. *)
Section Steps.
Context {S : Type} (R : relation S) `{!PreOrder R}.

Definition steps {A} (m : M S A) : Prop := ∀ st, R st (m st).1.

Lemma steps_ret {A} (a : A) : steps (ret a).
Proof. intros st. simpl. reflexivity. Qed.

Lemma steps_raise {A} e : steps (raise (A:=A) e).
Proof. intros st. simpl. reflexivity. Qed.

Lemma steps_get : steps get.
Proof. intros st. simpl. reflexivity. Qed.

Lemma steps_modify f : (∀ st, R st (f st)) → steps (modify f).
Proof. intros H st. apply H. Qed.

Lemma steps_bind {A B} (m : M S A) (k : A → M S B) :
  steps m → (∀ a, steps (k a)) → steps (bind m k).
Proof.
  intros Hm Hk st. unfold bind. specialize (Hm st).
  destruct (m st) as [st1 [a|e]]; simpl in *; [|done].
  etrans; [exact Hm|apply Hk].
Qed.

Lemma steps_try_except {A} (m : M S A) h :
  steps m → (∀ e k, h e = Some k → steps k) → steps (try_except m h).
Proof.
  intros Hm Hh st. unfold try_except. specialize (Hm st).
  destruct (m st) as [st1 [a|e]]; simpl in *; [done|].
  destruct (h e) as [k|] eqn:E; [|done].
  etrans; [exact Hm|]. by eapply Hh.
Qed.

Lemma steps_for_each {A} (l : list A) body :
  (∀ x, steps (body x)) → steps (for_each l body).
Proof.
  intros H. induction l as [|x l IH]; simpl; [apply steps_ret|].
  apply steps_bind; auto.
Qed.

Lemma steps_for_each_in {A} (l : list A) body :
  (∀ x, x ∈ l → steps (body x)) → steps (for_each l body).
Proof.
  intros H. induction l as [|x l IH]; simpl; [apply steps_ret|].
  apply steps_bind; [apply H, list_elem_of_here|intros _].
  apply IH. intros y Hy. by apply H, list_elem_of_further.
Qed.

Lemma steps_for_fold {A V} (l : list A) (body : V → A → M S V) v :
  (∀ v x, steps (body v x)) → steps (for_fold l body v).
Proof.
  intros H. revert v. induction l as [|x l IH]; intros v; simpl; [apply steps_ret|].
  apply steps_bind; auto.
Qed.
End Steps.

Lemma steps_mono {S} (R Q : relation S) {A} (m : M S A) :
  (∀ s s', R s s' → Q s s') → steps R m → steps Q m.
Proof. intros H Hm st. apply H, Hm. Qed.

(** One step of the structural proof that [m] has the invariant; [leaf]
    closes the goals [R st (f st)] of the state updates. *)
Ltac steps_step leaf :=
  lazymatch goal with
  | |- steps _ (bind _ _) => apply steps_bind; [apply _| |intros ?]
  | |- steps _ (ret _) => apply steps_ret; apply _
  | |- steps _ (raise _) => apply steps_raise; apply _
  | |- steps _ get => apply steps_get; apply _
  | |- steps _ (modify _) => apply steps_modify; intros ?; leaf
  | |- steps _ (for_each _ _) => apply steps_for_each; [apply _|intros ?]
  | |- steps _ (try_except _ _) =>
      apply steps_try_except;
      [apply _| |let e := fresh "e" in let k := fresh "k" in let H := fresh "H" in
                 intros e k H; first [injection H as <-|destruct e; try discriminate H;
                                                        injection H as <-]]
  | |- steps _ (let _ := _ in _) => cbv zeta
  | |- steps _ (match ?x with _ => _ end) => destruct x
  end.

End ExecFacts.

(** * Facts about the consumer *)
Module RestoreFacts.
Import Exec ExecFacts Restore.
Local Open Scope exec_scope.

#[global] Instance message_eq_dec : EqDecision message.
Proof. solve_decision. Defined.

#[global] Instance event_eq_dec : EqDecision event.
Proof. solve_decision. Defined.

(** The log only grows, by events that satisfy [P]. *)
Definition extends (P : event → Prop) (st st' : state) : Prop :=
  ∃ tr, log st' = log st ++ tr ∧ Forall P tr.

#[global] Instance extends_preorder P : PreOrder (extends P).
Proof.
  split.
  - intros st. exists []. by rewrite app_nil_r.
  - intros s1 s2 s3 (t1 & E1 & F1) (t2 & E2 & F2). exists (t1 ++ t2).
    rewrite E2, E1, app_assoc. split; [done|]. by apply Forall_app.
Qed.

Abbreviation emits P := (steps (extends P)).

Lemma emits_bind P {A B} (m : M state A) (k : A → M state B) :
  emits P m → (∀ a, emits P (k a)) → emits P (bind m k).
Proof. apply steps_bind; apply _. Qed.

Lemma emits_ret P {A} (a : A) : emits P (ret a).
Proof. apply steps_ret; apply _. Qed.

Lemma emits_for_each P {A} (l : list A) body :
  (∀ x, emits P (body x)) → emits P (for_each l body).
Proof. apply steps_for_each; apply _. Qed.

Lemma emits_for_fold P {A V} (l : list A) (body : V → A → M state V) v :
  (∀ v x, emits P (body v x)) → emits P (for_fold l body v).
Proof. apply steps_for_fold; apply _. Qed.

Lemma extends_emit (P : event → Prop) e st :
  P e → extends P st {| backup_dir := backup_dir st; fs := fs st; log := log st ++ [e] |}.
Proof. intros H. exists [e]. simpl. auto. Qed.

Lemma extends_same_log P st st' : log st' = log st → extends P st st'.
Proof. intros H. exists []. by rewrite app_nil_r. Qed.

Lemma emits_mono (P Q : event → Prop) {A} (m : M state A) :
  (∀ e, P e → Q e) → emits P m → emits Q m.
Proof.
  intros H. apply steps_mono. intros s s' (tr & E & F). exists tr. split; [done|].
  eapply Forall_impl; eauto.
Qed.

Lemma emits_trace P {A} (m : M state A) st :
  emits P m → log (m st).1 = log st ++ trace_of m st ∧ Forall P (trace_of m st).
Proof.
  intros Hm. destruct (Hm st) as (tr & E & F). unfold trace_of.
  rewrite E, drop_app_length. done.
Qed.

Ltac emits_leaf :=
  first [ apply extends_emit; simpl; tauto
        | apply extends_same_log;
          lazymatch goal with |- log (match backup_dir ?s with _ => _ end) = _ =>
            by destruct (backup_dir s) | _ => reflexivity end ].
Ltac emits_tac := unfold print, emit; repeat (steps_step emits_leaf).

Definition not_docker (e : event) : Prop := ¬ is_docker e.

Lemma emits_read_state P name : emits P (read_state name).
Proof. unfold read_state. emits_tac. Qed.

Lemma emits_write_state P name v : P (StateWritten name v) → emits P (write_state name v).
Proof. intros. unfold write_state. emits_tac. Qed.

Lemma emits_find_latest P prefix : emits P (find_latest_non_monthly_backup prefix).
Proof. unfold find_latest_non_monthly_backup. emits_tac. Qed.

(** *** The calls on the library side

    They change the file system and log what they did; a relation that
    holds across every such change holds across the calls. *)
Section LibrarySide.
Context (R : relation state) `{!PreOrder R}.
Hypothesis R_fs : ∀ f st, R st (set_fs f st).
Hypothesis R_event : ∀ e st, is_restore_event e → R st (emit e st).1.

Ltac lib_leaf := first [ apply R_fs | by apply R_event | reflexivity ].
Ltac lib_tac := repeat (steps_step lib_leaf).

Lemma lib_emit e : is_restore_event e → steps R (emit e).
Proof. intros H st. by apply R_event. Qed.

Lemma lib_os_mkdir p : steps R (os_mkdir p).
Proof.
  unfold os_mkdir. lib_tac. by apply lib_emit.
Qed.

Lemma lib_mkdir_leaf b p : steps R (mkdir_leaf b p).
Proof. unfold mkdir_leaf. steps_step lib_leaf; [apply lib_os_mkdir|]. lib_tac. Qed.

Lemma lib_makedirs_split b name : steps R (makedirs_split b name).
Proof.
  induction name as [|tail head IH]; cbn [makedirs_split]; [apply lib_mkdir_leaf|].
  steps_step lib_leaf; [lib_tac|]. steps_step lib_leaf; [|apply lib_mkdir_leaf].
  steps_step lib_leaf; [lib_tac|]. steps_step lib_leaf; [exact IH|lib_tac].
Qed.

Lemma lib_makedirs b p : steps R (makedirs b p).
Proof. apply lib_makedirs_split. Qed.

Lemma lib_listdir d : steps R (fs_listdir d).
Proof. unfold fs_listdir. lib_tac. Qed.

Lemma lib_rmtree p : steps R (rmtree p).
Proof. unfold rmtree. lib_tac. by apply lib_emit. Qed.

Lemma lib_os_remove p : steps R (os_remove p).
Proof. unfold os_remove. lib_tac; by apply lib_emit. Qed.

Lemma lib_clear_directory d : steps R (clear_directory d).
Proof.
  unfold clear_directory. steps_step lib_leaf; [apply lib_makedirs|].
  steps_step lib_leaf; [apply lib_listdir|]. steps_step lib_leaf.
  cbv zeta. steps_step lib_leaf; [lib_tac|].
  steps_step lib_leaf; [apply lib_rmtree|apply lib_os_remove].
Qed.

Lemma lib_zip_read name : steps R (zip_read name).
Proof. unfold zip_read. lib_tac. by apply lib_emit. Qed.

Lemma lib_write_file p size : steps R (write_file p size).
Proof. unfold write_file. lib_tac; by apply lib_emit. Qed.

Lemma lib_extract_member d m : steps R (extract_member d m).
Proof.
  unfold extract_member. cbv zeta. steps_step lib_leaf; [lib_tac|].
  steps_step lib_leaf.
  { steps_step lib_leaf; [apply lib_makedirs|lib_tac]. }
  steps_step lib_leaf.
  { unfold member_is_dir. lib_tac. }
  steps_step lib_leaf; [|apply lib_write_file].
  steps_step lib_leaf; [lib_tac|]. steps_step lib_leaf; [apply lib_os_mkdir|lib_tac].
Qed.

Lemma lib_restore_body b d :
  steps R (clear_directory d;; members <- zip_read b;;
           for_each members (extract_member d)).
Proof.
  steps_step lib_leaf; [apply lib_clear_directory|].
  steps_step lib_leaf; [apply lib_zip_read|].
  steps_step lib_leaf. apply lib_extract_member.
Qed.
End LibrarySide.

Ltac emits_lib :=
  first [ apply _
        | by (intros; apply extends_same_log)
        | by (intros ? ? ?; apply extends_emit; auto) ].

Lemma emits_makedirs b p : emits is_restore_event (makedirs b p).
Proof. apply lib_makedirs; emits_lib. Qed.

Lemma emits_clear_directory d : emits is_restore_event (clear_directory d).
Proof. apply lib_clear_directory; emits_lib. Qed.

(** The lines a restore prints. *)
Definition is_restore_print (e : event) : Prop :=
  match e with
  | Printed (MsgRestoring _ _) | Printed (MsgTarget _ _)
  | Printed (MsgRestoreComplete _) => True
  | _ => False
  end.

Lemma emits_restore prefix b d :
  emits (λ e, is_restore_print e ∨ is_restore_event e)
        (restore_library_from_backup prefix b d).
Proof.
  unfold restore_library_from_backup.
  apply emits_bind; [emits_tac|intros _].
  apply emits_bind; [emits_tac|intros _].
  apply emits_bind; [apply lib_clear_directory; emits_lib|intros _].
  apply emits_bind; [apply lib_zip_read; emits_lib|intros ms].
  apply emits_bind; [|intros; emits_tac].
  apply emits_for_each. intros m. apply lib_extract_member; emits_lib.
Qed.

(** The library-side calls leave [BACKUP_DIR] alone. *)
Definition same_backup (st st' : state) : Prop := backup_dir st' = backup_dir st.

#[global] Instance same_backup_preorder : PreOrder same_backup.
Proof. split; [done|]. intros s1 s2 s3 H1 H2. unfold same_backup in *. congruence. Qed.

Ltac same_backup_tac := unfold print, emit; repeat (steps_step ltac:(reflexivity)).
Ltac same_backup_lib := first [ apply _ | done ].

Lemma same_backup_makedirs b p : steps same_backup (makedirs b p).
Proof. apply lib_makedirs; same_backup_lib. Qed.

Lemma same_backup_clear_directory d : steps same_backup (clear_directory d).
Proof. apply lib_clear_directory; same_backup_lib. Qed.

Lemma same_backup_restore prefix b d :
  steps same_backup (restore_library_from_backup prefix b d).
Proof.
  unfold restore_library_from_backup.
  apply steps_bind; [apply _|same_backup_tac|intros _].
  apply steps_bind; [apply _|same_backup_tac|intros _].
  apply steps_bind; [apply _|apply lib_clear_directory; same_backup_lib|intros _].
  apply steps_bind; [apply _|apply lib_zip_read; same_backup_lib|intros ms].
  apply steps_bind; [apply _| |intros _; same_backup_tac].
  apply steps_for_each; [apply _|intros m].
  apply lib_extract_member; same_backup_lib.
Qed.

End RestoreFacts.

Module RestoreMain.
Import Exec ExecFacts Restore RestoreFacts.
Local Open Scope exec_scope.

Lemma emit_eq e st : emit e st = (add_log [e] st, Ok tt).
Proof. done. Qed.

Lemma print_eq m st : print m st = (add_log [Printed m] st, Ok tt).
Proof. done. Qed.

Lemma add_log_add_log t1 t2 st : add_log t2 (add_log t1 st) = add_log (t1 ++ t2) st.
Proof. unfold add_log. simpl. by rewrite app_assoc. Qed.

Lemma add_log_nil st : add_log [] st = st.
Proof. destruct st. unfold add_log. simpl. by rewrite app_nil_r. Qed.

Lemma read_state_eq name st : read_state name st = (st, stored st name).
Proof.
  unfold stored, read_state, bind, get, ret, raise.
  by destruct (files st !! name) as [[]|].
Qed.

Lemma stored_add_log tr st name : stored (add_log tr st) name = stored st name.
Proof.
  unfold stored, read_state, bind, get, ret, raise.
  change (files (add_log tr st)) with (files st).
  by destruct (files st !! name) as [[]|].
Qed.

Lemma status_of_add_log tr st p : status_of (add_log tr st) p = status_of st p.
Proof. unfold status_of. by rewrite !stored_add_log. Qed.

Lemma find_latest_eq p st :
  find_latest_non_monthly_backup p st = (st, Ok (latest_artifact st p)).
Proof.
  unfold latest_artifact, find_latest_non_monthly_backup, bind, get, ret.
  destruct (backup_dir st); [|done].
  by destruct (filter _ _).
Qed.

Lemma latest_artifact_add_log tr st p :
  latest_artifact (add_log tr st) p = latest_artifact st p.
Proof.
  unfold latest_artifact, find_latest_non_monthly_backup, bind, get, ret.
  change (backup_dir (add_log tr st)) with (backup_dir st).
  destruct (backup_dir st); [|done].
  by destruct (filter _ _).
Qed.

(** The events of the stop command. *)
Definition stop_events (any_restored : bool) : list event :=
  if any_restored then [] else [Printed MsgStopping; DockerStop; Printed MsgStopIssued].

(** What one turn of the loop does, by the status of the library. *)
Lemma main_body_eq v p d st :
  main_body v (p, d) st =
  let st1 := add_log [Printed (MsgProcessing p)] st in
  match status_of st p with
  | Unreadable e => (st1, Raise e)
  | NoRemote => (add_log [Printed (MsgNoRemoteState p)] st1, Ok v)
  | InSync => (add_log [Printed (MsgNoNewBackup p)] st1, Ok v)
  | Pending remote =>
      let st2 := add_log (Printed (MsgNewBackupDetected p) :: stop_events v) st1 in
      match latest_artifact st p with
      | None => (add_log [Printed (MsgNoBackupsFound p)] st2, Ok v)
      | Some b =>
          (restore_library_from_backup p b d;;
           write_state (local_state_file p) remote;;
           print (MsgStateUpdated p);;
           ret true) st2
      end
  end.
Proof.
  unfold main_body, status_of.
  unfold bind at 1. rewrite print_eq. cbv beta iota.
  unfold bind at 1. rewrite read_state_eq, stored_add_log. cbv beta iota.
  destruct (stored st (remote_state_file p)) as [[remote|]|e] eqn:Er; cbv beta iota.
  3: done.
  2: { unfold bind. by rewrite print_eq. }
  unfold bind at 1. rewrite read_state_eq, stored_add_log.
  destruct (stored st (local_state_file p)) as [l|e] eqn:El; [|done].
  cbv beta iota.
  destruct (decide (l = Some remote)) as [->|Hne].
  { unfold bind. by rewrite print_eq. }
  unfold bind at 1. rewrite print_eq. cbv beta iota.
  assert (∀ st0, (if negb v then stop_calibre_container else ret ()) st0
                 = (add_log (stop_events v) st0, Ok tt)) as Hstop.
  { intros st0. destruct v; simpl.
    - unfold ret. by rewrite add_log_nil.
    - unfold stop_calibre_container, bind. rewrite print_eq, emit_eq, print_eq.
      by rewrite !add_log_add_log. }
  unfold bind at 1. rewrite Hstop. cbv beta iota.
  rewrite !add_log_add_log.
  unfold bind at 1. rewrite find_latest_eq. cbv beta iota.
  rewrite latest_artifact_add_log.
  destruct (latest_artifact st p) as [b|].
  - done.
  - unfold bind. rewrite print_eq. unfold ret. by rewrite !add_log_add_log.
Qed.

(** The two lines printed for a library that needs nothing. *)
Definition quiet_events (st : state) (p : string) : list event :=
  [Printed (MsgProcessing p);
   Printed (match status_of st p with
            | NoRemote => MsgNoRemoteState p
            | _ => MsgNoNewBackup p
            end)].

Definition quiet_trace (st : state) (libs : list (string * path)) : list event :=
  flat_map (λ lib, quiet_events st lib.1) libs.

Lemma quiet_trace_add_log tr st libs : quiet_trace (add_log tr st) libs = quiet_trace st libs.
Proof.
  unfold quiet_trace, quiet_events. induction libs as [|l libs IH]; simpl; [done|].
  by rewrite IH, status_of_add_log.
Qed.

Lemma quiet_trace_prints st libs : Forall is_print (quiet_trace st libs).
Proof.
  unfold quiet_trace. induction libs as [|l libs IH]; simpl; [done|].
  repeat constructor; simpl; auto.
Qed.

(** Libraries that need nothing leave everything but the log as it is. *)
Lemma loop_quiet v libs st :
  Forall (λ lib, quiet st lib.1) libs →
  for_fold libs main_body v st = (add_log (quiet_trace st libs) st, Ok v).
Proof.
  revert st. induction libs as [|[p d] libs IH]; intros st H; cbn [for_fold quiet_trace flat_map].
  - unfold ret. by rewrite add_log_nil.
  - apply Forall_cons in H as [Hq H]. simpl in Hq.
    unfold bind. rewrite main_body_eq. cbv zeta.
    assert (∀ tr, Forall (λ lib, quiet (add_log tr st) lib.1) libs) as H'.
    { intros tr. eapply Forall_impl; [exact H|]. intros lib. unfold quiet.
      by rewrite status_of_add_log. }
    unfold quiet_events.
    destruct Hq as [Hq|Hq]; rewrite Hq; rewrite !add_log_add_log.
    + rewrite IH by apply H'. rewrite quiet_trace_add_log, add_log_add_log.
      unfold quiet_trace. simpl. by rewrite Hq.
    + rewrite IH by apply H'. rewrite quiet_trace_add_log, add_log_add_log.
      unfold quiet_trace. simpl. by rewrite Hq.
Qed.

Lemma emits_main_body_restored lib : emits not_docker (main_body true lib).
Proof.
  destruct lib as [p d]. unfold main_body, not_docker.
  apply emits_bind; [emits_tac|intros _].
  apply emits_bind; [apply emits_read_state|intros [remote|]]; [|emits_tac].
  apply emits_bind; [apply emits_read_state|intros l].
  destruct (decide _); [emits_tac|].
  apply emits_bind; [emits_tac|intros _].
  apply emits_bind; [simpl; apply emits_ret|intros _].
  apply emits_bind; [apply emits_find_latest|intros [b|]]; [|emits_tac].
  apply emits_bind.
  { eapply emits_mono, emits_restore. intros [[]| | | | | | | |] [H|H]; simpl in *; tauto. }
  intros _. apply emits_bind; [apply emits_write_state; simpl; tauto|intros _].
  emits_tac.
Qed.

Lemma main_body_restored_result lib st v :
  (main_body true lib st).2 = Ok v → v = true.
Proof.
  destruct lib as [p d]. rewrite main_body_eq. cbv zeta.
  destruct (status_of st p); simpl; try congruence.
  destruct (latest_artifact st p); simpl; [|congruence].
  unfold bind.
  destruct (restore_library_from_backup _ _ _ _) as [s1 [[]|]]; cbv beta iota; [|done].
  match goal with |- context [write_state ?a ?b ?c] =>
    destruct (write_state a b c) as [s2 [[]|]] end; cbv beta iota; [|done].
  rewrite print_eq. unfold ret. simpl. congruence.
Qed.

(** Once a library has been restored, the rest of the loop issues no
    Docker command and keeps [any_restored] set. *)
Lemma loop_restored libs st :
  ∃ tr, log (for_fold libs main_body true st).1 = log st ++ tr
        ∧ Forall not_docker tr
        ∧ ((for_fold libs main_body true st).2 = Ok true
           ∨ ∃ e, (for_fold libs main_body true st).2 = Raise e).
Proof.
  revert st. induction libs as [|lib libs IH]; intros st; cbn [for_fold].
  - exists []. rewrite app_nil_r. auto.
  - destruct (emits_main_body_restored lib st) as (tr1 & E1 & F1).
    pose proof (main_body_restored_result lib st) as Hv.
    unfold bind. destruct (main_body true lib st) as [st1 [v|e]]; simpl in *.
    + rewrite (Hv v eq_refl). destruct (IH st1) as (tr2 & E2 & F2 & R2).
      exists (tr1 ++ tr2). rewrite E2, E1, app_assoc. split; [done|].
      split; [by apply Forall_app|done].
    + exists tr1. eauto.
Qed.

Lemma emits_main_body v lib : emits (λ _, True) (main_body v lib).
Proof.
  destruct lib as [p d]. unfold main_body.
  apply emits_bind; [emits_tac|intros _].
  apply emits_bind; [apply emits_read_state|intros [remote|]]; [|emits_tac].
  apply emits_bind; [apply emits_read_state|intros l].
  destruct (decide _); [emits_tac|].
  apply emits_bind; [emits_tac|intros _].
  apply emits_bind; [destruct v; simpl; [apply emits_ret|];
                     unfold stop_calibre_container; emits_tac|intros _].
  apply emits_bind; [apply emits_find_latest|intros [b|]]; [|emits_tac].
  apply emits_bind; [eapply emits_mono, emits_restore; done|intros _].
  apply emits_bind; [by apply emits_write_state|intros _].
  emits_tac.
Qed.

Lemma loop_log libs v st :
  ∃ tr, log (for_fold libs main_body v st).1 = log st ++ tr.
Proof.
  destruct (emits_for_fold (λ _, True) libs main_body v emits_main_body st)
    as (tr & E & _). eauto.
Qed.

End RestoreMain.

Module RestoreService.
Import Exec ExecFacts Restore RestoreFacts RestoreMain.
Local Open Scope exec_scope.

Lemma trace_of_add_log {A} (m : M state A) st tr r :
  m st = (add_log tr st, r) → trace_of m st = tr.
Proof. intros E. unfold trace_of. rewrite E. simpl. by rewrite drop_app_length. Qed.

Lemma trace_of_log {A} (m : M state A) st tr :
  log (m st).1 = log st ++ tr → trace_of m st = tr.
Proof. intros E. unfold trace_of. rewrite E. by rewrite drop_app_length. Qed.

Lemma main_for_eq libs st :
  is_Some (backup_dir st) →
  main_for libs st =
  (any_restored <- for_fold libs main_body false;;
   (if any_restored : bool then start_calibre_container else print MsgNoLibrariesChanged);;
   print MsgAllProcessed) st.
Proof. intros [d Hd]. unfold main_for. unfold bind at 1, get. by rewrite Hd. Qed.

(** No library changed: the run only prints, and issues no command. *)
Lemma no_change_run libs st :
  is_Some (backup_dir st) →
  Forall (λ lib, quiet st lib.1) libs →
  main_for libs st
  = (add_log (quiet_trace st libs
              ++ [Printed MsgNoLibrariesChanged; Printed MsgAllProcessed]) st, Ok tt).
Proof.
  intros Hd Hq. rewrite main_for_eq by done.
  unfold bind at 1. rewrite loop_quiet by done. cbv beta iota.
  unfold bind. rewrite !print_eq. by rewrite !add_log_add_log.
Qed.

Lemma start_eq st :
  start_calibre_container st
  = (add_log [Printed MsgStarting; DockerStart; Printed MsgStartIssued] st, Ok tt).
Proof.
  unfold start_calibre_container, bind. rewrite print_eq, emit_eq, print_eq.
  by rewrite !add_log_add_log.
Qed.

Lemma not_docker_stop tr : Forall not_docker tr → DockerStop ∉ tr.
Proof. intros H Hin. eapply Forall_forall in H; [|exact Hin]. apply H. exact I. Qed.

Lemma not_docker_start tr : Forall not_docker tr → DockerStart ∉ tr.
Proof. intros H Hin. eapply Forall_forall in H; [|exact Hin]. apply H. exact I. Qed.

Lemma emits_restore_chain p b d remote :
  emits not_docker
    (restore_library_from_backup p b d;;
     write_state (local_state_file p) remote;;
     print (MsgStateUpdated p);;
     ret true).
Proof.
  unfold not_docker. apply emits_bind.
  { eapply emits_mono, emits_restore. intros [[]| | | | | | | |] [H|H]; simpl in *; tauto. }
  intros _. apply emits_bind; [apply emits_write_state; simpl; tauto|intros _].
  emits_tac.
Qed.

(** The first library found pending has an artifact: one stop, before
    anything else than printing; one start at the very end when the run
    completes; no start when an exception ends it. *)
Lemma first_pending_run pre p d post st remote b :
  is_Some (backup_dir st) →
  Forall (λ lib, quiet st lib.1) pre →
  status_of st p = Pending remote →
  latest_artifact st p = Some b →
  ∃ before after,
    trace_of (main_for (pre ++ (p, d) :: post)) st = before ++ DockerStop :: after
    ∧ Forall is_print before
    ∧ DockerStop ∉ after
    ∧ match (main_for (pre ++ (p, d) :: post) st).2 with
      | Ok _ => ∃ mid, after = (mid ++ [DockerStart; Printed MsgStartIssued;
                                         Printed MsgAllProcessed])
                       ∧ DockerStart ∉ mid
      | Raise _ => DockerStart ∉ after
      end.
Proof.
  intros Hd Hq Hp Hb.
  exists (quiet_trace st pre ++ [Printed (MsgProcessing p); Printed (MsgNewBackupDetected p);
                                 Printed MsgStopping]).
  unfold trace_of.
  destruct (main_for (pre ++ (p, d) :: post) st) as [stF rF] eqn:EM.
  cbn [fst snd].
  rewrite main_for_eq in EM by done.
  unfold bind at 1 in EM. rewrite for_fold_app in EM.
  unfold bind at 1 in EM. rewrite loop_quiet in EM by done. cbv beta iota in EM.
  cbn [for_fold] in EM. unfold bind at 1 in EM. rewrite main_body_eq in EM. cbv zeta in EM.
  rewrite status_of_add_log, latest_artifact_add_log, Hp, Hb in EM.
  rewrite !add_log_add_log in EM. cbn [stop_events app] in EM.
  set (st2 := add_log _ st) in EM.
  destruct (emits_restore_chain p b d remote st2) as (tr3 & E3 & F3).
  destruct ((restore_library_from_backup p b d;; _) st2) as [st3 [v3|e3]] eqn:ER;
    cbv beta iota in EM; simpl in E3.
  2: { (* the restore raised *)
    injection EM as <- <-.
    exists (Printed MsgStopIssued :: tr3).
    split; [|split; [|split]].
    - rewrite E3, <- !app_assoc, drop_app_length. done.
    - apply Forall_app. split; [apply quiet_trace_prints|]. repeat constructor.
    - apply not_elem_of_cons. split; [done|]. by apply not_docker_stop.
    - apply not_elem_of_cons. split; [done|]. by apply not_docker_start. }
  assert (v3 = true) as ->.
  { clear -ER. unfold bind in ER.
    destruct (restore_library_from_backup _ _ _ _) as [s1 [[]|]]; [|done].
    match type of ER with context [write_state ?a ?b ?c] =>
      destruct (write_state a b c) as [s2 [[]|]] end; [|done].
    rewrite print_eq in ER. unfold ret in ER. congruence. }
  destruct (loop_restored post st3) as (tr4 & E4 & F4 & R4).
  destruct (for_fold post main_body true st3) as [st4 [v4|e4]] eqn:EL;
    cbv beta iota in EM; simpl in E4, R4.
  2: { injection EM as <- <-.
    exists (Printed MsgStopIssued :: tr3 ++ tr4).
    split; [|split; [|split]].
    - rewrite E4, E3, <- !app_assoc, drop_app_length. done.
    - apply Forall_app. split; [apply quiet_trace_prints|]. repeat constructor.
    - apply not_elem_of_cons. split; [done|].
      apply not_docker_stop. by apply Forall_app.
    - apply not_elem_of_cons. split; [done|].
      apply not_docker_start. by apply Forall_app. }
  destruct R4 as [R4|[e R4]]; [|done]. injection R4 as ->.
  unfold bind in EM. rewrite start_eq, print_eq, add_log_add_log in EM.
  injection EM as <- <-. cbn [log add_log].
  exists (Printed MsgStopIssued :: tr3 ++ tr4
          ++ [Printed MsgStarting; DockerStart; Printed MsgStartIssued; Printed MsgAllProcessed]).
  split; [|split; [|split]].
  - rewrite E4, E3, <- !app_assoc, drop_app_length. done.
  - apply Forall_app. split; [apply quiet_trace_prints|]. repeat constructor.
  - apply not_elem_of_cons. split; [done|].
    rewrite !not_elem_of_app. split; [by apply not_docker_stop|].
    split; [by apply not_docker_stop|]. set_solver.
  - exists (Printed MsgStopIssued :: tr3 ++ tr4 ++ [Printed MsgStarting]).
    split; [simpl; by rewrite <- !app_assoc|].
    apply not_elem_of_cons. split; [done|].
    rewrite !not_elem_of_app. split; [by apply not_docker_start|].
    split; [by apply not_docker_start|]. set_solver.
Qed.

End RestoreService.

Module RestoreState.
Import Exec ExecFacts Restore RestoreFacts RestoreMain RestoreService PyFacts.
Local Open Scope exec_scope.

(** *** The names of the state files *)

Lemma local_ne_remote p q : local_state_file p ≠ remote_state_file q.
Proof.
  unfold local_state_file, remote_state_file, LOCAL_STATE_SUFFIX. intros E.
  assert (Py.endswith (q +:+ "_library_state.txt") "_library_state.txt" = true) as H
    by apply endswith_app.
  rewrite <- E, endswith_app_r in H by (simpl; lia). by vm_compute in H.
Qed.

Lemma local_state_file_inj p q : local_state_file p = local_state_file q → p = q.
Proof. apply app_inv_tail. Qed.

Lemma remote_state_file_inj p q : remote_state_file p = remote_state_file q → p = q.
Proof. apply app_inv_tail. Qed.

(** *** What [stored] and [status_of] depend on *)

Lemma stored_ext st st' name :
  files st' !! name = files st !! name → stored st' name = stored st name.
Proof.
  intros E. unfold stored, read_state, bind, get, ret, raise. rewrite E.
  by destruct (files st !! name) as [[]|].
Qed.

Lemma status_of_ext st st' p :
  files st' !! remote_state_file p = files st !! remote_state_file p →
  files st' !! local_state_file p = files st !! local_state_file p →
  status_of st' p = status_of st p.
Proof.
  intros E1 E2. unfold status_of.
  by rewrite (stored_ext _ _ _ E1), (stored_ext _ _ _ E2).
Qed.

(** A value read from a state file is already stripped and not empty. *)
Lemma stored_value st name v :
  stored st name = Ok (Some v) → Py.strip v = v ∧ v ≠ "".
Proof.
  unfold stored, read_state, bind, get, ret, raise. simpl.
  destruct (files st !! name) as [[s|]|]; simpl; try done.
  destruct (String.eqb_spec (Py.strip s) ""); [done|].
  intros [= <-]. split; [apply strip_idemp|done].
Qed.

Lemma stored_text st name v :
  files st !! name = Some (Backup.Text v) → Py.strip v = v → v ≠ "" →
  stored st name = Ok (Some v).
Proof.
  intros E Hs Hv. unfold stored, read_state, bind, get, ret. simpl. rewrite E. simpl.
  rewrite Hs. by destruct (String.eqb_spec v "").
Qed.

Lemma write_state_eq name v st :
  write_state name v st
  = ({| backup_dir := Some (<[name := Backup.Text v]> (files st)); fs := fs st;
        log := log st ++ [StateWritten name v] |}, Ok tt).
Proof.
  unfold write_state, bind, modify, emit, files, set_backup_dir.
  destruct st as [[d|] f l]; reflexivity.
Qed.

(** *** The loop body only writes the consumer state file of its library *)

Definition backup_frame (keep : string → Prop) (st st' : state) : Prop :=
  ∀ n, keep n → files st' !! n = files st !! n.

#[global] Instance backup_frame_preorder keep : PreOrder (backup_frame keep).
Proof.
  split; [done|]. intros s1 s2 s3 H1 H2 n Hn. rewrite H2, H1; done.
Qed.

Lemma same_backup_frame keep st st' : same_backup st st' → backup_frame keep st st'.
Proof. intros H n _. unfold files. by rewrite H. Qed.

Lemma frame_main_body v lib :
  steps (backup_frame (λ n, n ≠ local_state_file lib.1)) (main_body v lib).
Proof.
  destruct lib as [p d]. intros st. rewrite main_body_eq. cbv zeta.
  destruct (status_of st p); simpl; try done.
  destruct (latest_artifact st p) as [b|]; [|done].
  unfold bind.
  pose proof (same_backup_restore p b d
    (add_log (Printed (MsgNewBackupDetected p) :: stop_events v)
       (add_log [Printed (MsgProcessing p)] st))) as HR.
  destruct (restore_library_from_backup _ _ _ _) as [s1 [[]|]];
    cbv beta iota; cbn [fst] in *.
  - rewrite write_state_eq. cbv beta iota. rewrite print_eq. cbn.
    intros n Hn. unfold files at 1. cbn.
    rewrite lookup_insert_ne by done. unfold files. by rewrite HR.
  - apply same_backup_frame. exact HR.
Qed.

Lemma status_of_main_body_other v q d st p :
  p ≠ q → status_of (main_body v (q, d) st).1 p = status_of st p.
Proof.
  intros Hne. pose proof (frame_main_body v (q, d) st) as H. simpl in H.
  apply status_of_ext; apply H.
  - intros E. symmetry in E. by apply local_ne_remote in E.
  - intros E. by apply local_state_file_inj in E.
Qed.

End RestoreState.

Module RestoreConverge.
Import Exec ExecFacts Restore RestoreFacts RestoreMain RestoreService PyFacts RestoreState.
Local Open Scope exec_scope.

(** A restore that returns has printed its last line after everything
    else it did. *)
Lemma restore_ok_trace p b d st s1 :
  restore_library_from_backup p b d st = (s1, Ok tt) →
  ∃ tr, log s1 = log st ++ tr ++ [Printed (MsgRestoreComplete p)]
        ∧ Forall (λ e, is_restore_print e ∨ is_restore_event e) tr
        ∧ backup_dir s1 = backup_dir st.
Proof.
  intros E. pose proof (same_backup_restore p b d st) as HB. rewrite E in HB.
  set (m := (print (MsgRestoring p b);; print (MsgTarget p d);; clear_directory d;;
             members <- zip_read b;; for_each members (extract_member d))).
  assert (emits (λ e, is_restore_print e ∨ is_restore_event e) m) as Hm.
  { unfold m. apply emits_bind; [emits_tac|intros _].
    apply emits_bind; [emits_tac|intros _].
    apply emits_bind; [apply lib_clear_directory; emits_lib|intros _].
    apply emits_bind; [apply lib_zip_read; emits_lib|intros ms].
    apply emits_for_each. intros x. apply lib_extract_member; emits_lib. }
  destruct (Hm st) as (tr & El & F).
  assert (restore_library_from_backup p b d st
          = bind m (λ _, print (MsgRestoreComplete p)) st) as E'.
  { unfold restore_library_from_backup, m, bind.
    destruct (print (MsgRestoring p b) st) as [s [[]|]]; [|done].
    destruct (print (MsgTarget p d) s) as [s' [[]|]]; [|done].
    destruct (clear_directory d s') as [s'' [[]|]]; [|done].
    destruct (zip_read b s'') as [s3 [ms|]]; [|done].
    by destruct (for_each ms (extract_member d) s3) as [s4 [[]|]]. }
  rewrite E' in E.
  unfold bind in E. destruct (m st) as [s [[]|e]]; [|done]. simpl in *.
  rewrite print_eq in E. injection E as <-. exists tr. simpl.
  rewrite El, app_assoc. done.
Qed.

(** What a turn of the loop that restores its library leaves behind. *)
Lemma restoring_body v p d st remote b st' v' :
  status_of st p = Pending remote →
  latest_artifact st p = Some b →
  main_body v (p, d) st = (st', Ok v') →
  v' = true
  ∧ stored st' (local_state_file p) = Ok (Some remote)
  ∧ stored st' (remote_state_file p) = Ok (Some remote)
  ∧ ∃ tr, log st' = log st ++ tr ++ [Printed (MsgRestoreComplete p);
                                      StateWritten (local_state_file p) remote;
                                      Printed (MsgStateUpdated p)]
          ∧ Forall (λ e, ∀ q, e ≠ Printed (MsgStateUpdated q)) tr.
Proof.
  intros Hp Hb E. rewrite main_body_eq in E. cbv zeta in E. rewrite Hp, Hb in E.
  rewrite add_log_add_log in E. unfold bind in E.
  set (st2 := add_log _ st) in E.
  destruct (restore_library_from_backup p b d st2) as [s1 [[]|]] eqn:ER; [|done].
  rewrite write_state_eq, print_eq in E. unfold ret in E. injection E as <- <-.
  apply restore_ok_trace in ER as (tr & El & F & HB).
  assert (stored st (remote_state_file p) = Ok (Some remote)) as Hr.
  { unfold status_of in Hp.
    destruct (stored st (remote_state_file p)) as [[r|]|]; try done.
    destruct (stored st (local_state_file p)); [|done].
    by destruct (decide _); simplify_eq. }
  destruct (stored_value _ _ _ Hr) as [Hs Hne].
  split; [done|]. split; [|split].
  - apply stored_text; [|done..]. unfold files. simpl. apply lookup_insert_eq.
  - rewrite <- Hr. apply stored_ext. unfold files at 1. simpl.
    rewrite lookup_insert_ne by apply local_ne_remote.
    unfold files. rewrite HB. done.
  - exists ([Printed (MsgProcessing p)] ++ (Printed (MsgNewBackupDetected p) :: stop_events v) ++ tr).
    split.
    + simpl. rewrite El. unfold st2. simpl.
      repeat (rewrite <- app_assoc; simpl). done.
    + apply Forall_app. split; [by repeat constructor|].
      apply Forall_cons. split; [done|]. apply Forall_app. split.
      * destruct v; simpl; by repeat constructor.
      * eapply Forall_impl; [exact F|]. intros [] [H|H] q; simpl in *; try done.
        destruct m; simpl in *; try done.
Qed.

Definition no_state_update (e : event) : Prop :=
  ∀ q, e ≠ Printed (MsgStateUpdated q).

(** A turn of the loop either restores its library, or prints no
    "state updated" line at all. *)
Lemma main_body_cases v q d st :
  ∃ tb, log (main_body v (q, d) st).1 = log st ++ tb
        ∧ (Forall no_state_update tb
           ∨ ∃ remote b, status_of st q = Pending remote
                         ∧ latest_artifact st q = Some b
                         ∧ (main_body v (q, d) st).2 = Ok true).
Proof.
  destruct (main_body v (q, d) st) as [s1 r] eqn:E. simpl.
  pose proof E as E0.
  rewrite main_body_eq in E. cbv zeta in E.
  destruct (status_of st q) as [| |remote|e] eqn:Hs.
  1,2,4: injection E as <- <-; eexists; split;
         [simpl; rewrite <- ?app_assoc; reflexivity|left; by repeat constructor].
  destruct (latest_artifact st q) as [b|] eqn:Hb.
  2: { injection E as <- <-. eexists. split; [simpl; rewrite <- ?app_assoc; reflexivity|].
       left. simpl. repeat (apply Forall_cons; split; [done|]).
       apply Forall_app. split; [destruct v; by repeat constructor|by repeat constructor]. }
  destruct r as [v'|e].
  - destruct (restoring_body _ _ _ _ _ _ _ _ Hs Hb E0) as (-> & _ & _ & tr & El & _).
    eexists. split; [exact El|]. right. eauto.
  - rewrite add_log_add_log in E. unfold bind in E.
    set (st2 := add_log _ st) in E.
    destruct (emits_restore q b d st2) as (tr & El & F).
    destruct (restore_library_from_backup q b d st2) as [s2 [[]|e2]].
    { rewrite write_state_eq, print_eq in E. by unfold ret in E. }
    injection E as <- <-. simpl in El. eexists. split.
    { rewrite El. unfold st2. simpl. rewrite <- app_assoc. reflexivity. }
    left. simpl. repeat (apply Forall_cons; split; [done|]).
    apply Forall_app. split; [destruct v; by repeat constructor|].
    eapply Forall_impl; [exact F|].
    intros [m| | | | | | | |] [H|H] ?; simpl in *; try done. by destruct m.
Qed.

(** The turns for the other libraries leave a library's state files alone. *)
Lemma loop_frame libs v st n :
  (∀ q, q ∈ libs.*1 → n ≠ local_state_file q) →
  files (for_fold libs main_body v st).1 !! n = files st !! n.
Proof.
  revert v st. induction libs as [|[q d] libs IH]; intros v st Hn; cbn [for_fold].
  - done.
  - pose proof (frame_main_body v (q, d) st n) as Hb. unfold bind.
    destruct (main_body v (q, d) st) as [s1 [v1|e]]; simpl in *.
    + rewrite IH; [apply Hb|]; intros; apply Hn; simpl;
        [apply list_elem_of_here|by apply list_elem_of_further].
    + apply Hb. apply Hn. apply list_elem_of_here.
Qed.

Lemma loop_stored_other libs v st p :
  p ∉ libs.*1 →
  stored (for_fold libs main_body v st).1 (local_state_file p) = stored st (local_state_file p)
  ∧ stored (for_fold libs main_body v st).1 (remote_state_file p) = stored st (remote_state_file p).
Proof.
  intros Hp. split; apply stored_ext, loop_frame; intros q Hq E.
  - apply local_state_file_inj in E. by subst.
  - symmetry in E. by apply local_ne_remote in E.
Qed.

(** Every "state updated" line of the loop comes right after the restore
    of that library completed and its state was written, and the state
    files still agree when the loop ends. *)
Lemma loop_converges libs v st tr p :
  NoDup libs.*1 →
  log (for_fold libs main_body v st).1 = log st ++ tr →
  Printed (MsgStateUpdated p) ∈ tr →
  ∃ remote tr1 tr2,
    tr = tr1 ++ [Printed (MsgRestoreComplete p);
                 StateWritten (local_state_file p) remote;
                 Printed (MsgStateUpdated p)] ++ tr2
    ∧ stored (for_fold libs main_body v st).1 (local_state_file p) = Ok (Some remote)
    ∧ stored (for_fold libs main_body v st).1 (remote_state_file p) = Ok (Some remote).
Proof.
  revert v st tr. induction libs as [|[q d] libs IH]; intros v st tr Hnd El Hin;
    cbn [for_fold] in *.
  - simpl in El. assert (tr = []) as -> by (eapply app_inv_head; rewrite app_nil_r; done).
    by apply elem_of_nil in Hin.
  - apply NoDup_cons in Hnd as [Hq Hnd].
    destruct (main_body_cases v q d st) as (tb & Eb & Hcase).
    unfold bind in *.
    destruct (main_body v (q, d) st) as [s1 [v1|e]] eqn:EB; cbn [fst snd] in *.
    2: { (* the body raised: no update line *)
      rewrite Eb in El. apply app_inv_head in El as <-.
      destruct Hcase as [F|(? & ? & _ & _ & ?)]; [|done].
      eapply Forall_forall in F; [|exact Hin]. by destruct (F p). }
    destruct (loop_log libs v1 s1) as (t2 & E2).
    assert (tr = tb ++ t2) as ->.
    { eapply app_inv_head. rewrite <- El, E2, Eb, app_assoc. done. }
    apply elem_of_app in Hin as [Hin|Hin].
    + (* the line was printed by this turn *)
      destruct Hcase as [F|(remote & b & Hs & Hb & _)].
      { eapply Forall_forall in F; [|exact Hin]. by destruct (F p). }
      fold (main_body v (q, d) st) in EB.
      destruct (restoring_body _ _ _ _ _ _ _ _ Hs Hb EB) as (-> & Sl & Sr & trr & Er & Fr).
      assert (tb = trr ++ [Printed (MsgRestoreComplete q);
                           StateWritten (local_state_file q) remote;
                           Printed (MsgStateUpdated q)]) as ->.
      { eapply app_inv_head. rewrite <- Er, Eb. done. }
      assert (p = q) as ->.
      { apply elem_of_app in Hin as [Hin|Hin].
        - eapply Forall_forall in Fr; [|exact Hin]. by destruct (Fr p).
        - repeat (apply elem_of_cons in Hin as [Hin|Hin]; [congruence|]).
          by apply elem_of_nil in Hin. }
      exists remote, trr, t2. split; [by rewrite <- !app_assoc|].
      destruct (loop_stored_other libs true s1 q Hq) as [-> ->]. done.
    + destruct (IH v1 s1 t2 Hnd E2 Hin) as (remote & tr1 & tr2 & -> & Sl & Sr).
      exists remote, (tb ++ tr1), tr2. split; [by rewrite <- !app_assoc|done].
Qed.

Lemma status_in_sync st p remote :
  stored st (local_state_file p) = Ok (Some remote) →
  stored st (remote_state_file p) = Ok (Some remote) →
  status_of st p = InSync.
Proof. intros Hl Hr. unfold status_of. rewrite Hr, Hl. by rewrite decide_True. Qed.

End RestoreConverge.

(** * The start command, and the libraries a run attempts *)
Module RestoreStart.
Import Exec ExecFacts Restore RestoreFacts RestoreMain RestoreService PyFacts
       RestoreState RestoreConverge.
Local Open Scope exec_scope.

Definition not_start (e : event) : Prop :=
  match e with DockerStart => False | _ => True end.

Lemma emits_main_body_no_start v lib : emits not_start (main_body v lib).
Proof.
  destruct lib as [p d]. unfold main_body, not_start.
  apply emits_bind; [emits_tac|intros _].
  apply emits_bind; [apply emits_read_state|intros [remote|]]; [|emits_tac].
  apply emits_bind; [apply emits_read_state|intros l].
  destruct (decide _); [emits_tac|].
  apply emits_bind; [emits_tac|intros _].
  apply emits_bind; [destruct v; simpl; [apply emits_ret|];
                     unfold stop_calibre_container; emits_tac|intros _].
  apply emits_bind; [apply emits_find_latest|intros [b|]]; [|emits_tac].
  apply emits_bind.
  { eapply emits_mono, emits_restore. intros [[]| | | | | | | |] [H|H]; simpl in *; done. }
  intros _. apply emits_bind; [by apply emits_write_state|intros _].
  emits_tac.
Qed.

(** [any_restored] is set exactly when a "state updated" line has been
    printed. *)
Lemma main_body_flag v lib st s1 v1 :
  main_body v lib st = (s1, Ok v1) →
  ∃ tb, log s1 = log st ++ tb
        ∧ ((v1 = v ∧ Forall no_state_update tb)
           ∨ (v1 = true ∧ Printed (MsgStateUpdated lib.1) ∈ tb)).
Proof.
  destruct lib as [p d]. intros E. pose proof E as E0.
  rewrite main_body_eq in E. cbv zeta in E.
  destruct (status_of st p) as [| |remote|e] eqn:Hs.
  1,2: injection E as <- <-; eexists; split;
         [simpl; rewrite <- ?app_assoc; reflexivity|left; split; [done|by repeat constructor]].
  2: done.
  destruct (latest_artifact st p) as [b|] eqn:Hb.
  - destruct (restoring_body _ _ _ _ _ _ _ _ Hs Hb E0) as (-> & _ & _ & tr & El & _).
    eexists. split; [exact El|]. right. split; [done|]. cbn.
    rewrite elem_of_app. right. set_solver.
  - injection E as <- <-. eexists. split; [simpl; rewrite <- ?app_assoc; reflexivity|].
    left. split; [done|]. simpl. repeat (apply Forall_cons; split; [done|]).
    apply Forall_app. split; [destruct v; by repeat constructor|by repeat constructor].
Qed.

Lemma loop_flag libs v st s v' :
  for_fold libs main_body v st = (s, Ok v') →
  ∃ tr, log s = log st ++ tr
        ∧ Forall not_start tr
        ∧ ((v' = v ∧ Forall no_state_update tr)
           ∨ (v' = true ∧ ∃ p, Printed (MsgStateUpdated p) ∈ tr)).
Proof.
  revert v st. induction libs as [|lib libs IH]; intros v st E; cbn [for_fold] in E.
  - injection E as <- <-. exists []. rewrite app_nil_r. split; [done|]. split; [done|].
    by left.
  - unfold bind in E.
    destruct (emits_main_body_no_start v lib st) as (tb' & Eb' & Fb).
    destruct (main_body v lib st) as [s1 [v1|e]] eqn:EB; [|done]. cbn in Eb'.
    destruct (main_body_flag _ _ _ _ _ EB) as (tb & Eb & Hb).
    assert (tb' = tb) as -> by (eapply app_inv_head; by rewrite <- Eb, Eb').
    destruct (IH _ _ E) as (tr & El & Fl & Hl).
    exists (tb ++ tr). rewrite El, Eb, app_assoc. split; [done|].
    split; [by apply Forall_app|].
    destruct Hb as [[-> Hb]|[-> Hb]], Hl as [[-> Hl]|[-> (q & Hl)]].
    + left. split; [done|]. by apply Forall_app.
    + right. split; [done|]. exists q. rewrite elem_of_app. by right.
    + right. split; [done|]. exists lib.1. rewrite elem_of_app. by left.
    + right. split; [done|]. exists q. rewrite elem_of_app. by right.
Qed.

(** When the run completes, the start command is issued once, at the very
    end, if some library was restored, and not at all otherwise. *)
Lemma start_iff_restored libs st :
  is_Some (backup_dir st) →
  (main_for libs st).2 = Ok tt →
  let tr := trace_of (main_for libs) st in
  ((∃ p, Printed (MsgStateUpdated p) ∈ tr) →
   ∃ mid, tr = mid ++ [DockerStart; Printed MsgStartIssued; Printed MsgAllProcessed]
          ∧ DockerStart ∉ mid)
  ∧ ((¬ ∃ p, Printed (MsgStateUpdated p) ∈ tr) → DockerStart ∉ tr).
Proof.
  intros Hd HR. cbv zeta. unfold trace_of.
  destruct (main_for libs st) as [sf r] eqn:EM. cbn in HR |- *. subst r.
  rewrite main_for_eq in EM by done. unfold bind at 1 in EM.
  destruct (for_fold libs main_body false st) as [s [v|e]] eqn:EL; [|done].
  destruct (loop_flag _ _ _ _ _ EL) as (tr & El & Fs & Hv).
  assert (DockerStart ∉ tr) as Hns.
  { intros Hin. eapply Forall_forall in Fs; [|exact Hin]. exact Fs. }
  unfold bind in EM. destruct Hv as [[-> Hv]|[-> (q & Hv)]].
  - rewrite !print_eq, add_log_add_log in EM. injection EM as <-. cbn.
    rewrite El, <- app_assoc, drop_app_length.
    split.
    + intros (p & Hp). apply elem_of_app in Hp as [Hp|Hp].
      * eapply Forall_forall in Hv; [|exact Hp]. by destruct (Hv p).
      * repeat (apply elem_of_cons in Hp as [Hp|Hp]; [done|]). by apply elem_of_nil in Hp.
    + intros _. apply not_elem_of_app. split; [done|].
      intros Hp. repeat (apply elem_of_cons in Hp as [Hp|Hp]; [done|]).
      by apply elem_of_nil in Hp.
  - rewrite start_eq, print_eq, add_log_add_log in EM. injection EM as <-. cbn.
    rewrite El, <- app_assoc, drop_app_length. split.
    + intros _. exists (tr ++ [Printed MsgStarting]). split; [by rewrite <- app_assoc|].
      apply not_elem_of_app. split; [done|].
      intros Hp. repeat (apply elem_of_cons in Hp as [Hp|Hp]; [done|]).
      by apply elem_of_nil in Hp.
    + intros Hn. destruct Hn. exists q. rewrite elem_of_app. by left.
Qed.

(** Every library of a run that completes has been attempted. *)
Lemma main_body_processing v p d st :
  ∃ tb, log (main_body v (p, d) st).1 = log st ++ Printed (MsgProcessing p) :: tb.
Proof.
  rewrite main_body_eq. cbv zeta.
  destruct (status_of st p) as [| |remote|e].
  1,2,4: eexists; cbn; rewrite <- ?app_assoc; reflexivity.
  destruct (latest_artifact st p) as [b|].
  - match goal with |- context [?m (add_log ?t ?s)] =>
      destruct (emits_restore_chain p b d remote (add_log t s)) as (tr & E & _) end.
    eexists. rewrite E. cbn. rewrite <- !app_assoc. reflexivity.
  - eexists. cbn. rewrite <- !app_assoc. reflexivity.
Qed.

Lemma loop_attempts libs v st s v' :
  for_fold libs main_body v st = (s, Ok v') →
  ∀ lib, lib ∈ libs → Printed (MsgProcessing lib.1) ∈ drop (length (log st)) (log s).
Proof.
  revert v st. induction libs as [|[p d] libs IH]; intros v st E lib Hin.
  { by apply elem_of_nil in Hin. }
  cbn [for_fold] in E. unfold bind in E.
  destruct (main_body_processing v p d st) as (tb & Eb).
  destruct (main_body v (p, d) st) as [s1 [v1|e]] eqn:EB; [|done]. cbn in Eb.
  destruct (loop_log libs v1 s1) as (tl & El). rewrite E in El. cbn in El.
  rewrite El, Eb, <- app_assoc, drop_app_length.
  apply elem_of_cons in Hin as [->|Hin].
  - apply list_elem_of_here.
  - apply list_elem_of_further, elem_of_app. right.
    specialize (IH _ _ E lib Hin). by rewrite El, drop_app_length in IH.
Qed.

End RestoreStart.

(** * The fingerprint *)
Module FingerprintFacts.
Import Backup PyFacts.

(** Induction on a tree, with the hypothesis for every child. *)
Lemma entry_ind' (P : entry → Prop) :
  (∀ st, P (File st)) →
  P DirLink →
  (∀ cs, Forall (λ nc, P nc.2) cs → P (Dir cs)) →
  ∀ e, P e.
Proof.
  intros HF HL HD. fix IH 1. intros [st|cs|]; [apply HF| |apply HL].
  apply HD. induction cs as [|[n c] cs IHcs]; constructor; [apply IH|apply IHcs].
Qed.

(** *** Lookup by name *)

Lemma lookup_name_map {A B} (f : string → A → B) n (cs : list (string * A)) :
  lookup_name n (List.map (λ nc, match nc with (m, c) => (m, f m c) end) cs)
  = f n <$> lookup_name n cs.
Proof.
  induction cs as [|[m c] cs IH]; simpl; [done|].
  destruct (String.eqb_spec n m) as [->|]; [done|apply IH].
Qed.

Lemma lookup_name_None {A} n (cs : list (string * A)) :
  lookup_name n cs = None ↔ n ∉ cs.*1.
Proof.
  induction cs as [|[m c] cs IH]; simpl.
  - split; [intros _ H; by apply elem_of_nil in H|done].
  - rewrite not_elem_of_cons. destruct (String.eqb_spec n m) as [->|Hne].
    + split; [done|]. by intros [? _].
    + rewrite IH. tauto.
Qed.

Lemma lookup_name_Some {A} n c (cs : list (string * A)) :
  NoDup cs.*1 → lookup_name n cs = Some c ↔ (n, c) ∈ cs.
Proof.
  induction cs as [|[m c'] cs IH]; simpl; intros Hnd.
  - split; [done|]. intros H. by apply elem_of_nil in H.
  - apply NoDup_cons in Hnd as [Hm Hnd]. rewrite elem_of_cons.
    destruct (String.eqb_spec n m) as [->|Hne].
    + split; [intros [= ->]; by left|].
      intros [[= ->]|H]; [done|].
      destruct Hm. apply list_elem_of_fmap. by exists (m, c).
    + rewrite IH by done. split; [by right|]. intros [[= -> ->]|H]; done.
Qed.

Lemma lookup_name_elem {A} n c (cs : list (string * A)) :
  lookup_name n cs = Some c → (n, c) ∈ cs.
Proof.
  induction cs as [|[m c'] cs IH]; simpl; [done|].
  destruct (String.eqb_spec n m) as [->|Hne].
  - intros [= ->]. apply list_elem_of_here.
  - intros H. apply list_elem_of_further. by apply IH.
Qed.

Lemma entry_at_snoc top rel n cs :
  entry_at top rel = Some (Dir cs) → entry_at top (rel ++ [n]) = lookup_name n cs.
Proof.
  revert top. induction rel as [|m rel IH]; intros top; simpl.
  - intros [= ->]. by destruct (lookup_name n cs).
  - destruct top as [|cs'|]; try done.
    destruct (lookup_name m cs') as [c|]; [apply IH|done].
Qed.

(** *** Sorting *)

Lemma StronglySorted_filter {A} (R : relation A) (P : A → Prop)
    `{!∀ x, Decision (P x)} l :
  StronglySorted R l → StronglySorted R (filter P l).
Proof.
  induction 1 as [|x l Hl IH Hx]; [constructor|].
  rewrite filter_cons. destruct (decide (P x)); [|done].
  constructor; [done|]. apply Forall_forall. intros y Hy.
  apply list_elem_of_filter in Hy as [_ Hy].
  eapply Forall_forall in Hx; eauto.
Qed.

Lemma sort_sorted l : StronglySorted String.le (Py.sort l).
Proof. apply StronglySorted_merge_sort; apply _. Qed.

Lemma sort_perm l : Py.sort l ≡ₚ l.
Proof. apply merge_sort_Permutation. Qed.

(** The sorted list only depends on the names, not on their order. *)
Lemma sort_unique l1 l2 : l1 ≡ₚ l2 → Py.sort l1 = Py.sort l2.
Proof.
  intros H. apply (StronglySorted_unique String.le); [apply sort_sorted..|].
  by rewrite !sort_perm.
Qed.

Lemma sort_filter (P : string → Prop) `{!∀ x, Decision (P x)} l :
  Py.sort (filter P l) = filter P (Py.sort l).
Proof.
  apply (StronglySorted_unique String.le).
  - apply sort_sorted.
  - apply StronglySorted_filter, sort_sorted.
  - by rewrite !sort_perm.
Qed.

Lemma flat_map_filter {A B} (g : A → list B) (P : A → Prop) `{!∀ x, Decision (P x)} l :
  (∀ x, x ∈ l → ¬ P x → g x = []) → flat_map g (filter P l) = flat_map g l.
Proof.
  induction l as [|x l IH]; intros Hg; [done|].
  rewrite filter_cons. simpl. destruct (decide (P x)); simpl.
  - rewrite IH; [done|]. intros y Hy. apply Hg. by apply list_elem_of_further.
  - rewrite (Hg x); [|apply list_elem_of_here|done]. simpl.
    apply IH. intros y Hy. apply Hg. by apply list_elem_of_further.
Qed.

Lemma flat_map_ext_in {A B} (g h : A → list B) l :
  (∀ x, x ∈ l → g x = h x) → flat_map g l = flat_map h l.
Proof.
  induction l as [|x l IH]; intros H; [done|]. simpl.
  rewrite (H x) by apply list_elem_of_here. f_equal.
  apply IH. intros y Hy. apply H. by apply list_elem_of_further.
Qed.

(** The names of the children on which [Q] is [b]. *)
Lemma names_filter_aux (Q : entry → bool) (b : bool) (f : string → option entry)
    (cs : list (string * entry)) :
  (∀ n c, (n, c) ∈ cs → f n = Some c) →
  (filter (λ nc, Q nc.2 = b) cs).*1
  = filter (λ n, (Q <$> f n) = Some b) cs.*1.
Proof.
  induction cs as [|[n c] cs IH]; intros Hl; [done|].
  rewrite filter_cons, fmap_cons, filter_cons. simpl.
  rewrite (Hl n c) by apply list_elem_of_here. simpl.
  assert (∀ n c, (n, c) ∈ cs → f n = Some c) as Hl'.
  { intros. apply Hl. by apply list_elem_of_further. }
  destruct (decide (Q c = b)) as [Hq|Hq].
  - rewrite decide_True by congruence. rewrite fmap_cons. simpl. f_equal. by apply IH.
  - rewrite decide_False by congruence. by apply IH.
Qed.

Lemma names_filter (Q : entry → bool) (b : bool) (cs : list (string * entry)) :
  NoDup cs.*1 →
  (filter (λ nc, Q nc.2 = b) cs).*1
  = filter (λ n, (Q <$> lookup_name n cs) = Some b) cs.*1.
Proof.
  intros Hnd. apply names_filter_aux. intros n c. by apply lookup_name_Some.
Qed.

(** *** What the hasher is fed *)

Lemma str_app_nil_r s : s +:+ "" = s.
Proof. induction s as [|c s IH]; [done|]. rewrite app_cons. by rewrite IH. Qed.

Lemma concat_str_app l1 l2 : concat_str (l1 ++ l2) = concat_str l1 +:+ concat_str l2.
Proof.
  induction l1 as [|s l1 IH]; simpl; [done|]. by rewrite IH, str_app_assoc.
Qed.

Lemma fed_fold {A} (F : Sha256.hasher → A → Sha256.hasher) (L : A → list string) xs h :
  (∀ h x, Sha256.fed (F h x) = Sha256.fed h +:+ concat_str (L x)) →
  Sha256.fed (fold_left F xs h) = Sha256.fed h +:+ concat_str (flat_map L xs).
Proof.
  intros HF. revert h. induction xs as [|x xs IH]; intros h; simpl.
  - by rewrite str_app_nil_r.
  - by rewrite IH, HF, concat_str_app, str_app_assoc.
Qed.

(** The line of one file of a yield, if it can be stat-ed. *)
Definition file_line (top : entry) (root : path) (file : string) : list string :=
  match os_stat top (root ++ [file]) with
  | Some st => [entry_line (root ++ [file]) st]
  | None => []
  end.

(** The lines of one yield of [os.walk]. *)
Definition lines (top : entry) (y : path * list string) : list string :=
  flat_map (file_line top y.1) (Py.sort y.2).

(** The loop of [compute_library_fingerprint] hashes the lines of the
    yields, in order. *)
Lemma fingerprint_lines top :
  compute_library_fingerprint top
  = Sha256.hexdigest_of (concat_str (flat_map (lines top) (os_walk Py.sort [] top))).
Proof.
  unfold compute_library_fingerprint, Sha256.hexdigest. f_equal.
  rewrite (fed_fold _ (lines top)); [done|].
  intros h [root files]. unfold lines. simpl.
  rewrite (fed_fold _ (file_line top root)); [done|].
  intros h' file. unfold file_line.
  destruct (os_stat top (root ++ [file])); simpl; by rewrite ?str_app_nil_r.
Qed.

Lemma os_walk_Dir visit root cs :
  os_walk visit root (Dir cs)
  = (root, (filter (λ nc, is_dir nc.2 = false) cs).*1)
    :: concat (map (λ d, default [] (os_walk visit (root ++ [d]) <$> lookup_name d cs))
                   (visit (filter (λ nc, is_dir nc.2 = true) cs).*1)).
Proof.
  cbn [os_walk]. f_equal. f_equal. apply map_ext. intros d.
  by rewrite (lookup_name_map (λ n c, os_walk visit (root ++ [n]) c)).
Qed.

Lemma spec_records_Dir rel cs :
  spec_records rel (Dir cs)
  = flat_map (λ n, match lookup_name n cs with
                   | Some (File (Some st)) => [entry_line (rel ++ [n]) st]
                   | _ => []
                   end) (Py.sort cs.*1)
    ++ flat_map (λ n, default [] (spec_records (rel ++ [n]) <$> lookup_name n cs))
                (Py.sort cs.*1).
Proof.
  cbn [spec_records]. f_equal. apply flat_map_ext. intros n.
  by rewrite (lookup_name_map (λ n c, spec_records (rel ++ [n]) c)).
Qed.

Lemma flat_map_concat {A B} (g : A → list B) ls :
  flat_map g (concat ls) = flat_map (flat_map g) ls.
Proof. induction ls as [|l ls IH]; simpl; [done|]. by rewrite flat_map_app, IH. Qed.

Lemma flat_map_map {A B C} (g : B → list C) (f : A → B) l :
  flat_map g (map f l) = flat_map (λ x, g (f x)) l.
Proof. induction l as [|x l IH]; simpl; [done|]. by rewrite IH. Qed.

(** The lines the code hashes are the records of the specification. *)
Lemma walk_records top e :
  ∀ rel, entry_at top rel = Some e → wf e →
         flat_map (lines top) (os_walk Py.sort rel e) = spec_records rel e.
Proof.
  induction e as [st| |cs IH] using entry_ind'; intros rel Hat Hwf; [done..|].
  inversion Hwf as [| |? Hnd Hcs]; subst.
  rewrite os_walk_Dir, spec_records_Dir. cbn [flat_map]. f_equal.
  - (* the files of this directory *)
    unfold lines. cbn [fst snd].
    rewrite (names_filter is_dir false) by done.
    rewrite <- (flat_map_filter _ (λ n, is_dir <$> lookup_name n cs = Some false)
                 (Py.sort cs.*1)).
    2: { intros n _ Hn. destruct (lookup_name n cs) as [[[st|]| |]|]; simpl in *; done. }
    rewrite sort_filter.
    apply flat_map_ext_in. intros n _. unfold file_line, os_stat.
    rewrite (entry_at_snoc _ _ _ _ Hat).
    by destruct (lookup_name n cs) as [[[st|]| |]|].
  - (* its subdirectories *)
    rewrite flat_map_concat, flat_map_map.
    rewrite (names_filter is_dir true) by done.
    rewrite sort_filter.
    rewrite <- (flat_map_filter _ (λ n, is_dir <$> lookup_name n cs = Some true)
                 (Py.sort cs.*1)).
    2: { intros n _ Hn. destruct (lookup_name n cs) as [[]|]; simpl in *; done. }
    apply flat_map_ext_in. intros n _.
    destruct (lookup_name n cs) as [c|] eqn:Hn; [|done]. simpl.
    apply lookup_name_elem in Hn as Hin.
    eapply Forall_forall in IH; [|exact Hin]. eapply Forall_forall in Hcs; [|exact Hin].
    apply IH; [|done]. by rewrite (entry_at_snoc _ _ _ _ Hat).
Qed.

(** *** The records only depend on the files, not on the listing order *)

Lemma same_files_child cs1 cs2 n :
  same_files (Dir cs1) (Dir cs2) →
  kind_of <$> lookup_name n cs1 = kind_of <$> lookup_name n cs2.
Proof.
  intros H. specialize (H [n]). simpl in H.
  by destruct (lookup_name n cs1), (lookup_name n cs2).
Qed.

Lemma same_files_below cs1 cs2 n c1 c2 :
  same_files (Dir cs1) (Dir cs2) →
  lookup_name n cs1 = Some c1 → lookup_name n cs2 = Some c2 →
  same_files c1 c2.
Proof.
  intros H H1 H2 p. specialize (H (n :: p)). simpl in H. by rewrite H1, H2 in H.
Qed.

Lemma records_same_files t1 :
  ∀ t2 rel, wf t1 → wf t2 → same_files t1 t2 →
            spec_records rel t1 = spec_records rel t2.
Proof.
  induction t1 as [st| |cs1 IH] using entry_ind'; intros t2 rel Hw1 Hw2 Hs.
  - specialize (Hs []). simpl in Hs. by destruct t2.
  - specialize (Hs []). simpl in Hs. by destruct t2.
  - pose proof (Hs []) as H0. simpl in H0. destruct t2 as [|cs2|]; try done.
    inversion Hw1 as [| |? Hnd1 Hcs1]; inversion Hw2 as [| |? Hnd2 Hcs2]; subst.
    rewrite !spec_records_Dir.
    assert (Py.sort cs1.*1 = Py.sort cs2.*1) as <-.
    { apply sort_unique, NoDup_Permutation; [done..|]. intros n.
      pose proof (same_files_child _ _ n Hs) as Hn.
      destruct (decide (n ∈ cs1.*1)) as [H1|H1], (decide (n ∈ cs2.*1)) as [H2|H2];
        try tauto.
      - apply lookup_name_None in H2. rewrite H2 in Hn.
        destruct (lookup_name n cs1) eqn:E; [done|]. by apply lookup_name_None in E.
      - apply lookup_name_None in H1. rewrite H1 in Hn.
        destruct (lookup_name n cs2) eqn:E; [done|]. by apply lookup_name_None in E. }
    f_equal; apply flat_map_ext_in; intros n _.
    + pose proof (same_files_child _ _ n Hs) as Hn.
      destruct (lookup_name n cs1) as [[]|], (lookup_name n cs2) as [[]|];
        simpl in Hn; by simplify_eq.
    + pose proof (same_files_child _ _ n Hs) as Hn.
      destruct (lookup_name n cs1) as [c1|] eqn:E1, (lookup_name n cs2) as [c2|] eqn:E2;
        try done. simpl.
      apply lookup_name_elem in E1 as Hin1. apply lookup_name_elem in E2 as Hin2.
      eapply Forall_forall in IH; [|exact Hin1].
      eapply Forall_forall in Hcs1; [|exact Hin1].
      eapply Forall_forall in Hcs2; [|exact Hin2].
      apply IH; [done..|]. by eapply same_files_below.
Qed.

(** *** A fingerprint has no white space *)

Lemma isspace_hex_digit v : (v < 16)%N → Py.isspace (Sha256.hex_digit v) = false.
Proof.
  intros Hv.
  assert (forallb (λ n, negb (Py.isspace (Sha256.hex_digit (N.of_nat n)))) (seq 0 16) = true)
    as H by (by vm_compute).
  rewrite forallb_forall in H. specialize (H (N.to_nat v)).
  rewrite N2Nat.id in H. apply negb_true_iff, H, in_seq. lia.
Qed.

Lemma no_space_hex n x : no_space (Sha256.hex n x) = true.
Proof.
  induction n as [|n IH]; [done|]. simpl. rewrite IH, andb_true_r.
  apply negb_true_iff, isspace_hex_digit. by apply N.mod_lt.
Qed.

Lemma no_space_hexdigest data : no_space (Sha256.hexdigest_of data) = true.
Proof.
  unfold Sha256.hexdigest_of.
  generalize (take 8 (Sha256.digest_words (Sha256.bytes_of_string data) ++ repeat 0%N 8)).
  intros ws. induction ws as [|w ws IH]; [done|].
  cbn [fold_right]. by rewrite no_space_app, no_space_hex, IH.
Qed.

Lemma strip_fingerprint top :
  Py.strip (compute_library_fingerprint top) = compute_library_fingerprint top.
Proof.
  unfold compute_library_fingerprint, Sha256.hexdigest.
  apply strip_no_space, no_space_hexdigest.
Qed.

End FingerprintFacts.

(** * Facts about the producer *)
Module BackupFacts.
Import Exec ExecFacts Backup PyFacts FingerprintFacts.
Local Open Scope exec_scope.

#[global] Instance producer_message_eq_dec : EqDecision message.
Proof. solve_decision. Defined.

#[global] Instance producer_event_eq_dec : EqDecision event.
Proof. solve_decision. Defined.

Lemma producer_emit_eq e st : emit e st = (add_log [e] st, Ok tt).
Proof. done. Qed.

Lemma producer_print_eq m st : print m st = (add_log [Printed m] st, Ok tt).
Proof. done. Qed.

Lemma producer_add_log_add_log t1 t2 st : add_log t2 (add_log t1 st) = add_log (t1 ++ t2) st.
Proof. unfold add_log. simpl. by rewrite app_assoc. Qed.

Lemma producer_add_log_nil st : add_log [] st = st.
Proof. destruct st. unfold add_log. simpl. by rewrite app_nil_r. Qed.

Lemma producer_trace_of_log {A} (m : M state A) st tr :
  log (m st).1 = log st ++ tr → trace_of m st = tr.
Proof. intros E. unfold trace_of. rewrite E. by rewrite drop_app_length. Qed.

Lemma path_exists_eq name st :
  path_exists name st = (st, Ok (bool_decide (is_Some (files st !! name)))).
Proof. done. Qed.

(** What [has_library_changed] does, by the content of the state file. *)
Definition written (prefix : string) (F : string) (st : state) : state * result bool :=
  match backup_dir st with
  | None => (st, Raise (FileNotFoundError (backup_path (state_file_for_prefix prefix))))
  | Some d =>
      ({| backup_dir := Some (<[state_file_for_prefix prefix := Text F]> d);
          libraries := libraries st; clock := clock st; ticks := ticks st; localtime := localtime st;
          log := log st ++ [StateWritten (state_file_for_prefix prefix) F;
                            Printed (MsgChangesDetected prefix)] |}, Ok true)
  end.

Lemma has_library_changed_eq prefix library_dir st :
  has_library_changed prefix library_dir st =
  let F := current_fingerprint st library_dir in
  match stored st prefix with
  | Raise e => (st, Raise e)
  | Ok (Some P) =>
      if String.eqb P F
      then (add_log [Printed (MsgNoChanges prefix)] st, Ok false)
      else written prefix F st
  | Ok None => written prefix F st
  end.
Proof.
  unfold has_library_changed, stored, written, current_fingerprint.
  unfold bind at 1, get. unfold bind at 1. rewrite path_exists_eq. cbv beta iota zeta.
  set (F := compute_library_fingerprint _).
  set (name := state_file_for_prefix prefix).
  assert (∀ st', (write_text name F;; print (MsgChangesDetected prefix);; ret true) st'
                 = written prefix F st') as HW.
  { intros st'. unfold written, write_text, bind, get, modify, emit, print, ret. cbn.
    fold name. destruct (backup_dir st'); [|done]. cbn. by rewrite <- app_assoc. }
  destruct (files st !! name) as [[s|ms]|] eqn:E; cbn.
  - unfold bind at 1. unfold read_text, bind at 1 2, get. rewrite E. cbn.
    destruct (String.eqb (Py.strip s) F).
    + unfold bind. by rewrite producer_print_eq.
    + apply HW.
  - unfold bind at 1. unfold read_text, bind at 1 2, get. rewrite E. done.
  - unfold bind at 1. unfold ret at 1. apply HW.
Qed.

End BackupFacts.

Module BackupBody.
Import Exec ExecFacts Backup PyFacts FingerprintFacts BackupFacts.
Local Open Scope exec_scope.

(** The log only grows, by events that satisfy [P]. *)
Definition extends (P : event → Prop) (st st' : state) : Prop :=
  ∃ tr, log st' = log st ++ tr ∧ Forall P tr.

#[global] Instance producer_extends_preorder P : PreOrder (extends P).
Proof.
  split.
  - intros st. exists []. by rewrite app_nil_r.
  - intros s1 s2 s3 (t1 & E1 & F1) (t2 & E2 & F2). exists (t1 ++ t2).
    rewrite E2, E1, app_assoc. split; [done|]. by apply Forall_app.
Qed.

Abbreviation emits P := (steps (extends P)).

Lemma producer_extends_emit (P : event → Prop) e st :
  P e → extends P st {| backup_dir := backup_dir st; libraries := libraries st;
                        clock := clock st; ticks := ticks st; localtime := localtime st; log := log st ++ [e] |}.
Proof. intros H. exists [e]. simpl. auto. Qed.

Lemma producer_extends_same_log P st st' : log st' = log st → extends P st st'.
Proof. intros H. exists []. by rewrite app_nil_r. Qed.

Ltac emits_leaf :=
  first [ apply producer_extends_emit; simpl; tauto
        | apply producer_extends_same_log;
          lazymatch goal with
          | |- log (match backup_dir ?s with _ => _ end) = _ => by destruct (backup_dir s)
          | _ => reflexivity
          end ].
Ltac emits_tac :=
  unfold print, emit;
  repeat first [ steps_step emits_leaf
               | lazymatch goal with
                 | |- steps _ (λ st, _) => intros ?; cbn; emits_leaf
                 end ].

Lemma emits_datetime_now P : emits P datetime_now.
Proof. intros st. by apply producer_extends_same_log. Qed.

Lemma emits_create_backup_zip prefix library_dir :
  emits (λ _, True) (create_backup_zip prefix library_dir).
Proof.
  unfold create_backup_zip.
  apply steps_bind; [apply _|apply emits_datetime_now|intros now].
  unfold zip_open, zip_write. emits_tac.
Qed.

Lemma emits_ensure_monthly prefix latest :
  emits (λ _, True) (ensure_monthly_snapshot prefix latest).
Proof.
  unfold ensure_monthly_snapshot.
  apply steps_bind; [apply _|apply emits_datetime_now|intros now].
  unfold path_exists, copy2. emits_tac.
Qed.

Lemma emits_prune prefix : emits (λ _, True) (prune_backups_for_prefix prefix).
Proof. unfold prune_backups_for_prefix, listdir, os_remove. emits_tac. Qed.

Definition after_change (prefix library_dir : string) : M state unit :=
  latest_backup <- create_backup_zip prefix library_dir;;
  ensure_monthly_snapshot prefix latest_backup;;
  prune_backups_for_prefix prefix.

Lemma emits_after_change prefix library_dir :
  emits (λ _, True) (after_change prefix library_dir).
Proof.
  unfold after_change.
  apply steps_bind; [apply _|apply emits_create_backup_zip|intros latest].
  apply steps_bind; [apply _|apply emits_ensure_monthly|intros _].
  apply emits_prune.
Qed.

(** One turn of the loop of [main]. *)
Lemma producer_main_body_eq p dir st :
  main_body (p, dir) st =
  if is_library_dir st dir
  then match has_library_changed p dir st with
       | (st1, Ok true) => after_change p dir st1
       | (st1, Ok false) => (st1, Ok tt)
       | (st1, Raise e) => (st1, Raise e)
       end
  else (add_log [Printed (MsgLibraryDirMissing p dir)] st, Ok tt).
Proof.
  unfold main_body, is_library_dir. unfold bind at 1, isdir, bind at 1, get, ret.
  destruct (match libraries st !! dir with Some e => is_dir e | None => false end);
    cbv beta iota delta [negb].
  - unfold bind at 1. destruct (has_library_changed p dir st) as [st1 [[]|]]; reflexivity.
  - reflexivity.
Qed.

(** The library has not changed since its fingerprint was stored: the
    turn only prints. *)
Lemma unchanged_body p dir st :
  is_library_dir st dir = true →
  stored st p = Ok (Some (current_fingerprint st dir)) →
  main_body (p, dir) st = (add_log [Printed (MsgNoChanges p)] st, Ok tt).
Proof.
  intros Hd Hs. rewrite producer_main_body_eq, Hd, has_library_changed_eq. cbv zeta.
  by rewrite Hs, String.eqb_refl.
Qed.

Lemma missing_body p dir st :
  is_library_dir st dir = false →
  main_body (p, dir) st = (add_log [Printed (MsgLibraryDirMissing p dir)] st, Ok tt).
Proof. intros Hd. by rewrite producer_main_body_eq, Hd. Qed.

End BackupBody.

Module BackupFrame.
Import Exec ExecFacts Backup PyFacts FingerprintFacts BackupFacts BackupBody.
Local Open Scope exec_scope.

(** *** File names *)

Definition is_zip (n : string) : bool := Py.endswith (Py.lower n) ".zip".

Lemma is_zip_app a : is_zip (a +:+ ".zip") = true.
Proof. unfold is_zip. rewrite lower_app. apply endswith_app. Qed.

Lemma is_zip_backup_name q ts : is_zip (q +:+ "_library_" +:+ ts +:+ ".zip") = true.
Proof. rewrite <- !str_app_assoc. apply is_zip_app. Qed.

Lemma is_zip_monthly_name q tag : is_zip (monthly_name_of q tag) = true.
Proof.
  unfold monthly_name_of.
  change "_monthly.zip" with ("_monthly" +:+ ".zip").
  rewrite <- !str_app_assoc. apply is_zip_app.
Qed.

Lemma is_zip_state_file p : is_zip (state_file_for_prefix p) = false.
Proof.
  unfold is_zip, state_file_for_prefix. rewrite lower_app, endswith_app_r; [done|].
  simpl. lia.
Qed.

Lemma state_file_inj p q : state_file_for_prefix p = state_file_for_prefix q → p = q.
Proof. apply app_inv_tail. Qed.

(** *** One turn of the loop touches the state file of its library and
    zip files, nothing else *)

(** The libraries are not touched, and the files of [BACKUP_DIR] whose
    name satisfies [K] are left as they are. *)
Definition frame (K : string → Prop) (st st' : state) : Prop :=
  libraries st' = libraries st
  ∧ ∀ n, K n → files st' !! n = files st !! n.

#[global] Instance frame_preorder K : PreOrder (frame K).
Proof.
  split; [done|]. intros s1 s2 s3 [L1 H1] [L2 H2]. split; [congruence|].
  intros n Hn. rewrite H2, H1; done.
Qed.

Lemma frame_mono (K K' : string → Prop) st st' :
  (∀ n, K' n → K n) → frame K st st' → frame K' st st'.
Proof. intros H [L F]. split; [done|]. intros n Hn. by apply F, H. Qed.

Lemma frame_same K st st' :
  libraries st' = libraries st → backup_dir st' = backup_dir st → frame K st st'.
Proof. intros L B. split; [done|]. intros n _. unfold files. by rewrite B. Qed.

Lemma frame_emit K e : steps (frame K) (emit e).
Proof. intros st. by apply frame_same. Qed.

Lemma frame_datetime_now K : steps (frame K) datetime_now.
Proof. intros st. by apply frame_same. Qed.

Lemma frame_insert (K : string → Prop) name c :
  (∀ n, K n → n ≠ name) →
  ∀ st d, backup_dir st = Some d →
          frame K st (set_backup_dir (Some (<[name := c]> d)) st).
Proof.
  intros Hn st d Hd. split; [done|]. intros n Hk. unfold files. cbn. rewrite Hd. cbn.
  rewrite lookup_insert_ne; [done|]. intros <-. by apply (Hn name).
Qed.

(** The names the turn for library [q] leaves alone. *)
Definition not_state_of (q n : string) : Prop := n ≠ state_file_for_prefix q.
Definition not_zip (n : string) : Prop := is_zip n = false.
Definition keep (q n : string) : Prop := not_state_of q n ∧ not_zip n.

Lemma frame_write_text q F :
  steps (frame (not_state_of q)) (write_text (state_file_for_prefix q) F).
Proof.
  intros st. unfold write_text, bind at 1, get.
  destruct (backup_dir st) as [d|] eqn:Hd; [|reflexivity].
  unfold bind, modify. rewrite producer_emit_eq. cbn [fst].
  etrans; [apply (frame_insert _ (state_file_for_prefix q) (Text F)); [|exact Hd];
           by intros n ?|].
  by apply frame_same.
Qed.

Lemma frame_has_library_changed q dir :
  steps (frame (not_state_of q)) (has_library_changed q dir).
Proof.
  unfold has_library_changed.
  apply steps_bind; [apply _|apply steps_get; apply _|intros st0]. cbv zeta.
  apply steps_bind; [apply _|by intros st|intros ex].
  apply steps_bind; [apply _| |intros same].
  - destruct ex; [|apply steps_ret; apply _].
    apply steps_bind; [apply _| |intros; apply steps_ret; apply _].
    intros st. unfold read_text, bind, get. cbn.
    by destruct (files st !! _) as [[]|].
  - destruct same.
    + apply steps_bind; [apply _|apply frame_emit|intros; apply steps_ret; apply _].
    + apply steps_bind; [apply _|apply frame_write_text|intros _].
      apply steps_bind; [apply _|apply frame_emit|intros; apply steps_ret; apply _].
Qed.

Lemma frame_zip_open name : is_zip name = true → steps (frame not_zip) (zip_open name).
Proof.
  intros Hz st. unfold zip_open, bind at 1, get.
  destruct (backup_dir st) as [d|] eqn:Hd; [|reflexivity].
  unfold bind, modify. rewrite producer_emit_eq. cbn [fst].
  etrans; [apply (frame_insert _ name (Archive [])); [|exact Hd];
           unfold not_zip; intros n ?; congruence|].
  by apply frame_same.
Qed.

Lemma frame_zip_write name top p :
  is_zip name = true → steps (frame not_zip) (zip_write name top p).
Proof.
  intros Hz st. unfold zip_write. destruct (os_stat top p) as [s|]; [|reflexivity].
  unfold bind at 1, get. destruct (localtime st (floor_of_mtime s)) as [t|e]; [|reflexivity].
  destruct (year t <? 1980)%N; [reflexivity|]. destruct (2107 <? year t)%N; [reflexivity|].
  unfold bind, modify. rewrite producer_emit_eq. cbn [fst].
  etrans; [|by apply frame_same]. split; [done|]. unfold not_zip. intros n Hn.
  unfold files. cbn. destruct (backup_dir st) as [d|]; [|done]. cbn.
  rewrite lookup_alter_ne; [done|]. congruence.
Qed.

Lemma frame_create_backup_zip q dir : steps (frame not_zip) (create_backup_zip q dir).
Proof.
  unfold create_backup_zip.
  apply steps_bind; [apply _|apply frame_datetime_now|intros now].
  apply steps_bind; [apply _|apply frame_emit|intros _].
  apply steps_bind; [apply _|apply steps_get; apply _|intros st0].
  apply steps_bind; [apply _|apply frame_zip_open, is_zip_backup_name|intros _].
  apply steps_bind; [apply _| |intros _].
  - apply steps_for_each; [apply _|intros [root fs]].
    apply steps_for_each; [apply _|intros file].
    apply frame_zip_write, is_zip_backup_name.
  - apply steps_bind; [apply _|apply frame_emit|intros; apply steps_ret; apply _].
Qed.

Lemma frame_copy2 src dst : is_zip dst = true → steps (frame not_zip) (copy2 src dst).
Proof.
  intros Hz st. unfold copy2, bind at 1, get.
  destruct (backup_dir st) as [d|] eqn:Hd; [|reflexivity].
  destruct (files st !! src) as [c|]; [|reflexivity].
  unfold bind, modify. rewrite producer_emit_eq. cbn [fst].
  etrans; [apply (frame_insert _ dst c); [|exact Hd];
           unfold not_zip; intros n ?; congruence|].
  by apply frame_same.
Qed.

Lemma frame_ensure_monthly q latest :
  steps (frame not_zip) (ensure_monthly_snapshot q latest).
Proof.
  unfold ensure_monthly_snapshot.
  apply steps_bind; [apply _|apply frame_datetime_now|intros now].
  apply steps_bind; [apply _|by intros st|intros ex].
  destruct (negb ex); [|apply frame_emit].
  apply steps_bind; [apply _|apply frame_emit|intros _].
  apply steps_bind; [apply _|apply frame_copy2, is_zip_monthly_name|intros _].
  apply frame_emit.
Qed.

Lemma frame_os_remove name : is_zip name = true → steps (frame not_zip) (os_remove name).
Proof.
  intros Hz st. unfold os_remove, bind at 1, get.
  destruct (backup_dir st) as [d|] eqn:Hd; [|reflexivity].
  destruct (bool_decide _); [|reflexivity].
  unfold bind, modify. rewrite producer_emit_eq. cbn [fst].
  etrans; [|by apply frame_same]. split; [done|]. unfold not_zip. intros n Hn.
  unfold files. cbn. rewrite Hd. cbn. rewrite lookup_delete_ne; [done|]. congruence.
Qed.

Lemma slice_to_neg_elem {A} (l : list A) k x : x ∈ Py.slice_to_neg l k → x ∈ l.
Proof.
  unfold Py.slice_to_neg. destruct k; [intros H; by apply elem_of_nil in H|].
  intros H. rewrite <- (take_drop (length l - S k) l). apply elem_of_app. by left.
Qed.

Lemma frame_prune_loop q (P : string → Prop) `{!∀ x, Decision (P x)} names k msg :
  steps (frame not_zip)
    (for_each (Py.slice_to_neg (Py.sort (filter P (filter (λ f, is_backup_of q f) names))) k)
       (λ path, print (msg path);; os_remove path)).
Proof.
  apply steps_for_each_in; [apply _|]. intros path Hin.
  apply steps_bind; [apply _|apply frame_emit|intros _].
  apply frame_os_remove.
  apply slice_to_neg_elem in Hin. rewrite sort_perm in Hin.
  apply list_elem_of_filter in Hin as [_ Hin].
  apply list_elem_of_filter in Hin as [Hin _].
  unfold is_backup_of in Hin. apply Is_true_true, andb_true_iff in Hin as [Hin _]. done.
Qed.

Lemma frame_prune q : steps (frame not_zip) (prune_backups_for_prefix q).
Proof.
  unfold prune_backups_for_prefix.
  apply steps_bind; [apply _| |intros names].
  { intros st. unfold listdir, bind, get. cbn. by destruct (backup_dir st). }
  cbv zeta.
  apply steps_bind; [apply _| |intros _].
  - destruct (_ <? _)%nat; [|apply steps_ret; apply _]. apply frame_prune_loop.
  - destruct (_ <? _)%nat; [|apply steps_ret; apply _]. apply frame_prune_loop.
Qed.

Lemma frame_after_change q dir : steps (frame not_zip) (after_change q dir).
Proof.
  unfold after_change.
  apply steps_bind; [apply _|apply frame_create_backup_zip|intros latest].
  apply steps_bind; [apply _|apply frame_ensure_monthly|intros _].
  apply frame_prune.
Qed.

Lemma producer_frame_main_body q dir : steps (frame (keep q)) (main_body (q, dir)).
Proof.
  unfold main_body.
  apply steps_bind; [apply _|by intros st|intros d].
  destruct (negb d); [apply frame_emit|].
  apply steps_bind; [apply _| |intros changed].
  { eapply steps_mono, frame_has_library_changed. intros s s'.
    apply frame_mono. by intros n [? _]. }
  destruct (negb changed); [apply steps_ret; apply _|].
  eapply steps_mono, (frame_after_change q dir). intros s s'.
  apply frame_mono. by intros n [_ ?].
Qed.

End BackupFrame.

Module BackupIdempotent.
Import Exec ExecFacts Backup PyFacts FingerprintFacts BackupFacts BackupBody BackupFrame.
Local Open Scope exec_scope.

(** A library needs no backup: it is missing, or its stored fingerprint
    is the fingerprint of what it holds. *)
Definition settled (st : state) (lib : string * string) : Prop :=
  is_library_dir st lib.2 = false
  ∨ stored st lib.1 = Ok (Some (current_fingerprint st lib.2)).

Lemma producer_stored_ext st st' p :
  files st' !! state_file_for_prefix p = files st !! state_file_for_prefix p →
  stored st' p = stored st p.
Proof. intros E. unfold stored. by rewrite E. Qed.

Lemma settled_ext st st' lib :
  libraries st' = libraries st →
  files st' !! state_file_for_prefix lib.1 = files st !! state_file_for_prefix lib.1 →
  settled st lib → settled st' lib.
Proof.
  intros L F. unfold settled, is_library_dir, current_fingerprint, library_tree.
  rewrite (producer_stored_ext _ _ _ F), L. done.
Qed.

Lemma settled_frame q st st' lib :
  frame (keep q) st st' → lib.1 ≠ q → settled st lib → settled st' lib.
Proof.
  intros [L F] Hne. apply settled_ext; [done|]. apply F. split.
  - intros E. by apply state_file_inj in E.
  - apply is_zip_state_file.
Qed.

(** After [has_library_changed] found a change, the state file holds the
    new fingerprint, and nothing else has happened yet. *)
Lemma written_ok p F st st1 :
  written p F st = (st1, Ok true) →
  ∃ d, backup_dir st = Some d
       ∧ backup_dir st1 = Some (<[state_file_for_prefix p := Text F]> d)
       ∧ libraries st1 = libraries st
       ∧ clock st1 = clock st ∧ ticks st1 = ticks st
       ∧ log st1 = log st ++ [StateWritten (state_file_for_prefix p) F;
                              Printed (MsgChangesDetected p)].
Proof.
  unfold written. destruct (backup_dir st) as [d|]; [|done].
  intros [= <-]. exists d. done.
Qed.

(** A turn of the loop that returns leaves its library settled. *)
Lemma body_settles p dir st st' :
  main_body (p, dir) st = (st', Ok tt) → settled st' (p, dir).
Proof.
  rewrite producer_main_body_eq. destruct (is_library_dir st dir) eqn:Hd.
  2: { intros [= <-]. by left. }
  rewrite has_library_changed_eq. cbv zeta.
  assert (∀ st1, written p (current_fingerprint st dir) st = (st1, Ok true) →
                 after_change p dir st1 = (st', Ok tt) → settled st' (p, dir)) as HW.
  { intros st1 Hw Ha. apply written_ok in Hw as (d & Hb & Hb1 & L1 & _).
    pose proof (frame_after_change p dir st1) as [L F]. rewrite Ha in L, F. cbn in L, F.
    right. cbn. unfold current_fingerprint, library_tree. rewrite L, L1.
    unfold stored. rewrite F by apply is_zip_state_file.
    unfold files. rewrite Hb1. cbn. rewrite lookup_insert_eq.
    unfold current_fingerprint, library_tree. by rewrite strip_fingerprint. }
  destruct (stored st p) as [[P|]|e] eqn:Hs; [| |done].
  - destruct (String.eqb_spec P (current_fingerprint st dir)) as [->|Hne].
    + intros [= <-]. right. done.
    + destruct (written _ _ _) as [st1 [[]|]] eqn:Hw; try done.
      * by apply HW.
      * unfold written in Hw. by destruct (backup_dir st).
  - destruct (written _ _ _) as [st1 [[]|]] eqn:Hw; try done.
    + by apply HW.
    + unfold written in Hw. by destruct (backup_dir st).
Qed.

Lemma frame_loop libs :
  steps (frame (λ n, ∀ q, q ∈ libs.*1 → keep q n)) (for_each libs main_body).
Proof.
  apply steps_for_each_in; [apply _|]. intros [q dir] Hin.
  eapply steps_mono, producer_frame_main_body. intros s s'. apply frame_mono.
  intros n Hn. apply Hn. apply list_elem_of_fmap. by exists (q, dir).
Qed.

(** When the loop returns, every library is settled. *)
Lemma loop_settles libs st st' :
  NoDup libs.*1 → for_each libs main_body st = (st', Ok tt) → Forall (settled st') libs.
Proof.
  revert st. induction libs as [|[p dir] libs IH]; intros st Hnd E; [done|].
  apply NoDup_cons in Hnd as [Hp Hnd]. cbn [for_each] in E. unfold bind in E.
  destruct (main_body (p, dir) st) as [s1 [[]|]] eqn:EB; [|done].
  constructor; [|by eapply IH].
  apply body_settles in EB.
  pose proof (frame_loop libs s1) as [L F]. rewrite E in L, F. cbn in L, F.
  revert EB. apply settled_ext; [done|]. apply F. intros q Hq. split.
  - intros Heq. apply state_file_inj in Heq. by subst.
  - apply is_zip_state_file.
Qed.

(** What a settled library prints. *)
Definition settled_message (st : state) (lib : string * string) : message :=
  if is_library_dir st lib.2 then MsgNoChanges lib.1
  else MsgLibraryDirMissing lib.1 lib.2.

Lemma settled_body st lib :
  settled st lib → main_body lib st = (add_log [Printed (settled_message st lib)] st, Ok tt).
Proof.
  destruct lib as [p dir]. unfold settled_message. cbn.
  destruct (is_library_dir st dir) eqn:Hd.
  - intros [H|Hs]; cbn in *; [congruence|]. by apply unchanged_body.
  - intros _. by apply missing_body.
Qed.

Lemma settled_add_log tr st lib : settled (add_log tr st) lib ↔ settled st lib.
Proof. done. Qed.

(** Settled libraries: the loop only prints. *)
Lemma settled_loop libs st :
  Forall (settled st) libs →
  for_each libs main_body st
  = (add_log (map (λ lib, Printed (settled_message st lib)) libs) st, Ok tt).
Proof.
  revert st. induction libs as [|lib libs IH]; intros st H; cbn [for_each map].
  - unfold ret. by rewrite producer_add_log_nil.
  - apply Forall_cons in H as [Hl H]. unfold bind. rewrite settled_body by done.
    rewrite IH by done. by rewrite producer_add_log_add_log.
Qed.

(** Once [BACKUP_DIR] exists, it stays. *)
Definition dir_stays (st st' : state) : Prop :=
  is_Some (backup_dir st) → is_Some (backup_dir st').

#[global] Instance dir_stays_preorder : PreOrder dir_stays.
Proof. split; [by intros st H|]. intros s1 s2 s3 H1 H2 H. by apply H2, H1. Qed.

Ltac dir_stays_leaf :=
  idtac;
  lazymatch goal with
  | |- dir_stays ?s _ => unfold dir_stays; cbn; try (destruct (backup_dir s); cbn); eauto
  end.
Ltac dir_stays_tac :=
  unfold print, emit;
  repeat first [ steps_step dir_stays_leaf
               | lazymatch goal with
                 | |- steps _ datetime_now => intros ?; dir_stays_leaf
                 end ].

Lemma dir_stays_main_body lib : steps dir_stays (main_body lib).
Proof.
  destruct lib as [p dir].
  unfold main_body, isdir, has_library_changed, path_exists, read_text, write_text,
    create_backup_zip, zip_open, zip_write, ensure_monthly_snapshot, copy2,
    prune_backups_for_prefix, listdir, os_remove, path_exists.
  dir_stays_tac.
Qed.

Lemma producer_main_for_eq libs st :
  main_for libs st
  = (ensure_backup_dir;; for_each libs main_body;; print MsgRoutineComplete) st.
Proof. done. Qed.

Lemma ensure_backup_dir_some st :
  is_Some (backup_dir st) → ensure_backup_dir st = (st, Ok tt).
Proof. intros [d Hd]. unfold ensure_backup_dir, modify. by rewrite Hd. Qed.

Lemma ensure_backup_dir_is_some st : is_Some (backup_dir (ensure_backup_dir st).1).
Proof. unfold ensure_backup_dir, modify. cbn. destruct (backup_dir st) eqn:E; cbn; eauto. Qed.

(** A completed run leaves every library settled, and a run started from
    there only prints. *)
Lemma second_run_prints libs st st1 st2 :
  NoDup libs.*1 →
  main_for libs st = (st1, Ok tt) →
  backup_dir st2 = backup_dir st1 →
  libraries st2 = libraries st1 →
  main_for libs st2
  = (add_log (map (λ lib, Printed (settled_message st2 lib)) libs
              ++ [Printed MsgRoutineComplete]) st2, Ok tt).
Proof.
  intros Hnd E1 HB HL. rewrite producer_main_for_eq in E1. unfold bind at 1 in E1.
  pose proof (ensure_backup_dir_is_some st) as Hsome.
  destruct (ensure_backup_dir st) as [s0 [[]|]] eqn:E0; [|done]. cbn in Hsome.
  unfold bind at 1 in E1.
  pose proof (steps_for_each dir_stays libs main_body dir_stays_main_body s0 Hsome) as Hs.
  destruct (for_each libs main_body s0) as [s [[]|]] eqn:EL; [|done]. cbn in Hs.
  rewrite producer_print_eq in E1. injection E1 as <-.
  apply loop_settles in EL; [|done].
  assert (Forall (settled st2) libs) as Hset.
  { eapply Forall_impl; [exact EL|]. intros lib. apply settled_ext; [done|].
    unfold files. by rewrite HB. }
  rewrite producer_main_for_eq. unfold bind at 1.
  rewrite ensure_backup_dir_some by (rewrite HB; exact Hs).
  unfold bind. rewrite settled_loop by done. rewrite producer_print_eq, producer_add_log_add_log. done.
Qed.

End BackupIdempotent.

(** * Pruning *)
Module PruneFacts.
Import Exec ExecFacts Backup PyFacts FingerprintFacts BackupFacts.
Local Open Scope exec_scope.

(** The names [os.listdir(BACKUP_DIR)] returns. *)
Definition names (d : gmap string content) : list string := map fst (map_to_list d).

(** The two sorted partitions [prune_backups_for_prefix] computes. *)
Definition recent_of (p : string) (d : gmap string content) : list string :=
  Py.sort (filter (λ f, negb (is_monthly f)) (filter (λ f, is_backup_of p f) (names d))).
Definition monthly_of (p : string) (d : gmap string content) : list string :=
  Py.sort (filter (λ f, is_monthly f) (filter (λ f, is_backup_of p f) (names d))).

(** Of a sorted partition [l], what is deleted and what is kept when [K]
    artifacts are to remain. *)
Definition doomed (K : nat) (l : list string) : list string := take (length l - K) l.
Definition kept (K : nat) (l : list string) : list string := drop (length l - K) l.

Definition remove_lines (msg : string → message) (l : list string) : list event :=
  flat_map (λ n, [Printed (msg n); Removed n]) l.

(** The state after the files [l] of [BACKUP_DIR] are removed. *)
Definition removed (msg : string → message) (l : list string)
    (d : gmap string content) (st : state) : state :=
  {| backup_dir := Some (filter (λ kv, kv.1 ∉ l) d);
     libraries := libraries st; clock := clock st; ticks := ticks st; localtime := localtime st;
     log := log st ++ remove_lines msg l |}.

(** *** Lists *)

Lemma doomed_kept K l : doomed K l ++ kept K l = l.
Proof. apply take_drop. Qed.

Lemma length_kept K l : length (kept K l) = Nat.min K (length l).
Proof. unfold kept. rewrite length_drop. lia. Qed.

Lemma doomed_nil K l : length l ≤ K → doomed K l = [].
Proof. intros H. unfold doomed. by replace (length l - K) with 0 by lia. Qed.

Lemma length_doomed K l : length (doomed K l) = length l - K.
Proof. unfold doomed. rewrite length_take. lia. Qed.

Lemma doomed_older K l x y :
  StronglySorted String.le l → NoDup l →
  x ∈ doomed K l → y ∈ kept K l → String.le x y ∧ x ≠ y.
Proof.
  intros Hs Hnd Hx Hy. rewrite <- (doomed_kept K l) in Hs, Hnd. split.
  - eapply StronglySorted_app_1_elem_of; eauto.
  - intros ->. apply NoDup_app in Hnd as (_ & Hd & _). by apply (Hd y).
Qed.

Lemma slice_doomed K l :
  K ≠ 0 →
  (if Nat.ltb K (length l) then Py.slice_to_neg l K else []) = doomed K l.
Proof.
  intros HK. destruct (Nat.ltb_spec K (length l)).
  - unfold Py.slice_to_neg, doomed. by destruct K.
  - by rewrite doomed_nil by lia.
Qed.

Lemma filter_doomed (D l1 l2 : list string) :
  (∀ x, x ∈ l1 → x ∈ D) → (∀ x, x ∈ l2 → x ∉ D) →
  filter (λ x, x ∉ D) (l1 ++ l2) = l2.
Proof.
  intros H1 H2. rewrite filter_app.
  assert (filter (λ x, x ∉ D) l1 = []) as ->.
  { induction l1 as [|x l1 IH]; [done|]. rewrite filter_cons_False.
    - apply IH. intros y Hy. apply H1. by apply list_elem_of_further.
    - intros Hn. apply Hn, H1, list_elem_of_here. }
  cbn [app]. induction l2 as [|x l2 IH]; [done|]. rewrite filter_cons_True.
  - f_equal. apply IH. intros y Hy. apply H2. by apply list_elem_of_further.
  - apply H2, list_elem_of_here.
Qed.

(** *** The listing *)

Lemma names_fmap d : names d = (map_to_list d).*1.
Proof. unfold names. induction (map_to_list d) as [|x l IH]; [done|]. cbn. by f_equal. Qed.

Lemma elem_of_names d n : n ∈ names d ↔ is_Some (d !! n).
Proof.
  rewrite names_fmap. split.
  - intros H. apply list_elem_of_fmap in H as ([k x] & -> & H).
    apply elem_of_map_to_list in H. by exists x.
  - intros [x H]. apply list_elem_of_fmap. exists (n, x). split; [done|].
    by apply elem_of_map_to_list.
Qed.

Lemma NoDup_names d : NoDup (names d).
Proof. rewrite names_fmap. apply NoDup_fst_map_to_list. Qed.

Lemma names_filter_map (D : list string) d :
  names (filter (λ kv, kv.1 ∉ D) d) ≡ₚ filter (λ n, n ∉ D) (names d).
Proof.
  apply NoDup_Permutation.
  - apply NoDup_names.
  - apply NoDup_filter, NoDup_names.
  - intros n. rewrite list_elem_of_filter, !elem_of_names. unfold is_Some.
    setoid_rewrite map_lookup_filter_Some. naive_solver.
Qed.

Lemma elem_of_recent p d n :
  n ∈ recent_of p d ↔ is_monthly n = false ∧ is_backup_of p n = true ∧ is_Some (d !! n).
Proof.
  unfold recent_of. rewrite sort_perm, !list_elem_of_filter, elem_of_names.
  destruct (is_monthly n), (is_backup_of p n); simpl; naive_solver.
Qed.

Lemma elem_of_monthly p d n :
  n ∈ monthly_of p d ↔ is_monthly n = true ∧ is_backup_of p n = true ∧ is_Some (d !! n).
Proof.
  unfold monthly_of. rewrite sort_perm, !list_elem_of_filter, elem_of_names.
  destruct (is_monthly n), (is_backup_of p n); simpl; naive_solver.
Qed.

Lemma NoDup_recent p d : NoDup (recent_of p d).
Proof. unfold recent_of. rewrite sort_perm. apply NoDup_filter, NoDup_filter, NoDup_names. Qed.

Lemma NoDup_monthly p d : NoDup (monthly_of p d).
Proof. unfold monthly_of. rewrite sort_perm. apply NoDup_filter, NoDup_filter, NoDup_names. Qed.

Lemma elem_of_doomed K l x : x ∈ doomed K l → x ∈ l.
Proof. intros H. rewrite <- (doomed_kept K l). apply elem_of_app. by left. Qed.

Lemma elem_of_kept K l x : x ∈ kept K l → x ∈ l.
Proof. intros H. rewrite <- (doomed_kept K l). apply elem_of_app. by right. Qed.

Lemma NoDup_doomed K l : NoDup l → NoDup (doomed K l).
Proof. intros H. rewrite <- (doomed_kept K l) in H. by apply NoDup_app in H as (? & _ & _). Qed.

(** *** The loop that deletes *)

Lemma remove_loop msg l :
  ∀ st d,
    backup_dir st = Some d → NoDup l → (∀ n, n ∈ l → is_Some (d !! n)) →
    for_each l (λ path, print (msg path);; os_remove path) st
    = (removed msg l d st, Ok tt).
Proof.
  induction l as [|n l IH]; intros st d Hd Hnd Hin.
  - cbn. unfold ret, removed. destruct st; cbn in *. rewrite app_nil_r. subst.
    f_equal. f_equal. f_equal. symmetry. apply map_filter_id. intros i x _. cbn.
    apply not_elem_of_nil.
  - apply NoDup_cons in Hnd as [Hn Hnd]. cbn [for_each].
    unfold bind at 1. unfold bind at 1. rewrite producer_print_eq.
    unfold os_remove, bind at 1, get. cbn [backup_dir add_log]. rewrite Hd.
    rewrite bool_decide_eq_true_2 by apply Hin, list_elem_of_here.
    unfold bind at 1, modify. rewrite producer_emit_eq.
    rewrite (IH _ (delete n d)); [| done | done |].
    + unfold removed. cbn. f_equal. f_equal.
      * f_equal. apply map_eq. intros k. apply option_eq. intros x.
        rewrite !map_lookup_filter_Some, lookup_delete_Some. cbn.
        rewrite not_elem_of_cons. naive_solver.
      * by rewrite <- !app_assoc.
    + intros m Hm. rewrite lookup_delete_ne; [|by intros ->].
      apply Hin. by apply list_elem_of_further.
Qed.

(** *** [prune_backups_for_prefix] *)

Lemma prune_eq p st d :
  backup_dir st = Some d →
  prune_backups_for_prefix p st
  = (removed (MsgDeletingOldMonthly p) (doomed MAX_MONTHLY_SNAPSHOTS (monthly_of p d))
       (filter (λ kv, kv.1 ∉ doomed MAX_RECENT_BACKUPS (recent_of p d)) d)
       (removed (MsgDeletingOldBackup p) (doomed MAX_RECENT_BACKUPS (recent_of p d)) d st),
     Ok tt).
Proof.
  intros Hd. unfold prune_backups_for_prefix.
  unfold bind at 1, listdir, bind at 1, get. rewrite Hd. unfold ret at 1.
  cbv beta iota zeta.
  fold (names d). fold (recent_of p d). fold (monthly_of p d).
  assert (∀ K l msg s, K ≠ 0 →
            (if Nat.ltb K (length l)
             then for_each (Py.slice_to_neg l K) (λ path, print (msg path);; os_remove path)
             else ret tt) s
            = for_each (doomed K l) (λ path, print (msg path);; os_remove path) s) as Hif.
  { intros K l msg s HK. rewrite <- (slice_doomed K l HK). by destruct (Nat.ltb _ _). }
  unfold bind at 1. rewrite Hif by done.
  rewrite (remove_loop _ _ st d Hd).
  2: { apply NoDup_doomed, NoDup_recent. }
  2: { intros n Hn. apply elem_of_doomed, elem_of_recent in Hn. tauto. }
  rewrite Hif by done.
  apply remove_loop.
  - done.
  - apply NoDup_doomed, NoDup_monthly.
  - intros n Hn. apply elem_of_doomed, elem_of_monthly in Hn as (Hm & _ & [x Hx]).
    exists x. apply map_lookup_filter_Some. split; [done|]. cbn.
    intros Hr. apply elem_of_doomed, elem_of_recent in Hr. destruct Hr. congruence.
Qed.

(** The files of [BACKUP_DIR] after the pruning. *)
Definition pruned (p : string) (d : gmap string content) : gmap string content :=
  filter (λ kv, kv.1 ∉ doomed MAX_RECENT_BACKUPS (recent_of p d)
                       ++ doomed MAX_MONTHLY_SNAPSHOTS (monthly_of p d)) d.

Lemma prune_files p st d :
  backup_dir st = Some d →
  backup_dir (prune_backups_for_prefix p st).1 = Some (pruned p d).
Proof.
  intros Hd. rewrite (prune_eq p st d Hd). cbn. f_equal. unfold pruned.
  rewrite map_filter_filter. apply map_filter_ext. intros i x _. cbn.
  rewrite not_elem_of_app. tauto.
Qed.

(** After the pruning, the partitions are what was kept. *)
Lemma sorted_filter_names (P : string → Prop) `{!∀ x, Decision (P x)} (D : list string) d :
  Py.sort (filter P (names (filter (λ kv, kv.1 ∉ D) d)))
  = filter (λ n, n ∉ D) (Py.sort (filter P (names d))).
Proof.
  rewrite <- sort_filter. apply sort_unique.
  rewrite names_filter_map. rewrite !list_filter_filter.
  erewrite list_filter_iff; [reflexivity|]. intros x. cbn. tauto.
Qed.

Lemma recent_pruned p d :
  recent_of p (pruned p d) = kept MAX_RECENT_BACKUPS (recent_of p d).
Proof.
  unfold recent_of at 1, pruned. rewrite list_filter_filter, sorted_filter_names.
  rewrite <- list_filter_filter. fold (recent_of p d).
  rewrite <- (doomed_kept MAX_RECENT_BACKUPS (recent_of p d)) at 1.
  apply filter_doomed.
  - intros x Hx. apply elem_of_app. by left.
  - intros x Hx. apply not_elem_of_app. split.
    + pose proof (NoDup_recent p d) as Hnd.
      rewrite <- (doomed_kept MAX_RECENT_BACKUPS (recent_of p d)) in Hnd.
      apply NoDup_app in Hnd as (_ & Hd & _). intros Hx'. by apply (Hd x).
    + intros Hm. apply elem_of_doomed, elem_of_monthly in Hm.
      apply elem_of_kept, elem_of_recent in Hx. destruct Hm, Hx. congruence.
Qed.

Lemma monthly_pruned p d :
  monthly_of p (pruned p d) = kept MAX_MONTHLY_SNAPSHOTS (monthly_of p d).
Proof.
  unfold monthly_of at 1, pruned. rewrite list_filter_filter, sorted_filter_names.
  rewrite <- list_filter_filter. fold (monthly_of p d).
  rewrite <- (doomed_kept MAX_MONTHLY_SNAPSHOTS (monthly_of p d)) at 1.
  apply filter_doomed.
  - intros x Hx. apply elem_of_app. by right.
  - intros x Hx. apply not_elem_of_app. split.
    + intros Hm. apply elem_of_doomed, elem_of_recent in Hm.
      apply elem_of_kept, elem_of_monthly in Hx. destruct Hm, Hx. congruence.
    + pose proof (NoDup_monthly p d) as Hnd.
      rewrite <- (doomed_kept MAX_MONTHLY_SNAPSHOTS (monthly_of p d)) in Hnd.
      apply NoDup_app in Hnd as (_ & Hd & _). intros Hx'. by apply (Hd x).
Qed.

End PruneFacts.

(** * The names of the artifacts *)
Module NameFacts.
Import Exec Backup PyFacts BackupFrame.

(** The names the script gives to its artifacts. *)
Definition recent_name (p : string) (t : datetime) : string :=
  p +:+ "_library_" +:+ strftime_timestamp t +:+ ".zip".
Definition monthly_name (p : string) (t : datetime) : string :=
  monthly_name_of p (strftime_month t).

(** The fields of a [datetime] have at most four and two digits
    ([datetime.MAXYEAR] is 9999). *)
Definition valid (t : datetime) : Prop :=
  (year t < 10000 ∧ month t < 100 ∧ day t < 100
   ∧ hour t < 100 ∧ minute t < 100 ∧ second t < 100)%N.

(** Chronological order. *)
Fixpoint lex_compare (a b : list N) : comparison :=
  match a, b with
  | [], [] => Eq
  | [], _ :: _ => Lt
  | _ :: _, [] => Gt
  | x :: a', y :: b' =>
      match N.compare x y with
      | Eq => lex_compare a' b'
      | c => c
      end
  end.

Definition datetime_compare (t1 t2 : datetime) : comparison :=
  lex_compare [year t1; month t1; day t1; hour t1; minute t1; second t1]
              [year t2; month t2; day t2; hour t2; minute t2; second t2].

Definition month_compare (t1 t2 : datetime) : comparison :=
  lex_compare [year t1; month t1] [year t2; month t2].

(** *** Comparison of strings *)

Lemma ascii_compare_refl c : Ascii.compare c c = Eq.
Proof. unfold Ascii.compare. apply N.compare_refl. Qed.

Lemma compare_cons c x y :
  String.compare (String c x) (String c y) = String.compare x y.
Proof. simpl. by rewrite ascii_compare_refl. Qed.

Lemma compare_sep c x y :
  String.compare (String c "" +:+ x) (String c "" +:+ y) = String.compare x y.
Proof. apply compare_cons. Qed.

Lemma compare_app_l s x y : String.compare (s +:+ x) (s +:+ y) = String.compare x y.
Proof. induction s as [|c s IH]; [done|]. by rewrite !app_cons, compare_cons. Qed.

Lemma compare_refl s : String.compare s s = Eq.
Proof. induction s as [|c s IH]; [done|]. by rewrite compare_cons. Qed.

Lemma N_add_compare k a b : N.compare (k + a) (k + b) = N.compare a b.
Proof.
  destruct (N.compare_spec a b) as [->|H|H].
  - apply N.compare_refl.
  - apply N.compare_lt_iff. lia.
  - apply N.compare_gt_iff. lia.
Qed.

Lemma N_of_digit n : N_of_ascii (digit n) = (48 + n mod 10)%N.
Proof.
  unfold digit. apply N_ascii_embedding.
  pose proof (N.mod_upper_bound n 10). lia.
Qed.

Lemma digit_compare u v :
  Ascii.compare (digit u) (digit v) = N.compare (u mod 10) (v mod 10).
Proof. unfold Ascii.compare. rewrite !N_of_digit. apply N_add_compare. Qed.

Lemma compare_digits (h1 h2 l1 l2 B : N) :
  (l1 < B)%N → (l2 < B)%N →
  N.compare (l1 + B * h1) (l2 + B * h2)
  = match N.compare h1 h2 with Eq => N.compare l1 l2 | c => c end.
Proof.
  intros H1 H2. destruct (N.compare_spec h1 h2) as [->|H|H].
  - rewrite !(N.add_comm _ (B * h2)). apply N_add_compare.
  - apply N.compare_lt_iff. nia.
  - apply N.compare_gt_iff. nia.
Qed.

Lemma dec_compare w :
  ∀ a b x y,
    String.compare (dec w a +:+ x) (dec w b +:+ y)
    = match N.compare (a mod 10 ^ N.of_nat w) (b mod 10 ^ N.of_nat w) with
      | Eq => String.compare x y
      | c => c
      end.
Proof.
  induction w as [|w IH]; intros a b x y.
  - cbn [dec]. change (N.of_nat 0) with 0%N. rewrite N.pow_0_r, !N.mod_1_r. done.
  - cbn [dec]. rewrite !app_cons. cbn [String.compare]. rewrite digit_compare, IH.
    rewrite Nat2N.inj_succ, N.pow_succ_r'.
    rewrite !(N.mul_comm 10), !N.Div0.mod_mul_r.
    pose proof (N.mod_upper_bound a (10 ^ N.of_nat w)).
    pose proof (N.mod_upper_bound b (10 ^ N.of_nat w)).
    assert (10 ^ N.of_nat w ≠ 0)%N by (apply N.pow_nonzero; lia).
    rewrite compare_digits by auto.
    by destruct (N.compare _ _).
Qed.

Lemma dec_compare_small w a b x y :
  (a < 10 ^ N.of_nat w)%N → (b < 10 ^ N.of_nat w)%N →
  String.compare (dec w a +:+ x) (dec w b +:+ y)
  = match N.compare a b with Eq => String.compare x y | c => c end.
Proof. intros Ha Hb. by rewrite dec_compare, !N.mod_small. Qed.

(** *** The order of the names is the order of the dates *)

Lemma timestamp_compare t1 t2 x y :
  valid t1 → valid t2 →
  String.compare (strftime_timestamp t1 +:+ x) (strftime_timestamp t2 +:+ y)
  = match datetime_compare t1 t2 with Eq => String.compare x y | c => c end.
Proof.
  intros (Hy1 & Hm1 & Hd1 & Hh1 & Hi1 & Hs1) (Hy2 & Hm2 & Hd2 & Hh2 & Hi2 & Hs2).
  unfold strftime_timestamp, datetime_compare. rewrite !str_app_assoc.
  cbn [lex_compare].
  rewrite (dec_compare_small 4) by done.
  rewrite compare_sep.
  rewrite (dec_compare_small 2) by done.
  rewrite compare_sep.
  rewrite (dec_compare_small 2) by done.
  rewrite compare_sep.
  rewrite (dec_compare_small 2) by done.
  rewrite compare_sep.
  rewrite (dec_compare_small 2) by done.
  rewrite compare_sep.
  rewrite (dec_compare_small 2) by done.
  repeat (destruct (N.compare _ _); try reflexivity).
Qed.

Lemma month_tag_compare t1 t2 x y :
  valid t1 → valid t2 →
  String.compare (strftime_month t1 +:+ x) (strftime_month t2 +:+ y)
  = match month_compare t1 t2 with Eq => String.compare x y | c => c end.
Proof.
  intros (Hy1 & Hm1 & _) (Hy2 & Hm2 & _).
  unfold strftime_month, month_compare. rewrite !str_app_assoc.
  cbn [lex_compare].
  rewrite (dec_compare_small 4) by done.
  rewrite compare_sep.
  rewrite (dec_compare_small 2) by done.
  repeat (destruct (N.compare _ _); try reflexivity).
Qed.

Lemma recent_name_compare p t1 t2 :
  valid t1 → valid t2 →
  String.compare (recent_name p t1) (recent_name p t2) = datetime_compare t1 t2.
Proof.
  intros H1 H2. unfold recent_name. rewrite !compare_app_l.
  rewrite timestamp_compare by done. rewrite compare_refl.
  by destruct (datetime_compare t1 t2).
Qed.

Lemma monthly_name_compare p t1 t2 :
  valid t1 → valid t2 →
  String.compare (monthly_name p t1) (monthly_name p t2) = month_compare t1 t2.
Proof.
  intros H1 H2. unfold monthly_name, monthly_name_of. rewrite !compare_app_l.
  rewrite month_tag_compare by done. rewrite compare_refl.
  by destruct (month_compare t1 t2).
Qed.

Lemma le_compare a b : String.le a b ↔ String.compare a b ≠ Gt.
Proof.
  unfold String.le, String.leb. destruct (String.compare a b); simpl; naive_solver.
Qed.



(** *** How the names are classified *)

Lemma contains_prefix sub s : String.prefix sub s = true → Py.contains sub s = true.
Proof. intros H. destruct s; cbn [Py.contains]; by rewrite H. Qed.

Lemma contains_app_intro sub a b : Py.contains sub (a +:+ sub +:+ b) = true.
Proof.
  induction a as [|c a IH].
  - change (Py.contains sub (sub +:+ b) = true). apply contains_prefix, prefix_app.
  - rewrite app_cons. cbn [Py.contains]. rewrite IH. by destruct (String.prefix _ _).
Qed.

Lemma contains_cons sub c s :
  Py.contains sub (String c s)
  = if String.prefix sub (String c s) then true else Py.contains sub s.
Proof. done. Qed.

Lemma prefix_app_inv sub :
  ∀ x s, String.prefix sub (x +:+ s) = true →
         String.prefix sub x = true
         ∨ ∃ r, sub = x +:+ r ∧ r ≠ "" ∧ String.prefix r s = true.
Proof.
  induction sub as [|a sub IH]; intros x s H; [left; by destruct x|].
  destruct x as [|c x].
  - right. exists (String a sub). done.
  - rewrite app_cons in H. cbn [String.prefix] in H |- *.
    destruct (ascii_dec a c) as [->|]; [|done].
    destruct (IH x s H) as [?|(r & -> & ? & ?)]; [by left|].
    right. exists r. by rewrite app_cons.
Qed.

Lemma contains_app_false sub a b :
  Py.contains sub a = false →
  Py.contains sub b = false →
  (∀ q r, sub = q +:+ r → q ≠ "" → r ≠ "" → String.prefix r b = false) →
  Py.contains sub (a +:+ b) = false.
Proof.
  intros Ha Hb Hs. induction a as [|c a IH]; [done|].
  rewrite contains_cons in Ha.
  destruct (String.prefix sub (String c a)) eqn:Hp; [done|].
  rewrite app_cons, contains_cons, (IH Ha).
  destruct (String.prefix sub (String c (a +:+ b))) eqn:Hp'; [|done].
  rewrite <- app_cons in Hp'.
  apply prefix_app_inv in Hp' as [?|(r & E & Hr & Hpr)]; [congruence|].
  rewrite (Hs _ _ E) in Hpr; done.
Qed.

Lemma digit_ne n c : (N_of_ascii c < 48 ∨ 57 < N_of_ascii c)%N → digit n ≠ c.
Proof.
  intros H E. apply (f_equal N_of_ascii) in E. rewrite N_of_digit in E.
  assert (n mod 10 < 10)%N by (apply N.mod_upper_bound; lia).
  set (k := N_of_ascii c) in *. set (r := (n mod 10)%N) in *. clearbody k r. lia.
Qed.

Lemma contains_skip c s :
  c ≠ "_"%char → Py.contains "_monthly" (String c s) = Py.contains "_monthly" s.
Proof.
  intros H. rewrite contains_cons. cbn [String.prefix].
  destruct (ascii_dec "_" c) as [E|]; [by destruct H|done].
Qed.

Lemma contains_skip_underscore c s :
  c ≠ "m"%char →
  Py.contains "_monthly" (String "_" (String c s)) = Py.contains "_monthly" (String c s).
Proof.
  intros H. rewrite contains_cons. cbn [String.prefix].
  destruct (ascii_dec "_" "_") as [_|]; [|done].
  destruct (ascii_dec "m" c) as [E|]; [by destruct H|done].
Qed.

Lemma contains_dec w n s :
  Py.contains "_monthly" (dec w n +:+ s) = Py.contains "_monthly" s.
Proof.
  induction w as [|w IH]; [done|]. cbn [dec]. rewrite app_cons, contains_skip; [done|].
  apply digit_ne. cbn. lia.
Qed.

Lemma contains_underscore_dec w n s :
  Py.contains "_monthly" (String "_" (dec (S w) n +:+ s)) = Py.contains "_monthly" s.
Proof.
  cbn [dec]. rewrite app_cons, contains_skip_underscore by (apply digit_ne; cbn; lia).
  rewrite <- app_cons. apply (contains_dec (S w)).
Qed.

Lemma str_app_nil_l (s : string) : "" +:+ s = s.
Proof. done. Qed.

Lemma timestamp_not_monthly t :
  Py.contains "_monthly" ("_library_" +:+ strftime_timestamp t +:+ ".zip") = false.
Proof.
  unfold strftime_timestamp. rewrite !str_app_assoc.
  rewrite !app_cons, !str_app_nil_l.
  rewrite contains_skip_underscore by done.
  do 7 rewrite contains_skip by done.
  rewrite contains_underscore_dec.
  rewrite contains_skip by done.
  rewrite contains_dec.
  rewrite contains_skip by done.
  rewrite contains_dec.
  rewrite contains_underscore_dec.
  rewrite contains_skip by done.
  rewrite contains_dec.
  rewrite contains_skip by done.
  rewrite contains_dec.
  done.
Qed.

Lemma recent_name_not_monthly p t :
  is_monthly p = false → is_monthly (recent_name p t) = false.
Proof.
  intros Hp. unfold is_monthly, recent_name.
  apply contains_app_false; [done|apply timestamp_not_monthly|].
  intros q r E Hq Hr.
  destruct q as [|c0 q]; [done|]. rewrite app_cons in E. injection E as <- E.
  do 7 (destruct q as [|? q];
        [rewrite str_app_nil_l in E; subst r; reflexivity
        |rewrite app_cons in E; injection E as <- E]).
  destruct q; [|done]. rewrite str_app_nil_l in E. by subst r.
Qed.

Lemma monthly_name_is_monthly p t : is_monthly (monthly_name p t) = true.
Proof.
  unfold is_monthly, monthly_name, monthly_name_of.
  rewrite <- !str_app_assoc.
  change "_monthly.zip" with ("_monthly" +:+ ".zip"). apply contains_app_intro.
Qed.

Lemma recent_name_is_backup p t : is_backup_of p (recent_name p t) = true.
Proof.
  unfold is_backup_of, recent_name. pose proof (is_zip_backup_name p (strftime_timestamp t)) as H. unfold is_zip in H.
  rewrite H. cbn [andb].
  unfold Py.startswith. rewrite <- str_app_assoc. apply prefix_app.
Qed.

Lemma monthly_name_is_backup p t : is_backup_of p (monthly_name p t) = true.
Proof.
  unfold is_backup_of, monthly_name.
  pose proof (is_zip_monthly_name p (strftime_month t)) as H. unfold is_zip in H.
  rewrite H. cbn [andb].
  unfold Py.startswith, monthly_name_of. rewrite <- str_app_assoc. apply prefix_app.
Qed.



End NameFacts.

(** * The monthly snapshot *)
Module MonthlyFacts.
Import Exec ExecFacts Backup PyFacts FingerprintFacts BackupFacts BackupFrame PruneFacts
       NameFacts.
Local Open Scope exec_scope.

(** The state after a reading of the clock. *)
Definition tick (st : state) : state :=
  {| backup_dir := backup_dir st; libraries := libraries st; clock := clock st;
     ticks := S (ticks st); localtime := localtime st; log := log st |}.

(** What [ensure_monthly_snapshot] does, by the content of [BACKUP_DIR]. *)
Lemma ensure_monthly_eq p latest st :
  ensure_monthly_snapshot p latest st =
  let t := clock st (ticks st) in
  let m := monthly_name p t in
  if bool_decide (is_Some (files st !! m))
  then (add_log [Printed (MsgMonthlyExists p (strftime_month t))] (tick st), Ok tt)
  else match backup_dir st, files st !! latest with
       | Some d, Some c =>
           ({| backup_dir := Some (<[m := c]> d); libraries := libraries st;
               clock := clock st; ticks := S (ticks st); localtime := localtime st;
               log := log st ++ [Printed (MsgNoMonthlySnapshot p (strftime_month t));
                                 Copied latest m;
                                 Printed (MsgMonthlyCreated p m)] |}, Ok tt)
       | _, _ =>
           (add_log [Printed (MsgNoMonthlySnapshot p (strftime_month t))] (tick st),
            Raise (FileNotFoundError (backup_path latest)))
       end.
Proof.
  unfold ensure_monthly_snapshot. unfold bind at 1. unfold datetime_now at 1.
  cbv beta iota zeta. fold (tick st). unfold bind at 1. rewrite path_exists_eq.
  cbv beta iota. change (files (tick st)) with (files st). unfold monthly_name.
  destruct (bool_decide _); cbn [negb].
  - by rewrite producer_print_eq.
  - unfold bind at 1. rewrite producer_print_eq. cbv beta iota.
    unfold bind at 1. unfold copy2, bind at 1, get. cbn [backup_dir add_log tick].
    change (files (add_log _ (tick st))) with (files st).
    destruct (backup_dir st) as [d|] eqn:Hd; [|done].
    destruct (files st !! latest) as [c|]; [|done].
    unfold bind, modify. rewrite producer_emit_eq, producer_print_eq.
    unfold add_log, set_backup_dir, tick. cbn. by rewrite <- !app_assoc.
Qed.

(** *** A snapshot that is there stays, in a run within its month *)
Section Snapshot.
Variables (p m : string) (c : content) (clk : nat → datetime) (k0 : nat).
Hypothesis p_plain : is_monthly p = false.
Hypothesis same_month : ∀ k, k0 ≤ k → monthly_name p (clk k) = m.

(** The snapshot [m] is there, and no snapshot of [p] is newer. *)
Definition good (d : gmap string content) : Prop :=
  d !! m = Some c ∧ ∀ n, n ∈ monthly_of p d → String.le n m.

Definition inv (st : state) : Prop :=
  clock st = clk ∧ k0 ≤ ticks st ∧ good (files st).

Definition not_copy_to_m (e : event) : Prop :=
  match e with Copied _ dst => dst ≠ m | _ => True end.

Definition guarded (st st' : state) : Prop :=
  inv st → inv st' ∧ ∃ tr, log st' = log st ++ tr ∧ Forall not_copy_to_m tr.

#[local] Instance guarded_preorder : PreOrder guarded.
Proof.
  split.
  - intros st H. split; [done|]. exists []. by rewrite app_nil_r.
  - intros s1 s2 s3 H1 H2 H. destruct (H1 H) as (I2 & t1 & E1 & F1).
    destruct (H2 I2) as (I3 & t2 & E2 & F2). split; [done|].
    exists (t1 ++ t2). rewrite E2, E1, app_assoc. split; [done|]. by apply Forall_app.
Qed.


(** The libraries other than [p] whose files are not taken for files of
    [p], nor the other way round. *)
Definition foreign (q : string) : Prop :=
  ∀ n, is_backup_of q n = true → is_backup_of p n = false.





Lemma good_delete d n : good d → n ≠ m → good (delete n d).
Proof.
  intros [Hm Hn] Hne. split; [by rewrite lookup_delete_ne|].
  intros k Hk. apply elem_of_monthly in Hk as (H1 & H2 & [x H3]).
  apply lookup_delete_Some in H3 as [_ H3]. apply Hn, elem_of_monthly. eauto.
Qed.


(** *** The primitives *)









(** *** The functions of the script *)














End Snapshot.

Lemma prefix_cons c s a n :
  String.prefix (String c s) (String a n)
  = if ascii_dec c a then String.prefix s n else false.
Proof. done. Qed.


Lemma foreign_manga_books : foreign "manga" "books".
Proof.
  intros n. unfold is_backup_of, Py.startswith. intros H.
  apply andb_true_iff in H as [_ H]. apply andb_false_iff. right.
  change ("books" +:+ "_library_") with "books_library_" in H.
  change ("manga" +:+ "_library_") with "manga_library_".
  destruct n as [|a n]; [done|]. rewrite prefix_cons in H |- *.
  destruct (ascii_dec "b" a) as [<-|]; [|done].
  by destruct (ascii_dec "m" "b").
Qed.

End MonthlyFacts.

(** * The fingerprint (claims C4 and C7) *)
Module Fingerprint.
Import Backup FingerprintFacts.

(** C7.  The fingerprint of a library is the hex-encoded SHA-256 digest
    of the records [<relative path>|<size>|<int(mtime)>\n] of the files
    met in the sorted traversal of its tree: the code, which feeds the
    hasher line by line while [os.walk] runs and skips the names that
    [os.stat] cannot find, computes the digest the specification
    describes ([spec_fingerprint]). *)
Theorem fingerprint_is_digest_of_records (root : entry) :
  wf root →
  compute_library_fingerprint root = spec_fingerprint root.
Proof.
  intros Hwf. rewrite fingerprint_lines. unfold spec_fingerprint.
  by rewrite (walk_records root root []).
Qed.

Definition sample_tree : entry :=
  Dir [ ("b.txt", File (Some {| st_size := 50; st_mtime_num := 1700000001; st_mtime_den := 1 |}));
        ("gone.tmp", File None);
        ("sub", Dir [ ("c.epub", File (Some {| st_size := 7; st_mtime_num := -3; st_mtime_den := 2 |})) ]);
        ("a.txt", File (Some {| st_size := 100; st_mtime_num := 17000000009; st_mtime_den := 10 |})) ].

Lemma sample_tree_wf : wf sample_tree.
Proof.
  repeat first [ apply wf_Dir | apply wf_File | apply Forall_cons; split | apply Forall_nil ];
    simpl; apply (bool_decide_unpack _); by vm_compute.
Defined.

Lemma fingerprint_is_digest_of_records_witness :
  wf sample_tree
  ∧ compute_library_fingerprint sample_tree = spec_fingerprint sample_tree.
Proof.
  split; [exact sample_tree_wf|].
  apply (fingerprint_is_digest_of_records sample_tree). exact sample_tree_wf.
Defined.

(** C4.  Two trees that hold the same files, whatever the order in which
    their directories are enumerated, have the same fingerprint. *)
Theorem fingerprint_order_independent (t1 t2 : entry) :
  wf t1 → wf t2 → same_files t1 t2 →
  compute_library_fingerprint t1 = compute_library_fingerprint t2.
Proof.
  intros H1 H2 Hs. rewrite !fingerprint_lines.
  rewrite (walk_records t1 t1 []), (walk_records t2 t2 []) by done.
  by rewrite (records_same_files t1 t2 []).
Qed.

(** The sample tree, as another enumeration order would list it. *)
Definition sample_tree_reordered : entry :=
  Dir [ ("a.txt", File (Some {| st_size := 100; st_mtime_num := 17000000009; st_mtime_den := 10 |}));
        ("sub", Dir [ ("c.epub", File (Some {| st_size := 7; st_mtime_num := -3; st_mtime_den := 2 |})) ]);
        ("b.txt", File (Some {| st_size := 50; st_mtime_num := 1700000001; st_mtime_den := 1 |}));
        ("gone.tmp", File None) ].

Lemma sample_tree_reordered_wf : wf sample_tree_reordered.
Proof.
  repeat first [ apply wf_Dir | apply wf_File | apply Forall_cons; split | apply Forall_nil ];
    simpl; apply (bool_decide_unpack _); by vm_compute.
Defined.

Lemma sample_trees_same_files : same_files sample_tree sample_tree_reordered.
Proof.
  intros [|n p]; [done|]. cbn [entry_at sample_tree sample_tree_reordered lookup_name].
  destruct (String.eqb_spec n "b.txt") as [->|]; [done|].
  destruct (String.eqb_spec n "gone.tmp") as [->|]; [done|].
  destruct (String.eqb_spec n "sub") as [->|]; [done|].
  destruct (String.eqb_spec n "a.txt") as [->|]; done.
Defined.

Lemma fingerprint_order_independent_witness :
  compute_library_fingerprint sample_tree
  = compute_library_fingerprint sample_tree_reordered.
Proof.
  apply (fingerprint_order_independent sample_tree sample_tree_reordered).
  - exact sample_tree_wf.
  - exact sample_tree_reordered_wf.
  - exact sample_trees_same_files.
Defined.

End Fingerprint.

(** * The consumer (claims C1 and C9) *)
Module Consumer.
Import Exec ExecFacts Restore RestoreFacts RestoreMain RestoreService RestoreState
       RestoreConverge RestoreStart.

(** ** Sample machines *)

Definition repo : path := ["repo"].
Definition books_dir : path := repo ++ ["calibre-libraries"; "Books Library"].
Definition manga_dir : path := repo ++ ["calibre-libraries"; "Manga Library"].

Definition meta (n : N) : Backup.stat_result :=
  {| Backup.st_size := n; Backup.st_mtime_num := 1700000000; Backup.st_mtime_den := 1 |}.

Definition books_zip : Backup.content :=
  Backup.Archive [ (["metadata.db"], meta 4096);
                   (["Author"; "Title"; "book.epub"], meta 70000) ].
Definition manga_zip : Backup.content :=
  Backup.Archive [ (["metadata.db"], meta 2048) ].

(** The library directories: the books library holds a file, a directory
    and a symbolic link to a directory outside the library. *)
Definition disk : gmap path node :=
  list_to_map
    [ (["repo"], NDir);
      (["repo"; "calibre-libraries"], NDir);
      (books_dir, NDir);
      (books_dir ++ ["old.epub"], NFile 5);
      (books_dir ++ ["Old Author"], NDir);
      (books_dir ++ ["Old Author"; "old.mobi"], NFile 7);
      (books_dir ++ ["shelf"], NLink ["Volumes"; "shelf"]);
      (manga_dir, NDir);
      (["Volumes"], NDir);
      (["Volumes"; "shelf"], NDir);
      (["Volumes"; "shelf"; "keep.epub"], NFile 9) ].

(** Both libraries have a new fingerprint and an archive. *)
Definition st_pending : state :=
  {| backup_dir := Some (list_to_map
       [ ("books_library_state.txt", Backup.Text "b2");
         ("books_library_last_restored_state.txt", Backup.Text "b1");
         ("books_library_2024-05-01_10-00-00.zip", books_zip);
         ("manga_library_state.txt", Backup.Text "m2");
         ("manga_library_2024-05-01_10-00-05.zip", manga_zip) ]);
     fs := disk; log := [] |}.

(** Nothing is new: books is in sync, manga has no producer state. *)
Definition st_quiet : state :=
  {| backup_dir := Some (list_to_map
       [ ("books_library_state.txt", Backup.Text "b2");
         ("books_library_last_restored_state.txt", Backup.Text "b2");
         ("books_library_2024-05-01_10-00-00.zip", books_zip) ]);
     fs := disk; log := [] |}.

(** As [st_pending], but the archive of the manga library is not a zip
    file (its synchronisation is not finished, say). *)
Definition st_truncated : state :=
  {| backup_dir := Some (list_to_map
       [ ("books_library_state.txt", Backup.Text "b2");
         ("books_library_last_restored_state.txt", Backup.Text "b1");
         ("books_library_2024-05-01_10-00-00.zip", books_zip);
         ("manga_library_state.txt", Backup.Text "m2");
         ("manga_library_2024-05-01_10-00-05.zip", Backup.Text "PK") ]);
     fs := disk; log := [] |}.

(** ** The service commands, as the specification states them *)

Definition count (e : event) (tr : list event) : nat :=
  length (filter (λ x, x = e) tr).

(** "The stop command is issued exactly once if and only if at least one
    library transitions to pending; the start command is issued exactly
    once whenever any library progressed (even if some libraries'
    restores failed); neither command is issued when no library
    changed." *)
Definition spec_service_commands (libs : list (string * path)) (st : state) : Prop :=
  let tr := trace_of (main_for libs) st in
  let pending := ∃ lib remote, lib ∈ libs ∧ status_of st lib.1 = Pending remote in
  let progressed := ∃ p, Printed (MsgStateUpdated p) ∈ tr in
  (pending → count DockerStop tr = 1)
  ∧ (progressed → count DockerStart tr = 1)
  ∧ (¬ pending → count DockerStop tr = 0 ∧ count DockerStart tr = 0).

Ltac by_computation := apply (bool_decide_unpack _); vm_compute; exact I.

(** ** Theorems *)

(** C1, as the code has it.  In a run of the consumer that finds its
    backup directory:
    - when no library is pending, the run only prints: neither command
      is issued;
    - when the first pending library has an archive, the stop command is
      issued exactly once, after nothing but printing (so before any
      change to a library), and then: if the run completes, the start
      command is issued exactly once, followed only by the two closing
      lines; if the run ends with an exception, the start command is not
      issued;
    - in a run that completes, the start command is issued once, at the
      end, when some library was restored, and not at all otherwise. *)
Theorem service_commands (libs : list (string * path)) (st : state) :
  is_Some (backup_dir st) →
  let tr := trace_of (main_for libs) st in
  (Forall (λ lib, quiet st lib.1) libs →
   Forall is_print tr ∧ (main_for libs st).2 = Ok tt)
  ∧ (∀ pre p d post remote b,
       libs = pre ++ (p, d) :: post →
       Forall (λ lib, quiet st lib.1) pre →
       status_of st p = Pending remote →
       latest_artifact st p = Some b →
       ∃ before after,
         tr = before ++ DockerStop :: after
         ∧ Forall is_print before
         ∧ DockerStop ∉ after
         ∧ match (main_for libs st).2 with
           | Ok _ => ∃ mid, after = mid ++ [DockerStart; Printed MsgStartIssued;
                                            Printed MsgAllProcessed]
                            ∧ DockerStart ∉ mid
           | Raise _ => DockerStart ∉ after
           end)
  ∧ ((main_for libs st).2 = Ok tt →
     ((∃ p, Printed (MsgStateUpdated p) ∈ tr) →
      ∃ mid, tr = mid ++ [DockerStart; Printed MsgStartIssued; Printed MsgAllProcessed]
             ∧ DockerStart ∉ mid)
     ∧ ((¬ ∃ p, Printed (MsgStateUpdated p) ∈ tr) → DockerStart ∉ tr)).
Proof.
  intros Hd tr. subst tr. split; [|split].
  - intros Hq. unfold trace_of. rewrite (no_change_run libs st Hd Hq).
    split; [|done]. cbn [fst log add_log]. rewrite drop_app_length.
    apply Forall_app. split; [apply quiet_trace_prints|by repeat constructor].
  - intros pre p d post remote b -> Hq Hp Hb.
    exact (first_pending_run pre p d post st remote b Hd Hq Hp Hb).
  - intros HR. exact (start_iff_restored libs st Hd HR).
Qed.

Lemma service_commands_witness :
  Forall is_print (trace_of (main repo) st_quiet)
  ∧ (∃ before after,
       trace_of (main repo) st_pending = before ++ DockerStop :: after
       ∧ Forall is_print before
       ∧ DockerStop ∉ after
       ∧ ∃ mid, after = mid ++ [DockerStart; Printed MsgStartIssued;
                                Printed MsgAllProcessed]
                ∧ DockerStart ∉ mid).
Proof.
  split.
  - destruct (service_commands (LIBRARIES repo) st_quiet) as (HA & _ & _).
    { by eexists. }
    apply HA.
    constructor; [right; vm_compute; reflexivity|].
    constructor; [left; vm_compute; reflexivity|constructor].
  - destruct (service_commands (LIBRARIES repo) st_pending) as (_ & HB & _).
    { by eexists. }
    destruct (HB [] "books" books_dir [("manga", manga_dir)] "b2"
                 "books_library_2024-05-01_10-00-00.zip")
      as (before & after & E & F & N & H).
    + reflexivity.
    + constructor.
    + vm_compute. reflexivity.
    + vm_compute. reflexivity.
    + exists before, after. split; [exact E|]. split; [exact F|]. split; [exact N|].
      assert ((main_for (LIBRARIES repo) st_pending).2 = Ok tt) as HR
        by (vm_compute; reflexivity).
      rewrite HR in H. exact H.
Defined.

(** The books library is restored, the archive of the manga library
    cannot be opened: the run ends there with [BadZipFile], the container
    has been stopped and is not started again. *)
Lemma service_commands_counterexample :
  (main repo st_truncated).2
  = Raise (BadZipFile "calibrebackups/manga_library_2024-05-01_10-00-05.zip")
  ∧ Printed (MsgStateUpdated "books") ∈ trace_of (main repo) st_truncated
  ∧ count DockerStop (trace_of (main repo) st_truncated) = 1
  ∧ count DockerStart (trace_of (main repo) st_truncated) = 0
  ∧ ¬ spec_service_commands (LIBRARIES repo) st_truncated.
Proof.
  assert (Printed (MsgStateUpdated "books") ∈ trace_of (main repo) st_truncated) as Hin
    by by_computation.
  split; [vm_compute; reflexivity|]. split; [exact Hin|].
  split; [vm_compute; reflexivity|]. split; [vm_compute; reflexivity|].
  intros (_ & H & _). specialize (H (ex_intro _ "books" Hin)).
  vm_compute in H. discriminate H.
Qed.

(** The other way round: a pending library without an archive makes the
    loop stop the container, and nothing starts it when no library is
    restored. *)
Example stop_without_restore :
  let st := {| backup_dir := Some (list_to_map
                 [ ("books_library_state.txt", Backup.Text "b2") ]);
               fs := disk; log := [] |} in
  main repo st
  = (add_log [ Printed (MsgProcessing "books");
               Printed (MsgNewBackupDetected "books");
               Printed MsgStopping; DockerStop; Printed MsgStopIssued;
               Printed (MsgNoBackupsFound "books");
               Printed (MsgProcessing "manga");
               Printed (MsgNoRemoteState "manga");
               Printed MsgNoLibrariesChanged;
               Printed MsgAllProcessed ] st, Ok tt).
Proof. vm_compute. reflexivity. Qed.

(** C9.  When a run of the consumer has restored the library [p] (it
    printed its "state updated" line), whether the run then completes or
    the turn of a later library raises an exception:
    - the value written to the consumer's state file is the producer
      fingerprint [remote] that was read at the start, and after the run
      both state files of [p] read [remote];
    - in the trace, the write follows the "restore complete" line, which
      is printed when the extraction has returned;
    - when the loop of a following run reaches [p], with the producer
      state as the first run left it, it prints "no new backup" and does
      nothing else. *)
Theorem restore_converges (libs : list (string * path)) (st : state)
    (p : string) (d : path) :
  NoDup libs.*1 →
  (p, d) ∈ libs →
  Printed (MsgStateUpdated p) ∈ trace_of (main_for libs) st →
  let st1 := (main_for libs st).1 in
  ∃ remote,
    stored st (remote_state_file p) = Ok (Some remote)
    ∧ stored st1 (remote_state_file p) = Ok (Some remote)
    ∧ stored st1 (local_state_file p) = Ok (Some remote)
    ∧ (∃ tr1 tr2,
         trace_of (main_for libs) st
         = tr1 ++ [Printed (MsgRestoreComplete p);
                   StateWritten (local_state_file p) remote;
                   Printed (MsgStateUpdated p)] ++ tr2)
    ∧ ∀ pre post st2 v,
        libs = pre ++ (p, d) :: post →
        for_fold pre main_body false st1 = (st2, Ok v) →
        main_body v (p, d) st2
        = (add_log [Printed (MsgProcessing p); Printed (MsgNoNewBackup p)] st2, Ok v).
Proof.
  intros Hnd Hin Htr st1. subst st1. unfold trace_of in Htr |- *.
  destruct (loop_log libs false st) as (tl & El).
  pose proof (loop_converges libs false st tl p Hnd El) as HL.
  pose proof (loop_frame libs false st (remote_state_file p)) as HF.
  assert (backup_dir st = None ∧ (main_for libs st).1 = add_log [Printed MsgBackupDirMissing] st
          ∨ ∃ tail, (main_for libs st).1 = add_log tail (for_fold libs main_body false st).1
                    ∧ Forall (λ e, no_state_update e) tail) as [[Hbd EM]|(tail & EM & Ft)].
  { destruct (backup_dir st) as [bd|] eqn:Hbd; [right|left; split; [done|]].
    - unfold main_for, bind at 1, get. rewrite Hbd. unfold bind at 1.
      destruct (for_fold libs main_body false st) as [s [v|e]]; cbn [fst].
      + unfold bind. destruct v; cbv iota.
        * rewrite start_eq, print_eq, add_log_add_log. eexists. split; [done|].
          by repeat constructor.
        * rewrite !print_eq, add_log_add_log. eexists. split; [done|].
          by repeat constructor.
      + exists []. by rewrite add_log_nil.
    - unfold main_for, bind, get. rewrite Hbd. by rewrite print_eq. }
  { rewrite EM in Htr. cbn [log add_log] in Htr. rewrite drop_app_length in Htr.
    apply list_elem_of_singleton in Htr. done. }
  rewrite EM in Htr |- *. set (s := (for_fold libs main_body false st).1) in *.
  cbn [log add_log] in Htr |- *. rewrite El, <- app_assoc, drop_app_length in Htr |- *.
  apply elem_of_app in Htr as [Htr|Htr].
  2: { eapply Forall_forall in Ft; [|exact Htr]. by destruct (Ft p). }
  destruct (HL Htr) as (remote & tr1 & tr2 & -> & Sl & Sr).
  exists remote. rewrite !stored_add_log.
  assert (stored st (remote_state_file p) = Ok (Some remote)) as Sr0.
  { rewrite <- Sr. symmetry. apply stored_ext, HF. intros q _ E.
    symmetry in E. by apply local_ne_remote in E. }
  split; [done|]. split; [done|]. split; [done|]. split.
  { exists tr1, (tr2 ++ tail). by rewrite <- !app_assoc. }
  intros pre post st2 v' -> Epre.
  rewrite fmap_app in Hnd. apply NoDup_app in Hnd as (_ & Hdisj & Hnd').
  assert (p ∉ pre.*1) as Hp.
  { intros Hp. apply (Hdisj p Hp). simpl. apply list_elem_of_here. }
  destruct (loop_stored_other pre false (add_log tail s) p Hp) as [Hl2 Hr2].
  rewrite Epre in Hl2, Hr2. cbn [fst] in *. rewrite stored_add_log in Hl2, Hr2.
  rewrite main_body_eq. cbv zeta.
  rewrite (status_in_sync st2 p remote) by congruence.
  by rewrite add_log_add_log.
Qed.

(** The books library is restored, then the turn of the manga library
    raises: the state of the books library is as the theorem says. *)
Lemma restore_converges_witness :
  (main repo st_truncated).2
  = Raise (BadZipFile "calibrebackups/manga_library_2024-05-01_10-00-05.zip")
  ∧ ∃ remote,
      stored st_truncated (remote_state_file "books") = Ok (Some remote)
      ∧ stored (main repo st_truncated).1 (local_state_file "books") = Ok (Some remote).
Proof.
  split; [vm_compute; reflexivity|].
  destruct (restore_converges (LIBRARIES repo) st_truncated "books" books_dir)
    as (remote & H1 & _ & H3 & _).
  - by_computation.
  - by_computation.
  - by_computation.
  - exists remote. split; [exact H1|exact H3].
Defined.

End Consumer.

(** * The producer: change detection (claims C3 and C8) *)
Module Producer.
Import Exec ExecFacts Backup PyFacts FingerprintFacts BackupFacts BackupBody BackupFrame
       BackupIdempotent.
Local Open Scope exec_scope.

(** ** Sample machines *)

Definition books : string := "C:\Users\user\Books Library".
Definition manga : string := "C:\Users\user\Manga Library".

Definition noon : datetime :=
  {| year := 2024; month := 5; day := 1; hour := 12; minute := 0; second := 0 |}.

Definition shelf : entry :=
  Dir [ ("metadata.db", File (Some {| st_size := 4096; st_mtime_num := 1714557600;
                                      st_mtime_den := 1 |}));
        ("Author", Dir [ ("book.epub", File (Some {| st_size := 70000;
                                                     st_mtime_num := 3429115201;
                                                     st_mtime_den := 2 |})) ]) ].

(** The backup directory is empty; there is no manga library. *)
Definition st_first : state :=
  {| backup_dir := Some ∅;
     libraries := {[ books := shelf ]};
     clock := λ _, noon; ticks := 0; localtime := gmtime; log := [] |}.

Ltac by_computation := apply (bool_decide_unpack _); vm_compute; exact I.

(** ** Theorems *)

(** C3.  When the library directory exists and the fingerprint [F] of
    the library differs from the stored one (or none is stored):
    - [has_library_changed] writes [F] to the state file, prints and
      answers [True], and the state file then reads [F];
    - in the turn of the loop for this library, the write of the state
      file is the first event: the archive is opened after it;
    - a turn for the library that starts from any state in which the
      state file is as this write left it and the library has not
      changed (for one, the state right after the write, when the first
      run did not get to the archive) prints "no changes" and does
      nothing else. *)
Theorem state_written_before_archive (p dir : string) (st : state) (o : option string) :
  is_library_dir st dir = true →
  is_Some (backup_dir st) →
  stored st p = Ok o →
  o ≠ Some (current_fingerprint st dir) →
  let F := current_fingerprint st dir in
  let st1 := (has_library_changed p dir st).1 in
  (has_library_changed p dir st).2 = Ok true
  ∧ log st1 = log st ++ [StateWritten (state_file_for_prefix p) F;
                         Printed (MsgChangesDetected p)]
  ∧ stored st1 p = Ok (Some F)
  ∧ (∃ tr, trace_of (main_body (p, dir)) st
           = StateWritten (state_file_for_prefix p) F
               :: Printed (MsgChangesDetected p) :: tr)
  ∧ ∀ st2,
      libraries st2 !! dir = libraries st !! dir →
      files st2 !! state_file_for_prefix p = files st1 !! state_file_for_prefix p →
      main_body (p, dir) st2 = (add_log [Printed (MsgNoChanges p)] st2, Ok tt).
Proof.
  intros Hd [d Hbd] Hs Hne F st1.
  assert (has_library_changed p dir st = written p F st) as HW.
  { rewrite has_library_changed_eq. cbv zeta. rewrite Hs. fold F.
    destruct o as [P|]; [|done].
    destruct (String.eqb_spec P F) as [->|]; [by destruct Hne|done]. }
  assert (stored st1 p = Ok (Some F)) as Hs1.
  { subst st1. rewrite HW. unfold written. rewrite Hbd. unfold stored, files. cbn.
    rewrite lookup_insert_eq. unfold F, current_fingerprint.
    by rewrite strip_fingerprint. }
  split; [|split; [|split; [exact Hs1|split]]].
  - rewrite HW. unfold written. by rewrite Hbd.
  - subst st1. rewrite HW. unfold written. by rewrite Hbd.
  - unfold trace_of. rewrite producer_main_body_eq, Hd, HW.
    unfold written. rewrite Hbd.
    match goal with |- context [after_change p dir ?s] =>
      destruct (emits_after_change p dir s) as (tr & E & _); exists tr; rewrite E end.
    cbn [log]. by rewrite <- app_assoc, drop_app_length.
  - intros st2 HL HF. apply unchanged_body.
    + unfold is_library_dir in *. by rewrite HL.
    + unfold stored in *. rewrite HF.
      unfold current_fingerprint, library_tree. rewrite HL. exact Hs1.
Qed.

Lemma state_written_before_archive_witness :
  let F := current_fingerprint st_first books in
  let st1 := (has_library_changed "books" books st_first).1 in
  stored st1 "books" = Ok (Some F)
  ∧ main_body ("books", books) st1 = (add_log [Printed (MsgNoChanges "books")] st1, Ok tt).
Proof.
  destruct (state_written_before_archive "books" books st_first None)
    as (_ & _ & H3 & _ & H5).
  - vm_compute. reflexivity.
  - by eexists.
  - vm_compute. reflexivity.
  - discriminate.
  - split; [exact H3|]. apply H5; reflexivity.
Defined.

(** C8.  A turn of the loop for a library whose stored fingerprint is
    the fingerprint of the library as it is only prints "no changes":
    the backup directory is left as it is, no archive is created, copied
    or deleted.  So after a run of the producer that completes, a second
    run that finds the backup directory and the libraries as the first
    run left them only prints: one line for each library and the closing
    line; and when only the library [dir] is known to be unchanged, the
    turn of the second run for that library only prints, whatever the
    turns before it did. *)
Theorem second_run_creates_nothing (libs : list (string * string)) (st st1 st2 : state) :
  NoDup libs.*1 →
  main_for libs st = (st1, Ok tt) →
  backup_dir st2 = backup_dir st1 →
  (∀ p dir,
     is_library_dir st2 dir = true →
     stored st2 p = Ok (Some (current_fingerprint st2 dir)) →
     main_body (p, dir) st2 = (add_log [Printed (MsgNoChanges p)] st2, Ok tt))
  ∧ (libraries st2 = libraries st1 →
     main_for libs st2
     = (add_log (map (λ lib, Printed (settled_message st2 lib)) libs
                 ++ [Printed MsgRoutineComplete]) st2, Ok tt))
  ∧ (∀ pre p dir post st3,
       libs = pre ++ (p, dir) :: post →
       libraries st2 !! dir = libraries st1 !! dir →
       for_each pre main_body st2 = (st3, Ok tt) →
       main_body (p, dir) st3
       = (add_log [Printed (settled_message st3 (p, dir))] st3, Ok tt)).
Proof.
  intros Hnd E1 Hb. split; [|split].
  - intros p dir. apply unchanged_body.
  - intros HL. by eapply second_run_prints.
  - intros pre p dir post st3 -> HL E3.
    assert (Forall (settled st1) (pre ++ (p, dir) :: post)) as Hs.
    { unfold main_for, bind at 1 in E1.
      destruct (ensure_backup_dir st) as [s0 [[]|]] eqn:E0; [|done].
      unfold bind at 1 in E1.
      destruct (for_each (pre ++ (p, dir) :: post) main_body s0) as [s1 [[]|]] eqn:EL;
        [|done].
      rewrite producer_print_eq in E1. injection E1 as <-.
      eapply Forall_impl; [by eapply loop_settles|].
      intros lib. by rewrite settled_add_log. }
    apply Forall_app in Hs as [_ Hs]. apply Forall_cons in Hs as [Hs _].
    apply settled_body.
    assert (settled st2 (p, dir)) as Hs2.
    { unfold settled, is_library_dir, stored, current_fingerprint, library_tree, files in *.
      cbn [fst snd] in *. by rewrite Hb, HL. }
    rewrite fmap_app in Hnd. apply NoDup_app in Hnd as (_ & Hdisj & _).
    pose proof (frame_loop pre st2) as [L F]. rewrite E3 in L, F. cbn [fst] in L, F.
    eapply settled_ext; [exact L| |exact Hs2]. cbn [fst]. apply F.
    intros q Hq. split.
    + intros E. apply state_file_inj in E. subst q.
      apply (Hdisj p Hq). cbn. apply list_elem_of_here.
    + apply is_zip_state_file.
Qed.

Lemma second_run_creates_nothing_witness :
  let st1 := (main st_first).1 in
  main st1
  = (add_log [Printed (MsgNoChanges "books");
              Printed (MsgLibraryDirMissing "manga" manga);
              Printed MsgRoutineComplete] st1, Ok tt).
Proof.
  cbv zeta. unfold main.
  destruct (second_run_creates_nothing LIBRARIES st_first (main_for LIBRARIES st_first).1
              (main_for LIBRARIES st_first).1) as (_ & H & _).
  - by_computation.
  - apply run_result. vm_compute. reflexivity.
  - reflexivity.
  - rewrite (H eq_refl). do 2 f_equal.
Defined.

End Producer.

(** * The loops over the libraries and the exceptions (claim C2) *)
Module Batch.
Import Exec ExecFacts.
Import RestoreFacts RestoreMain RestoreService RestoreStart.
Import BackupFacts BackupBody BackupIdempotent.
Local Open Scope exec_scope.

(** ** Sample machines *)

(** The consumer: both libraries have a new fingerprint; the archive of
    the books library is not a zip file, the one of the manga library is
    fine. *)
Definition st_books_truncated : Restore.state :=
  {| Restore.backup_dir := Some (list_to_map
       [ ("books_library_state.txt", Backup.Text "b2");
         ("books_library_2024-05-01_10-00-00.zip", Backup.Text "PK");
         ("manga_library_state.txt", Backup.Text "m2");
         ("manga_library_2024-05-01_10-00-05.zip", Consumer.manga_zip) ]);
     Restore.fs := Consumer.disk; Restore.log := [] |}.

(** The producer: the books library lists a name that cannot be stat-ed
    (["gone.tmp"], a dangling symbolic link say); the manga library is
    fine. *)
Definition st_books_dangling : Backup.state :=
  {| Backup.backup_dir := Some ∅;
     Backup.libraries := {[ Producer.books := Fingerprint.sample_tree;
                            Producer.manga := Producer.shelf ]};
     Backup.clock := λ _, Producer.noon; Backup.ticks := 0;
     Backup.localtime := Backup.gmtime; Backup.log := [] |}.

(** ** The claim, as the specification states it *)

(** "A failure while processing one library does not abort the run." *)
Definition spec_run_completes {S} (m : M S unit) (st : S) : Prop :=
  (m st).2 = Ok tt.

(** "Every remaining configured library is still attempted": each turn
    of the consumer starts with the "processing" line of its library. *)
Definition spec_consumer_attempts (libs : list (string * Restore.path))
    (st : Restore.state) : Prop :=
  ∀ lib, lib ∈ libs →
    Restore.Printed (Restore.MsgProcessing lib.1)
      ∈ Restore.trace_of (Restore.main_for libs) st.

(** The lines one of which a turn of the producer prints once it knows
    whether the library has to be archived. *)
Definition turn_line (p : string) (e : Backup.event) : bool :=
  match e with
  | Backup.Printed (Backup.MsgLibraryDirMissing q _)
  | Backup.Printed (Backup.MsgNoChanges q)
  | Backup.Printed (Backup.MsgChangesDetected q) => String.eqb q p
  | _ => false
  end.

Definition spec_producer_attempts (libs : list (string * string))
    (st : Backup.state) : Prop :=
  ∀ lib, lib ∈ libs →
    existsb (turn_line lib.1) (Backup.trace_of (Backup.main_for libs) st) = true.

Ltac by_computation := apply (bool_decide_unpack _); vm_compute; exact I.

(** ** Theorems *)

(** C2, as the code has it.  Neither script catches the exceptions of a
    turn of its loop.
    - Consumer: a library that has no producer state, or is in sync, or
      is pending but has no archive, is skipped: its turn returns
      normally.  When the turn of a library raises an exception, the run
      ends right there with this exception: the libraries after it are
      not processed and nothing more is logged.  A run that completes
      has printed the "processing" line of every library.
    - Producer: a library whose directory is missing, or whose
      fingerprint is the stored one, is skipped: its turn returns
      normally.  When the turn of a library raises an exception, the run
      ends right there with this exception. *)
Theorem failure_propagation :
  (∀ v p d st,
     Restore.status_of st p = Restore.NoRemote
     ∨ Restore.status_of st p = Restore.InSync
     ∨ (∃ remote, Restore.status_of st p = Restore.Pending remote
                  ∧ Restore.latest_artifact st p = None) →
     ∃ tr, Restore.main_body v (p, d) st = (Restore.add_log tr st, Ok v))
  ∧ (∀ pre lib post st st0 v st1 e,
       is_Some (Restore.backup_dir st) →
       for_fold pre Restore.main_body false st = (st0, Ok v) →
       Restore.main_body v lib st0 = (st1, Raise e) →
       Restore.main_for (pre ++ lib :: post) st = (st1, Raise e))
  ∧ (∀ libs st st1,
       is_Some (Restore.backup_dir st) →
       Restore.main_for libs st = (st1, Ok tt) →
       ∀ lib, lib ∈ libs →
         Restore.Printed (Restore.MsgProcessing lib.1)
           ∈ Restore.trace_of (Restore.main_for libs) st)
  ∧ (∀ p dir st,
       Backup.is_library_dir st dir = false →
       Backup.main_body (p, dir) st
       = (Backup.add_log [Backup.Printed (Backup.MsgLibraryDirMissing p dir)] st, Ok tt))
  ∧ (∀ p dir st,
       Backup.is_library_dir st dir = true →
       Backup.stored st p = Ok (Some (Backup.current_fingerprint st dir)) →
       Backup.main_body (p, dir) st
       = (Backup.add_log [Backup.Printed (Backup.MsgNoChanges p)] st, Ok tt))
  ∧ (∀ pre lib post st st0 st1 e,
       (Backup.ensure_backup_dir;; for_each pre Backup.main_body) st = (st0, Ok tt) →
       Backup.main_body lib st0 = (st1, Raise e) →
       Backup.main_for (pre ++ lib :: post) st = (st1, Raise e)).
Proof.
  split; [|split; [|split; [|split; [|split]]]].
  - intros v p d st H. rewrite main_body_eq. cbv zeta.
    destruct H as [->|[->|(remote & -> & ->)]]; rewrite !add_log_add_log; eauto.
  - intros pre lib post st st0 v st1 e Hd Epre Elib.
    rewrite main_for_eq by done.
    by rewrite (bind_raise _ _ _ _ _ (for_fold_raise pre post _ _ _ _ _ _ _ _ Epre Elib)).
  - intros libs st st1 Hd E lib Hin.
    unfold Restore.trace_of. rewrite E. cbn [fst].
    rewrite main_for_eq in E by done. unfold bind at 1 in E.
    destruct (for_fold libs Restore.main_body false st) as [s [v|e]] eqn:EL; [|done].
    pose proof (loop_attempts _ _ _ _ _ EL lib Hin) as Hl.
    destruct (loop_log libs false st) as (tl & El). rewrite EL in El. cbn [fst] in El.
    rewrite El, drop_app_length in Hl.
    assert (∃ tail, Restore.log st1 = Restore.log s ++ tail) as (tail & Et).
    { unfold bind in E. destruct v.
      - rewrite start_eq, print_eq, add_log_add_log in E. injection E as <-. by eexists.
      - rewrite !print_eq, add_log_add_log in E. injection E as <-. by eexists. }
    rewrite Et, El, <- app_assoc, drop_app_length. apply elem_of_app. by left.
  - intros p dir st. apply missing_body.
  - intros p dir st. apply unchanged_body.
  - intros pre lib post st st0 st1 e Epre Elib.
    rewrite producer_main_for_eq. unfold bind at 1 in Epre. unfold bind at 1.
    destruct (Backup.ensure_backup_dir st) as [s0 [[]|]]; [|done].
    by rewrite (bind_raise _ _ _ _ _ (for_each_raise pre post _ _ _ _ _ _ Epre Elib)).
Qed.

Lemma failure_propagation_witness :
  (Restore.main Consumer.repo Consumer.st_truncated).2
  = Raise (BadZipFile "calibrebackups/manga_library_2024-05-01_10-00-05.zip")
  ∧ (Backup.main st_books_dangling).2 = Raise (FileNotFoundError "gone.tmp").
Proof.
  destruct failure_propagation as (_ & HC & _ & _ & _ & HP). split.
  - assert (Restore.main_for ([("books", Consumer.books_dir)]
                                ++ ("manga", Consumer.manga_dir) :: [])
              Consumer.st_truncated
            = ((Restore.main Consumer.repo Consumer.st_truncated).1,
               Raise (BadZipFile "calibrebackups/manga_library_2024-05-01_10-00-05.zip")))
      as E.
    { apply (HC _ _ _ _
               (for_fold [("books", Consumer.books_dir)] Restore.main_body false
                  Consumer.st_truncated).1 true).
      - by eexists.
      - vm_compute. reflexivity.
      - vm_compute. reflexivity. }
    change (Restore.main_for _ _) with (Restore.main Consumer.repo Consumer.st_truncated) in E.
    rewrite E. reflexivity.
  - assert (Backup.main_for ([] ++ ("books", Producer.books)
                                :: [("manga", Producer.manga)]) st_books_dangling
            = ((Backup.main_body ("books", Producer.books) st_books_dangling).1,
               Raise (FileNotFoundError "gone.tmp")))
      as E.
    { apply (HP _ _ _ _ st_books_dangling).
      - reflexivity.
      - apply run_result. vm_compute. reflexivity. }
    change (Backup.main_for _ _) with (Backup.main st_books_dangling) in E.
    rewrite E. reflexivity.
Defined.

(** On both sides the exception of the books library ends the run: the
    manga library, which has work to do, is not attempted. *)
Lemma failure_propagation_counterexample :
  ((Restore.main Consumer.repo st_books_truncated).2
   = Raise (BadZipFile "calibrebackups/books_library_2024-05-01_10-00-00.zip")
   ∧ Restore.status_of st_books_truncated "manga" = Restore.Pending "m2"
   ∧ ¬ spec_run_completes (Restore.main Consumer.repo) st_books_truncated
   ∧ ¬ spec_consumer_attempts (Restore.LIBRARIES Consumer.repo) st_books_truncated)
  ∧ ((Backup.main st_books_dangling).2 = Raise (FileNotFoundError "gone.tmp")
     ∧ Backup.is_library_dir st_books_dangling Producer.manga = true
     ∧ ¬ spec_run_completes Backup.main st_books_dangling
     ∧ ¬ spec_producer_attempts Backup.LIBRARIES st_books_dangling).
Proof.
  split.
  - split; [vm_compute; reflexivity|]. split; [vm_compute; reflexivity|]. split.
    + intros H. vm_compute in H. discriminate H.
    + intros H. specialize (H ("manga", Consumer.manga_dir)).
      revert H. by_computation.
  - split; [vm_compute; reflexivity|]. split; [vm_compute; reflexivity|]. split.
    + intros H. vm_compute in H. discriminate H.
    + intros H. specialize (H ("manga", Producer.manga)).
      assert (("manga", Producer.manga) ∈ Backup.LIBRARIES) as Hin by by_computation.
      specialize (H Hin). vm_compute in H. discriminate H.
Qed.

End Batch.

(** * The producer: pruning (claim C5) *)
Module Prune.
Import Exec ExecFacts Backup PyFacts FingerprintFacts BackupFacts PruneFacts NameFacts.
Local Open Scope exec_scope.

(** [l] is cut into what is deleted and what is kept: [K] names are kept
    (all of them when there are at most [K]), and every deleted name is
    strictly below every kept one. *)
Definition keeps_newest (K : nat) (l : list string) : Prop :=
  l = doomed K l ++ kept K l
  ∧ length (kept K l) = Nat.min K (length l)
  ∧ (length l ≤ K → doomed K l = [])
  ∧ ∀ x y, x ∈ doomed K l → y ∈ kept K l → String.le x y ∧ x ≠ y.

Lemma sorted_keeps_newest K l :
  StronglySorted String.le l → NoDup l → keeps_newest K l.
Proof.
  intros Hs Hnd. split; [by rewrite doomed_kept|]. split; [apply length_kept|].
  split; [apply doomed_nil|]. intros x y. by apply doomed_older.
Qed.

(** ** A sample backup directory *)

Definition at_time (mo d h : N) : datetime :=
  {| year := 2024; month := mo; day := d; hour := h; minute := 30; second := 0 |}.

Definition sample_dir : gmap string content :=
  list_to_map
    [ ("books_library_state.txt", Text "f3");
      (recent_name "books" (at_time 4 30 23), Archive []);
      (recent_name "books" (at_time 5 2 9), Archive []);
      (recent_name "books" (at_time 5 1 12), Archive []);
      (monthly_name "books" (at_time 4 30 23), Archive []);
      (monthly_name "books" (at_time 5 1 12), Archive []);
      (recent_name "manga" (at_time 1 1 1), Archive []);
      ("notes.zip", Text "not an archive of the script") ].

Definition st_sample : state :=
  {| backup_dir := Some sample_dir; libraries := ∅;
     clock := λ _, at_time 5 2 9; ticks := 0; localtime := gmtime; log := [] |}.

(** ** Theorem *)

(** C5.  [prune_backups_for_prefix p], in a backup directory [d]:
    - looks at the files of [d] whose name ends in [.zip] (in any case)
      and starts with [p_library_], and puts those whose name contains
      [_monthly] in one partition and the others in the other; the
      archives and the snapshots the script creates for [p] fall in the
      right partition;
    - sorts each partition by name, which for the names the script gives
      is the order of the dates they encode;
    - deletes, of each partition, all but the last [MAX_RECENT_BACKUPS]
      (respectively [MAX_MONTHLY_SNAPSHOTS]) names, so every deleted
      artifact is strictly older than every kept one, and nothing when
      the partition has at most that many; no other file is touched;
    - leaves a directory whose partitions are exactly what was kept,
      hence with at most [MAX_RECENT_BACKUPS] and
      [MAX_MONTHLY_SNAPSHOTS] artifacts. *)
Theorem prune_keeps_newest (p : string) (st : state) (d : gmap string content) :
  backup_dir st = Some d →
  let recent := recent_of p d in
  let monthly := monthly_of p d in
  let gone := doomed MAX_RECENT_BACKUPS recent ++ doomed MAX_MONTHLY_SNAPSHOTS monthly in
  let st' := (prune_backups_for_prefix p st).1 in
  ((∀ n, n ∈ recent ↔ is_monthly n = false ∧ is_backup_of p n = true ∧ is_Some (d !! n))
   ∧ (∀ n, n ∈ monthly ↔ is_monthly n = true ∧ is_backup_of p n = true ∧ is_Some (d !! n))
   ∧ (∀ t, is_backup_of p (recent_name p t) = true
           ∧ (is_monthly p = false → is_monthly (recent_name p t) = false))
   ∧ (∀ t, is_backup_of p (monthly_name p t) = true
           ∧ is_monthly (monthly_name p t) = true))
  ∧ (StronglySorted String.le recent
     ∧ StronglySorted String.le monthly
     ∧ (∀ t1 t2, valid t1 → valid t2 →
          (String.le (recent_name p t1) (recent_name p t2) ↔ datetime_compare t1 t2 ≠ Gt))
     ∧ (∀ t1 t2, valid t1 → valid t2 →
          (String.le (monthly_name p t1) (monthly_name p t2) ↔ month_compare t1 t2 ≠ Gt)))
  ∧ ((prune_backups_for_prefix p st).2 = Ok tt
     ∧ backup_dir st' = Some (filter (λ kv, kv.1 ∉ gone) d)
     ∧ libraries st' = libraries st
     ∧ trace_of (prune_backups_for_prefix p) st
       = remove_lines (MsgDeletingOldBackup p) (doomed MAX_RECENT_BACKUPS recent)
         ++ remove_lines (MsgDeletingOldMonthly p) (doomed MAX_MONTHLY_SNAPSHOTS monthly)
     ∧ keeps_newest MAX_RECENT_BACKUPS recent
     ∧ keeps_newest MAX_MONTHLY_SNAPSHOTS monthly)
  ∧ (recent_of p (files st') = kept MAX_RECENT_BACKUPS recent
     ∧ monthly_of p (files st') = kept MAX_MONTHLY_SNAPSHOTS monthly
     ∧ length (recent_of p (files st')) ≤ MAX_RECENT_BACKUPS
     ∧ length (monthly_of p (files st')) ≤ MAX_MONTHLY_SNAPSHOTS).
Proof.
  intros Hd recent monthly gone st'.
  assert (backup_dir st' = Some (pruned p d)) as Hst' by by apply prune_files.
  split; [|split; [|split]].
  - split; [apply elem_of_recent|]. split; [apply elem_of_monthly|]. split.
    + intros t. split; [apply recent_name_is_backup|apply recent_name_not_monthly].
    + intros t. split; [apply monthly_name_is_backup|apply monthly_name_is_monthly].
  - split; [apply sort_sorted|]. split; [apply sort_sorted|]. split.
    + intros t1 t2 H1 H2. by rewrite le_compare, recent_name_compare.
    + intros t1 t2 H1 H2. by rewrite le_compare, monthly_name_compare.
  - split; [by rewrite (prune_eq p st d Hd)|]. split; [exact Hst'|]. split; [|split].
    + subst st'. by rewrite (prune_eq p st d Hd).
    + unfold trace_of. rewrite (prune_eq p st d Hd). cbn.
      by rewrite <- app_assoc, drop_app_length.
    + split; apply sorted_keeps_newest.
      * apply sort_sorted.
      * apply NoDup_recent.
      * apply sort_sorted.
      * apply NoDup_monthly.
  - unfold files. rewrite Hst'. cbn [from_option id].
    rewrite recent_pruned, monthly_pruned, !length_kept.
    split; [done|]. split; [done|]. split; lia.
Qed.

Lemma prune_keeps_newest_witness :
  backup_dir (prune_backups_for_prefix "books" st_sample).1
  = Some (list_to_map
            [ ("books_library_state.txt", Text "f3");
              (recent_name "books" (at_time 5 2 9), Archive []);
              (monthly_name "books" (at_time 4 30 23), Archive []);
              (monthly_name "books" (at_time 5 1 12), Archive []);
              (recent_name "manga" (at_time 1 1 1), Archive []);
              ("notes.zip", Text "not an archive of the script") ])
  ∧ recent_of "books" (files (prune_backups_for_prefix "books" st_sample).1)
    = [recent_name "books" (at_time 5 2 9)].
Proof.
  destruct (prune_keeps_newest "books" st_sample sample_dir eq_refl)
    as (_ & _ & (_ & H1 & _) & (H2 & _)).
  split.
  - rewrite H1. vm_compute. reflexivity.
  - rewrite H2. vm_compute. reflexivity.
Defined.

End Prune.

(** * The producer: the monthly snapshot (claim C6) *)
Module Monthly.
Import Exec ExecFacts Backup PyFacts BackupFacts PruneFacts NameFacts MonthlyFacts.
Local Open Scope exec_scope.

(** ** A sample machine *)


(** ** Theorem *)



(** ** The month's snapshot among snapshots named for later months *)

(** The snapshots of the twelve months of 2025 are in the backup
    directory, and the clock of the machine is in May 2024: each reading
    is a day later than the one before. *)
Definition snapshots_of_2025 : gmap string content :=
  list_to_map
    (map (λ mo, (monthly_name "books" {| year := 2025; month := mo; day := 1;
                                          hour := 0; minute := 0; second := 0 |},
                 Archive []))
         [1; 2; 3; 4; 5; 6; 7; 8; 9; 10; 11; 12]%N).

Definition st_clock_behind : state :=
  {| backup_dir := Some snapshots_of_2025;
     libraries := {[ Producer.books := Producer.shelf ]};
     clock := λ n, Prune.at_time 5 (2 + N.of_nat n) 9; ticks := 0;
     localtime := gmtime; log := [] |}.

(** The library a few days later: a book has been added. *)
Definition shelf_later : entry :=
  Dir [ ("metadata.db", File (Some {| st_size := 8192; st_mtime_num := 1714903200;
                                      st_mtime_den := 1 |}));
        ("Author", Dir [ ("book.epub", File (Some {| st_size := 70000;
                                                     st_mtime_num := 3429115201;
                                                     st_mtime_den := 2 |}));
                         ("sequel.epub", File (Some {| st_size := 81000;
                                                       st_mtime_num := 1714903100;
                                                       st_mtime_den := 1 |})) ]) ].

(** The machine as a run left it, with the library as it is at the next
    run. *)
Definition next_run (s : state) (library : entry) : state :=
  {| backup_dir := backup_dir s; libraries := {[ Producer.books := library ]};
     clock := clock s; ticks := ticks s; localtime := localtime s; log := [] |}.

Definition copies_to (m : string) (e : event) : bool :=
  match e with
  | Copied _ dst => String.eqb dst m
  | _ => false
  end.

(** C6.  Two runs of the producer in May 2024, in a backup directory
    that holds twelve snapshots of the books library named for later
    months.  Each run completes and copies its new archive to the
    snapshot of May 2024, which [prune_backups_for_prefix] deletes in the
    same turn, as the oldest of thirteen: the snapshot of the month is
    created by both runs and is in the directory after neither. *)
Theorem monthly_snapshot_created_twice :
  let m := "books_library_2024-05_monthly.zip" in
  let s1 := (main st_clock_behind).1 in
  let s2 := (main (next_run s1 shelf_later)).1 in
  (main st_clock_behind).2 = Ok tt
  ∧ filter (λ e, copies_to m e) (trace_of main st_clock_behind)
    = [Copied "books_library_2024-05-02_09-30-00.zip" m]
  ∧ Removed m ∈ trace_of main st_clock_behind
  ∧ files s1 !! m = None
  ∧ (main (next_run s1 shelf_later)).2 = Ok tt
  ∧ filter (λ e, copies_to m e) (trace_of main (next_run s1 shelf_later))
    = [Copied "books_library_2024-05-04_09-30-00.zip" m]
  ∧ Removed m ∈ trace_of main (next_run s1 shelf_later)
  ∧ files s2 !! m = None.
Proof.
  cbv zeta.
  split; [vm_compute; reflexivity|]. split; [vm_compute; reflexivity|].
  split; [apply (bool_decide_unpack _); vm_compute; exact I|].
  split; [vm_compute; reflexivity|]. split; [vm_compute; reflexivity|].
  split; [vm_compute; reflexivity|].
  split; [apply (bool_decide_unpack _); vm_compute; exact I|].
  vm_compute. reflexivity.
Qed.

End Monthly.

(** * The resolution of paths *)
Module WalkFacts.
Import Exec ExecFacts Restore RestoreFacts RestoreMain.
Local Open Scope exec_scope.

#[global] Instance node_eq_dec : EqDecision node.
Proof. solve_decision. Defined.

(** [k] is an entry of the directory at [d], or lies below one. *)
Definition below (d k : path) : Prop := ∃ n, (d ++ [n]) `prefix_of` k.

Lemma below_prefix d k : below d k → d `prefix_of` k.
Proof. intros [n H]. etrans; [|exact H]. by apply prefix_app_r. Qed.

Lemma below_length d k : below d k → length d < length k.
Proof. intros [n H]. apply prefix_length in H. rewrite length_app in H. cbn in H. lia. Qed.

Lemma below_entry d n : below d (d ++ [n]).
Proof. by exists n. Qed.

Lemma below_app d k r : below d k → below d (k ++ r).
Proof. intros [n H]. exists n. etrans; [exact H|]. by apply prefix_app_r. Qed.

Lemma below_snoc d k n : d `prefix_of` k → below d (k ++ [n]).
Proof.
  intros [r ->]. destruct r as [|x r].
  - rewrite app_nil_r. apply below_entry.
  - exists x. exists (r ++ [n]). by rewrite <- !app_assoc.
Qed.

Lemma not_below_self d : ¬ below d d.
Proof. intros H. apply below_length in H. lia. Qed.

Lemma below_trans d c k : below d c → c `prefix_of` k → below d k.
Proof. intros [n H] Hc. exists n. by etrans. Qed.

Lemma below_iff d k : below d k ↔ d `prefix_of` k ∧ length d < length k.
Proof.
  split.
  - intros H. split; [by apply below_prefix|by apply below_length].
  - intros [[r ->] Hl]. destruct r as [|n r].
    + rewrite app_nil_r in Hl. lia.
    + exists n, r. by rewrite <- app_assoc.
Qed.

#[global] Instance below_dec d k : Decision (below d k).
Proof.
  refine (cast_if (decide (d `prefix_of` k ∧ length d < length k))); by rewrite below_iff.
Defined.

(** *** One step of the resolution *)

Lemma walk_unfold fuel f follow cur rest :
  walk fuel f follow cur rest
  = match rest with
    | [] => inl cur
    | n :: rest' =>
        match f !! (cur ++ [n]) with
        | Some (NLink t) =>
            if negb follow && is_last rest'
            then inl (cur ++ [n])
            else match fuel with
                 | O => inr ELOOP
                 | S fuel' => walk fuel' f follow [] (t ++ rest')
                 end
        | Some NDir => walk fuel f follow (cur ++ [n]) rest'
        | Some (NFile _) => if is_last rest' then inl (cur ++ [n]) else inr ENOTDIR
        | None => if is_last rest' then inl (cur ++ [n]) else inr ENOENT
        end
    end.
Proof. destruct fuel, rest; reflexivity. Qed.

Lemma node_at_snoc f c n : node_at f (c ++ [n]) = f !! (c ++ [n]).
Proof. by destruct c. Qed.

Lemma node_at_lookup f k x : f !! k = Some x → k ≠ [] → node_at f k = Some x.
Proof. by destruct k. Qed.

Lemma is_last_snoc (r : path) n : is_last (r ++ [n]) = false.
Proof. by destruct r. Qed.

(** The induction the lemmas below use: on the number of links that may
    be followed, then on the components. *)
Lemma walk_ind (P : nat → path → path → Prop) :
  (∀ fuel cur, P fuel cur []) →
  (∀ fuel cur n rest,
     (∀ fuel' rest', fuel' < fuel → P fuel' [] rest') →
     P fuel (cur ++ [n]) rest →
     P fuel cur (n :: rest)) →
  ∀ fuel cur rest, P fuel cur rest.
Proof.
  intros Hnil Hcons fuel. induction fuel as [fuel IHf] using (well_founded_induction lt_wf).
  intros cur rest. revert cur. induction rest as [|n rest IHr]; intros cur.
  - apply Hnil.
  - apply Hcons; [|apply IHr]. intros fuel' rest' Hlt. by apply IHf.
Qed.

(** *** Where a resolution ends *)

(** The place found is in a directory that is there. *)
Lemma walk_parent f follow fuel cur rest k :
  node_at f cur = Some NDir →
  walk fuel f follow cur rest = inl k →
  (rest = [] ∧ k = cur) ∨ (k ≠ [] ∧ node_at f (removelast k) = Some NDir) ∨ k = [].
Proof.
  revert k. pattern fuel, cur, rest. apply walk_ind; clear fuel cur rest.
  - intros fuel cur k _ H. rewrite walk_unfold in H. left. by injection H as <-.
  - intros fuel cur n rest IHf IHr k Hcur H. rewrite walk_unfold in H.
    assert (cur ++ [n] ≠ []) as Hne by (by destruct cur).
    assert (inl (B:=errno) (cur ++ [n]) = inl k →
            (n :: rest = [] ∧ k = cur)
            ∨ (k ≠ [] ∧ node_at f (removelast k) = Some NDir) ∨ k = []) as Hhere.
    { intros [= <-]. right. left. split; [done|]. by rewrite removelast_last. }
    destruct (f !! (cur ++ [n])) as [[z| |t]|] eqn:E.
    + destruct (is_last rest); [by apply Hhere|done].
    + destruct (IHr k) as [[-> ->]|[H'|H']]; [by apply node_at_lookup|done| | |].
      * right. left. split; [done|]. by rewrite removelast_last.
      * by right; left.
      * by right; right.
    + destruct (negb follow && is_last rest); [by apply Hhere|].
      destruct fuel as [|fuel']; [done|].
      destruct (IHf fuel' (t ++ rest) ltac:(lia) k eq_refl H) as [[_ ->]|[H'|H']].
      * by right; right.
      * by right; left.
      * by right; right.
    + destruct (is_last rest); [by apply Hhere|done].
Qed.

(** A resolution that ends at a node also ends there in a larger file
    system. *)
Lemma walk_mono f g follow fuel cur rest k :
  f ⊆ g →
  walk fuel f follow cur rest = inl k →
  is_Some (node_at f k) →
  walk fuel g follow cur rest = inl k.
Proof.
  intros Hfg. revert k. pattern fuel, cur, rest. apply walk_ind; clear fuel cur rest.
  - intros fuel cur k H _. by rewrite walk_unfold in H |- *.
  - intros fuel cur n rest IHf IHr k H Hk. rewrite walk_unfold in H. rewrite walk_unfold.
    destruct (f !! (cur ++ [n])) as [x|] eqn:E.
    + rewrite (lookup_weaken _ _ _ _ E Hfg). destruct x as [z| |t].
      * done.
      * by apply IHr.
      * destruct (negb follow && is_last rest); [done|].
        destruct fuel as [|fuel']; [done|]. apply IHf; [lia|done|done].
    + destruct (is_last rest); [|done]. injection H as <-.
      rewrite node_at_snoc, E in Hk. by destruct Hk.
Qed.

(** What [lstat] finds for an entry of [d] is the entry of that name of
    the directory that [d] names. *)
Lemma walk_entry f fuel cur rest n k :
  walk fuel f false cur (rest ++ [n]) = inl k →
  node_at f cur = Some NDir →
  ∃ P, walk fuel f true cur rest = inl P ∧ node_at f P = Some NDir ∧ k = P ++ [n].
Proof.
  revert k. pattern fuel, cur, rest. apply walk_ind; clear fuel cur rest.
  - intros fuel cur k H Hcur. exists cur. rewrite walk_unfold. split; [done|].
    split; [done|]. cbn [app] in H. rewrite walk_unfold in H. cbn [is_last negb andb] in H.
    destruct (f !! (cur ++ [n])) as [[z| |t]|]; try by injection H.
    rewrite walk_unfold in H. by injection H.
  - intros fuel cur m rest IHf IHr k H Hcur. cbn [app] in H.
    rewrite walk_unfold in H. rewrite walk_unfold. rewrite is_last_snoc in H.
    rewrite andb_false_r in H.
    destruct (f !! (cur ++ [m])) as [[z| |t]|] eqn:E; try done.
    + apply IHr; [done|]. by apply node_at_lookup; [|destruct cur].
    + cbn [negb andb]. destruct fuel as [|fuel']; [done|].
      rewrite app_assoc in H. by apply IHf; [lia|..].
Qed.

Lemma walk_entry_of f fuel cur rest n P :
  walk fuel f true cur rest = inl P →
  node_at f P = Some NDir →
  walk fuel f false cur (rest ++ [n]) = inl (P ++ [n]).
Proof.
  revert P. pattern fuel, cur, rest. apply walk_ind; clear fuel cur rest.
  - intros fuel cur P H _. rewrite walk_unfold in H. injection H as <-. cbn [app].
    rewrite walk_unfold. cbn [is_last negb andb].
    destruct (f !! (cur ++ [n])) as [[z| |t]|]; try done. by rewrite walk_unfold.
  - intros fuel cur m rest IHf IHr P H HP. cbn [app]. rewrite walk_unfold in H.
    rewrite walk_unfold, is_last_snoc, andb_false_r.
    assert (cur ++ [m] ≠ []) as Hne by (by destruct cur).
    destruct (f !! (cur ++ [m])) as [[z| |t]|] eqn:E.
    + destruct (is_last rest); [|done]. injection H as <-.
      rewrite (node_at_lookup _ _ _ E Hne) in HP. done.
    + by apply IHr.
    + cbn [negb andb] in H. destruct fuel as [|fuel']; [done|].
      rewrite app_assoc. by apply IHf; [lia|..].
    + destruct (is_last rest); [|done]. injection H as <-.
      rewrite node_at_snoc, E in HP. done.
Qed.

(** A path whose resolution ends at a node that is not a link resolves
    to it with [stat] as with [lstat]. *)
Lemma walk_follow f fuel cur rest k :
  walk fuel f false cur rest = inl k →
  (∀ t, f !! k ≠ Some (NLink t)) →
  walk fuel f true cur rest = inl k.
Proof.
  revert k. pattern fuel, cur, rest. apply walk_ind; clear fuel cur rest.
  - intros fuel cur k H _. by rewrite walk_unfold in H |- *.
  - intros fuel cur n rest IHf IHr k H Hk. rewrite walk_unfold in H. rewrite walk_unfold.
    destruct (f !! (cur ++ [n])) as [[z| |t]|] eqn:E; try done.
    + by apply IHr.
    + cbn [negb andb] in H |- *. destruct (is_last rest).
      * injection H as <-. by destruct (Hk t).
      * destruct fuel as [|fuel']; [done|]. by apply IHf; [lia|..].
Qed.

(** *** Resolution in a file system that has changed at one place *)

(** A resolution that ends at [k], where nothing is, ends there as well
    once a directory or a file is at [k]. *)
Lemma walk_insert f x follow fuel cur rest k :
  walk fuel f follow cur rest = inl k →
  f !! k = None →
  (∀ t, x ≠ NLink t) →
  walk fuel (<[k := x]> f) follow cur rest = inl k.
Proof.
  intros H Hk Hx. revert H. pattern fuel, cur, rest. apply walk_ind; clear fuel cur rest.
  - intros fuel cur H. by rewrite walk_unfold in H |- *.
  - intros fuel cur n rest IHf IHr H. rewrite walk_unfold in H. rewrite walk_unfold.
    destruct (decide (cur ++ [n] = k)) as [Heq|Hne].
    + rewrite Heq, Hk in H. rewrite Heq, lookup_insert_eq.
      destruct (is_last rest) eqn:Hl; [|done].
      destruct rest; [|done]. destruct x as [z| |t]; [done| |by destruct (Hx t)].
      by rewrite walk_unfold.
    + rewrite lookup_insert_ne by done.
      destruct (f !! (cur ++ [n])) as [[z| |t]|] eqn:E; try done.
      * by apply IHr.
      * destruct (negb follow && is_last rest); [done|].
        destruct fuel as [|fuel']; [done|]. by apply IHf; [lia|].
Qed.

End WalkFacts.

(** * [clear_directory] on the resolved destination *)
Module ClearDirectory.
Import Exec ExecFacts Restore RestoreFacts RestoreMain WalkFacts.
Local Open Scope exec_scope.

Lemma bind_returns {S A B} (m : M S A) (k : A → M S B) st s b :
  bind m k st = (s, Ok b) → ∃ s1 a, m st = (s1, Ok a) ∧ k a s1 = (s, Ok b).
Proof. unfold bind. destruct (m st) as [s1 [a|e]]; [|done]. intros H. by exists s1, a. Qed.

(** The directory that the path [d] names: where [os.stat(d)] ends, when
    a directory is there. *)
Definition dest (f : gmap path node) (d : path) : option path :=
  match fs_stat f true d with
  | inl (k, NDir) => Some k
  | _ => None
  end.

Lemma node_at_mono f g k x : f ⊆ g → node_at f k = Some x → node_at g k = Some x.
Proof. intros H. destruct k; [done|]. simpl. intros E. by eapply lookup_weaken. Qed.

Lemma fs_stat_mono f g follow p k x :
  f ⊆ g → fs_stat f follow p = inl (k, x) → fs_stat g follow p = inl (k, x).
Proof.
  intros H. unfold fs_stat, locate. destruct (walk _ f _ _ _) as [k'|e] eqn:E; [|done].
  destruct (node_at f k') as [x'|] eqn:N; [|done]. intros [= <- <-].
  rewrite (walk_mono f g _ _ _ _ _ H E) by (by rewrite N).
  by rewrite (node_at_mono _ _ _ _ H N).
Qed.

Lemma dest_stat f d D : dest f d = Some D ↔ fs_stat f true d = inl (D, NDir).
Proof.
  unfold dest. destruct (fs_stat f true d) as [[k [| |]]|]; split; try done; congruence.
Qed.

Lemma dest_mono f g d D : f ⊆ g → dest f d = Some D → dest g d = Some D.
Proof. intros H. rewrite !dest_stat. by apply fs_stat_mono. Qed.

Lemma fs_stat_node f follow p k x : fs_stat f follow p = inl (k, x) → node_at f k = Some x.
Proof.
  unfold fs_stat. destruct (locate f follow p) as [k'|]; [|done].
  destruct (node_at f k') eqn:N; [|done]. by intros [= <- <-].
Qed.

Lemma fs_stat_locate f follow p k x : fs_stat f follow p = inl (k, x) → locate f follow p = inl k.
Proof.
  unfold fs_stat. destruct (locate f follow p) as [k'|]; [|done].
  destruct (node_at f k') eqn:N; [|done]. by intros [= <- <-].
Qed.

Lemma fs_stat_of f follow p k x :
  locate f follow p = inl k → node_at f k = Some x → fs_stat f follow p = inl (k, x).
Proof. intros E N. unfold fs_stat. by rewrite E, N. Qed.

Lemma dest_node f d D : dest f d = Some D → node_at f D = Some NDir.
Proof. rewrite dest_stat. apply fs_stat_node. Qed.

Lemma dest_locate f d D : dest f d = Some D → locate f true d = inl D.
Proof. rewrite dest_stat. apply fs_stat_locate. Qed.

Lemma isdir_dest f d : fs_isdir f d = true ↔ is_Some (dest f d).
Proof.
  unfold fs_isdir, dest.
  destruct (fs_stat f true d) as [[k [| |]]|]; split; intros H;
    first [done | by destruct H | by eexists].
Qed.

(** [lstat] of an entry of [d] *)
Lemma lstat_entry f d n k x :
  fs_stat f false (d ++ [n]) = inl (k, x) →
  ∃ D, dest f d = Some D ∧ k = D ++ [n] ∧ f !! (D ++ [n]) = Some x.
Proof.
  intros H. pose proof (fs_stat_locate _ _ _ _ _ H) as E.
  pose proof (fs_stat_node _ _ _ _ _ H) as N.
  destruct (walk_entry _ _ _ _ _ _ E eq_refl) as (P & HP & HN & ->).
  exists P. split; [|split; [done|]].
  - apply dest_stat. by apply fs_stat_of.
  - by rewrite node_at_snoc in N.
Qed.

Lemma lstat_entry_of f d n D x :
  dest f d = Some D → f !! (D ++ [n]) = Some x →
  fs_stat f false (d ++ [n]) = inl (D ++ [n], x).
Proof.
  intros HD Hx. apply fs_stat_of; [|by rewrite node_at_snoc].
  pose proof (dest_locate _ _ _ HD) as E. pose proof (dest_node _ _ _ HD) as N.
  exact (walk_entry_of f MAXSYMLINKS [] d n D E N).
Qed.

(** *** The calls, as functions of the state *)

Lemma os_mkdir_eq p st :
  os_mkdir p st
  = match locate (fs st) false p with
    | inr e => (st, Raise (os_error e p))
    | inl k =>
        match node_at (fs st) k with
        | Some _ => (st, Raise (FileExistsError (path_str p)))
        | None => ({| backup_dir := backup_dir st; fs := <[k := NDir]> (fs st);
                      log := log st ++ [MadeDir p] |}, Ok tt)
        end
    end.
Proof.
  unfold os_mkdir, bind, get. cbv beta iota.
  destruct (locate (fs st) false p); [|reflexivity]. by destruct (node_at (fs st) _).
Qed.

Lemma rmtree_eq p st :
  rmtree p st
  = match fs_stat (fs st) false p with
    | inl (k, NDir) =>
        ({| backup_dir := backup_dir st;
            fs := filter (λ kv, ¬ k `prefix_of` kv.1) (fs st);
            log := log st ++ [RemovedTree p] |}, Ok tt)
    | inl (_, NLink _) =>
        (st, Raise (if fs_exists (fs st) p
                    then OSError "Cannot call rmtree on a symbolic link"
                    else FileNotFoundError (path_str p)))
    | inl (_, NFile _) => (st, Raise (NotADirectoryError (path_str p)))
    | inr e => (st, Raise (os_error e p))
    end.
Proof.
  unfold rmtree, bind, get. cbv beta iota. by destruct (fs_stat (fs st) false p) as [[k [| |]]|].
Qed.

Lemma os_remove_eq p st :
  os_remove p st
  = match fs_stat (fs st) false p with
    | inl (_, NDir) => (st, Raise (IsADirectoryError (path_str p)))
    | inl (k, _) =>
        ({| backup_dir := backup_dir st; fs := delete k (fs st);
            log := log st ++ [Unlinked p] |}, Ok tt)
    | inr e => (st, Raise (os_error e p))
    end.
Proof.
  unfold os_remove, bind, get. cbv beta iota. by destruct (fs_stat (fs st) false p) as [[k [| |]]|].
Qed.

Lemma fs_listdir_eq d st :
  fs_listdir d st
  = match fs_stat (fs st) true d with
    | inl (k, NDir) => (st, Ok (omap (λ kv : path * node, entry_name k kv.1)
                                     (map_to_list (fs st))))
    | inl _ => (st, Raise (NotADirectoryError (path_str d)))
    | inr e => (st, Raise (os_error e d))
    end.
Proof.
  unfold fs_listdir, bind, get. cbv beta iota. by destruct (fs_stat (fs st) true d) as [[k [| |]]|].
Qed.

(** *** [os.makedirs] only adds directories *)

(** Every node stays; a node that is new is a directory, in a directory. *)
Definition adds_dirs (st st' : state) : Prop :=
  fs st ⊆ fs st'
  ∧ ∀ k x, fs st' !! k = Some x → fs st !! k = None →
      x = NDir ∧ node_at (fs st') (removelast k) = Some NDir.

#[global] Instance adds_dirs_preorder : PreOrder adds_dirs.
Proof.
  split.
  - intros st. split; [done|]. intros k x H1 H2. congruence.
  - intros s1 s2 s3 [A1 B1] [A2 B2]. split; [by etrans|]. intros k x H3 H1.
    destruct (fs s2 !! k) as [y|] eqn:E2.
    + pose proof (lookup_weaken _ _ _ _ E2 A2) as E3.
      assert (y = x) as -> by congruence.
      destruct (B1 k x E2 H1) as [-> HP]. split; [done|]. by eapply node_at_mono.
    + by apply B2.
Qed.

Lemma adds_same_fs st st' : fs st' = fs st → adds_dirs st st'.
Proof. intros E. split; rewrite E; [done|]. intros k x H1 H2. congruence. Qed.

Lemma adds_os_mkdir p : steps adds_dirs (os_mkdir p).
Proof.
  intros st. rewrite os_mkdir_eq. destruct (locate (fs st) false p) as [k|] eqn:E;
    [|reflexivity].
  destruct (node_at (fs st) k) eqn:N; [reflexivity|]. cbn.
  assert (k ≠ []) as Hk by (by intros ->).
  assert (fs st !! k = None) as Hn by (by destruct k).
  split; cbn.
  - by apply insert_subseteq.
  - intros k' x H1 H2. destruct (decide (k' = k)) as [->|Hne].
    + rewrite lookup_insert_eq in H1. injection H1 as <-. split; [done|].
      destruct (walk_parent (fs st) false MAXSYMLINKS [] p k eq_refl E) as [[_ Hk0]|[[_ HP]|Hk0]]; try done.
      eapply node_at_mono; [|exact HP]. by apply insert_subseteq.
    + rewrite lookup_insert_ne in H1 by done. congruence.
Qed.

Ltac adds_leaf := first [ by apply adds_same_fs | reflexivity ].
Ltac adds_tac := repeat (steps_step adds_leaf).

Lemma adds_mkdir_leaf b p : steps adds_dirs (mkdir_leaf b p).
Proof. unfold mkdir_leaf. steps_step adds_leaf; [apply adds_os_mkdir|]. adds_tac. Qed.

Lemma adds_makedirs_split b name : steps adds_dirs (makedirs_split b name).
Proof.
  induction name as [|tail head IH]; cbn [makedirs_split]; [apply adds_mkdir_leaf|].
  steps_step adds_leaf; [adds_tac|]. steps_step adds_leaf; [|apply adds_mkdir_leaf].
  steps_step adds_leaf; [adds_tac|]. steps_step adds_leaf; [exact IH|adds_tac].
Qed.

Lemma adds_makedirs b p : steps adds_dirs (makedirs b p).
Proof. apply adds_makedirs_split. Qed.

(** The directories that [os.makedirs(d)] makes are [d] and directories
    above it. *)
Definition made_event (d : path) (e : event) : Prop :=
  ∃ q, e = MadeDir q ∧ q `prefix_of` d.

Lemma made_os_mkdir d p : p `prefix_of` d → emits (made_event d) (os_mkdir p).
Proof.
  intros Hp st. rewrite os_mkdir_eq. destruct (locate (fs st) false p); [|reflexivity].
  destruct (node_at (fs st) _); [reflexivity|]. apply extends_emit. by exists p.
Qed.

Ltac made_leaf := first [ by apply extends_same_log | reflexivity ].
Ltac made_tac := repeat (steps_step made_leaf).

Lemma made_mkdir_leaf d b p : p `prefix_of` d → emits (made_event d) (mkdir_leaf b p).
Proof.
  intros Hp. unfold mkdir_leaf. steps_step made_leaf; [by apply made_os_mkdir|]. made_tac.
Qed.

Lemma made_makedirs_split b name : emits (made_event (rev name)) (makedirs_split b name).
Proof.
  induction name as [|tail head IH]; cbn [makedirs_split]; [by apply made_mkdir_leaf|].
  cbn [rev]. steps_step made_leaf; [made_tac|].
  steps_step made_leaf; [|by apply made_mkdir_leaf].
  steps_step made_leaf; [made_tac|]. steps_step made_leaf; [|made_tac].
  eapply emits_mono; [|exact IH]. intros e (q & -> & Hq). exists q. split; [done|].
  by apply prefix_app_r.
Qed.

Lemma made_makedirs b d : emits (made_event d) (makedirs b d).
Proof.
  unfold makedirs. pose proof (made_makedirs_split b (rev d)) as H.
  by rewrite rev_involutive in H.
Qed.

(** When [os.makedirs(d, exist_ok=True)] returns, [d] names a directory. *)
Lemma mkdir_leaf_ok p st s : mkdir_leaf true p st = (s, Ok tt) → is_Some (dest (fs s) p).
Proof.
  unfold mkdir_leaf, try_except. rewrite os_mkdir_eq.
  assert (∀ e, (st0 <- get;; if true && fs_isdir (fs st0) p then ret tt else raise e) st
               = (s, Ok tt) → is_Some (dest (fs s) p)) as Hhandler.
  { intros e. unfold bind, get. cbn. destruct (fs_isdir (fs st) p) eqn:E; [|done].
    intros [= <-]. by apply isdir_dest. }
  destruct (locate (fs st) false p) as [k|] eqn:E; [|by apply Hhandler].
  destruct (node_at (fs st) k) eqn:N; [by apply Hhandler|].
  intros [= <-]. cbn.
  assert (k ≠ []) as Hk by (by intros ->).
  assert (fs st !! k = None) as Hn by (by destruct k).
  exists k. apply dest_stat. apply fs_stat_of.
  - apply walk_follow; [by apply walk_insert|].
    intros t. by rewrite lookup_insert_eq.
  - apply node_at_lookup; [|done]. by rewrite lookup_insert_eq.
Qed.

Lemma makedirs_ok d st s : makedirs true d st = (s, Ok tt) → is_Some (dest (fs s) d).
Proof.
  unfold makedirs. rewrite <- (rev_involutive d) at 2.
  destruct (rev d) as [|tail head]; cbn [makedirs_split rev].
  - apply mkdir_leaf_ok.
  - intros H. apply bind_returns in H as (s1 & st1 & [= <- <-] & H).
    apply bind_returns in H as (s1 & [] & _ & H). by apply mkdir_leaf_ok in H.
Qed.

(** *** The loop over the entries *)

Definition clear_body (d : path) (entry : string) : M state unit :=
  let full := d ++ [entry] in
  st <- get;;
  if fs_isdir (fs st) full && negb (fs_islink (fs st) full)
  then rmtree full
  else os_remove full.

Lemma clear_directory_eq d :
  clear_directory d
  = (makedirs true d;; entries <- fs_listdir d;; for_each entries (clear_body d)).
Proof. reflexivity. Qed.

(** What the turn of one entry leaves: nothing when it raises; else the
    entry [n] of the directory that [d] names is gone, with what is below
    it when it was a directory. *)
Definition removed_tree (d D : path) (n : string) (s : state) : state :=
  {| backup_dir := backup_dir s;
     fs := filter (λ kv, ¬ (D ++ [n]) `prefix_of` kv.1) (fs s);
     log := log s ++ [RemovedTree (d ++ [n])] |}.

Definition unlinked (d D : path) (n : string) (s : state) : state :=
  {| backup_dir := backup_dir s; fs := delete (D ++ [n]) (fs s);
     log := log s ++ [Unlinked (d ++ [n])] |}.

Lemma clear_body_cases d n s :
  (∃ e, clear_body d n s = (s, Raise e))
  ∨ (∃ D, dest (fs s) d = Some D ∧ fs s !! (D ++ [n]) = Some NDir
        ∧ clear_body d n s = (removed_tree d D n s, Ok tt))
  ∨ (∃ D x, dest (fs s) d = Some D ∧ fs s !! (D ++ [n]) = Some x ∧ x ≠ NDir
        ∧ clear_body d n s = (unlinked d D n s, Ok tt)).
Proof.
  unfold clear_body, bind, get. cbn.
  destruct (fs_isdir (fs s) (d ++ [n]) && negb (fs_islink (fs s) (d ++ [n]))).
  - rewrite rmtree_eq. destruct (fs_stat (fs s) false (d ++ [n])) as [[k x]|e] eqn:E;
      [|by left; eexists].
    destruct (lstat_entry _ _ _ _ _ E) as (D & HD & -> & Hx).
    destruct x; [by left; eexists| |by left; eexists].
    right. left. by exists D.
  - rewrite os_remove_eq. destruct (fs_stat (fs s) false (d ++ [n])) as [[k x]|e] eqn:E;
      [|by left; eexists].
    destruct (lstat_entry _ _ _ _ _ E) as (D & HD & -> & Hx).
    destruct x as [z| |t]; [|by left; eexists|]; right; right; by eexists D, _.
Qed.

(** An entry that is a symbolic link is unlinked, whatever it points to. *)
Lemma clear_body_link d D n t s :
  dest (fs s) d = Some D → fs s !! (D ++ [n]) = Some (NLink t) →
  clear_body d n s = (unlinked d D n s, Ok tt).
Proof.
  intros HD Hn. pose proof (lstat_entry_of _ _ _ _ _ HD Hn) as E.
  unfold clear_body, bind, get. cbn. unfold fs_islink. rewrite E. cbn.
  rewrite andb_false_r. by rewrite os_remove_eq, E.
Qed.

(** The events of the loop: [shutil.rmtree] for entries that are
    directories, [os.remove] for the others. *)
Definition clear_event (d D : path) (f : gmap path node) (e : event) : Prop :=
  match e with
  | RemovedTree q => ∃ n, q = d ++ [n] ∧ f !! (D ++ [n]) = Some NDir
  | Unlinked q => ∃ n x, q = d ++ [n] ∧ f !! (D ++ [n]) = Some x ∧ x ≠ NDir
  | _ => False
  end.

(** What the loop has done to the file system [f0] it started from:
    removed nodes below [D]. *)
Definition cleared (D : path) (f0 f : gmap path node) : Prop :=
  f ⊆ f0 ∧ ∀ k, f !! k ≠ f0 !! k → below D k.

Lemma cleared_refl D f : cleared D f f.
Proof. split; [done|]. intros k H. by destruct H. Qed.

Lemma cleared_filter D n f0 f :
  cleared D f0 f → cleared D f0 (filter (λ kv, ¬ (D ++ [n]) `prefix_of` kv.1) f).
Proof.
  intros [A B]. split; [etrans; [apply map_filter_subseteq|done]|].
  intros k H. destruct (decide (f !! k = f0 !! k)) as [E|]; [|by apply B].
  rewrite <- E in H. destruct (decide ((D ++ [n]) `prefix_of` k)) as [Hp|Hp]; [by exists n|].
  destruct H. destruct (f !! k) as [x|] eqn:Ek.
  - by apply map_lookup_filter_Some.
  - apply map_lookup_filter_None. by left.
Qed.

Lemma cleared_delete D n f0 f : cleared D f0 f → cleared D f0 (delete (D ++ [n]) f).
Proof.
  intros [A B]. split; [etrans; [apply delete_subseteq|done]|].
  intros k H. destruct (decide (k = D ++ [n])) as [->|Hne]; [apply below_entry|].
  rewrite lookup_delete_ne in H by done. by apply B.
Qed.

Lemma clear_loop d D f0 entries s :
  dest f0 d = Some D → cleared D f0 (fs s) →
  let r := for_each entries (clear_body d) s in
  cleared D f0 (fs r.1)
  ∧ fs r.1 ⊆ fs s
  ∧ backup_dir r.1 = backup_dir s
  ∧ (∃ tr, log r.1 = log s ++ tr ∧ Forall (clear_event d D f0) tr)
  ∧ (r.2 = Ok tt →
     ∀ n k, n ∈ entries → (D ++ [n]) `prefix_of` k →
            k = D ++ [n] ∨ f0 !! (D ++ [n]) = Some NDir → fs r.1 !! k = None).
Proof.
  intros HD. revert s. induction entries as [|e entries IH]; intros s Hs; cbn zeta.
  { cbn. split; [done|]. split; [done|]. split; [done|].
    split; [by exists []; rewrite app_nil_r|].
    intros _ n k Hn. by apply elem_of_nil in Hn. }
  cbn [for_each].
  assert (∀ s1 : state,
    cleared D f0 (fs s1) → fs s1 ⊆ fs s → backup_dir s1 = backup_dir s →
    (∃ tr, log s1 = log s ++ tr ∧ Forall (clear_event d D f0) tr) →
    (∀ k, (D ++ [e]) `prefix_of` k →
          k = D ++ [e] ∨ f0 !! (D ++ [e]) = Some NDir → fs s1 !! k = None) →
    let r := for_each entries (clear_body d) s1 in
    cleared D f0 (fs r.1) ∧ fs r.1 ⊆ fs s ∧ backup_dir r.1 = backup_dir s
    ∧ (∃ tr, log r.1 = log s ++ tr ∧ Forall (clear_event d D f0) tr)
    ∧ (r.2 = Ok tt →
       ∀ n k, n ∈ e :: entries → (D ++ [n]) `prefix_of` k →
              k = D ++ [n] ∨ f0 !! (D ++ [n]) = Some NDir → fs r.1 !! k = None)) as Hnext.
  { intros s1 Hc Hsub Hb (tr1 & L1 & F1) Hgone. cbn zeta.
    destruct (IH s1 Hc) as (C & S & B & (tr & L & F) & G).
    split; [done|]. split; [by etrans|]. split; [congruence|]. split.
    { exists (tr1 ++ tr). rewrite L, L1, app_assoc. split; [done|]. by apply Forall_app. }
    intros HR n k Hn Hp Hk. apply elem_of_cons in Hn as [->|Hn]; [|by apply (G HR n)].
    specialize (Hgone k Hp Hk).
    destruct (fs (for_each entries (clear_body d) s1).1 !! k) as [x|] eqn:Ex; [|done].
    pose proof (lookup_weaken _ _ _ _ Ex S). congruence. }
  unfold bind.
  destruct (clear_body_cases d e s)
    as [[x E]|[(D' & HD' & Hn & E)|(D' & x & HD' & Hn & Hx & E)]]; rewrite E; cbn [fst snd].
  - split; [done|]. split; [done|]. split; [done|].
    split; [by exists []; rewrite app_nil_r|]. done.
  - pose proof (dest_mono _ _ _ _ (proj1 Hs) HD') as HD0.
    assert (D' = D) as -> by congruence.
    apply Hnext.
    + by apply cleared_filter.
    + apply map_filter_subseteq.
    + done.
    + exists [RemovedTree (d ++ [e])]. split; [done|]. apply Forall_singleton.
      exists e. split; [done|]. by eapply lookup_weaken; [|apply Hs].
    + intros k Hp _. apply map_lookup_filter_None. right. intros x _ Hnp. by apply Hnp.
  - pose proof (dest_mono _ _ _ _ (proj1 Hs) HD') as HD0.
    assert (D' = D) as -> by congruence.
    pose proof (lookup_weaken _ _ _ _ Hn (proj1 Hs)) as Hn0.
    apply Hnext.
    + by apply cleared_delete.
    + apply delete_subseteq.
    + done.
    + exists [Unlinked (d ++ [e])]. split; [done|]. apply Forall_singleton.
      by exists e, x.
    + intros k Hp [->|Hk]; [apply lookup_delete_eq|]. congruence.
Qed.

End ClearDirectory.

(** * What a restore can reach *)
Module ExtractFacts.
Import Exec ExecFacts Restore RestoreFacts RestoreMain WalkFacts ClearDirectory.
Local Open Scope exec_scope.

(** A file system where every node lies in a directory: the places are
    those of a tree. *)
Definition tree_like (f : gmap path node) : Prop :=
  map_Forall (λ k _, node_at f (removelast k) = Some NDir) f.

#[global] Instance tree_like_dec f : Decision (tree_like f).
Proof. unfold tree_like. apply _. Defined.

Lemma tree_like_above f k x c :
  tree_like f → f !! k = Some x → c `prefix_of` k → c ≠ k → node_at f c = Some NDir.
Proof.
  intros Ht Hk [r ->]. revert x Hk. induction r as [|z r IH] using rev_ind; intros x Hk Hne.
  { by rewrite app_nil_r in Hne. }
  pose proof (Ht _ _ Hk) as Hp. cbn beta in Hp.
  rewrite app_assoc, removelast_last in Hp.
  destruct r as [|y r]; [by rewrite app_nil_r in Hp|].
  destruct (c ++ y :: r) as [|a l] eqn:E; [by destruct c|].
  cbn [node_at] in Hp. apply (IH _ Hp). intros Hc.
  apply (f_equal length) in Hc. rewrite <- E, length_app in Hc. cbn in Hc. lia.
Qed.

Lemma tree_like_adds st st' : adds_dirs st st' → tree_like (fs st) → tree_like (fs st').
Proof.
  intros [A B] Ht k x Hk. cbn beta. destruct (fs st !! k) as [y|] eqn:E.
  - eapply node_at_mono; [exact A|]. exact (Ht _ _ E).
  - by destruct (B k x Hk E).
Qed.

(** *** A file system that differs from [f0] below [D] only, where it
    holds no symbolic link *)
Section Region.
Context (f0 : gmap path node) (D : path).

Definition inside (f : gmap path node) : Prop :=
  (∀ c, ¬ below D c → f !! c = f0 !! c)
  ∧ (∀ c t, below D c → f !! c ≠ Some (NLink t)).

Lemma below_snoc_inv c n : below D (c ++ [n]) → D `prefix_of` c.
Proof.
  intros [m [r E]]. destruct r as [|x r _] using rev_ind.
  - rewrite app_nil_r in E. apply app_inj_tail in E as [-> _]. done.
  - rewrite !app_assoc in E. apply app_inj_tail in E as [-> _].
    rewrite <- app_assoc. by apply prefix_app_r.
Qed.

Lemma inside_node f c : inside f → ¬ below D c → node_at f c = node_at f0 c.
Proof. intros [A _] H. destruct c; [done|]. by apply A. Qed.

(** From a place in [D], resolution stays below [D]. *)
Lemma walk_stay f fuel follow cur rest k :
  inside f → D `prefix_of` cur →
  walk fuel f follow cur rest = inl k →
  (rest = [] ∧ k = cur) ∨ below D k.
Proof.
  intros [_ Hl]. revert cur. induction rest as [|n rest IH]; intros cur Hcur H;
    rewrite walk_unfold in H.
  { left. by injection H as <-. }
  right. pose proof (below_snoc D cur n Hcur) as Hb.
  destruct (f !! (cur ++ [n])) as [[z| |t]|] eqn:E.
  - destruct (is_last rest); [|done]. by injection H as <-.
  - destruct (IH (cur ++ [n])) as [[_ ->]|]; try done. by apply below_prefix.
  - by destruct (Hl _ t Hb).
  - destruct (is_last rest); [|done]. by injection H as <-.
Qed.

(** A path that goes through the path of [D]. *)
Lemma walk_region f fuel follow cur a rest k :
  inside f → node_at f0 D = Some NDir →
  walk fuel f0 true cur a = inl D →
  walk fuel f follow cur (a ++ rest) = inl k →
  rest ≠ [] ∨ follow = true →
  below D k ∨ (rest = [] ∧ k = D).
Proof.
  intros Hf HD. revert k. pattern fuel, cur, a. apply walk_ind; clear fuel cur a.
  - intros fuel cur k H0 H _. rewrite walk_unfold in H0. injection H0 as ->.
    cbn [app] in H. destruct (walk_stay _ _ _ _ _ _ Hf (reflexivity D) H); tauto.
  - intros fuel cur n a IHf IHr k H0 H Hr. cbn [app] in H.
    destruct (decide (below D (cur ++ [n]))) as [Hb|Hb].
    { apply below_snoc_inv in Hb.
      destruct (walk_stay _ _ _ _ _ _ Hf Hb H) as [[? _]|]; [done|by left]. }
    rewrite walk_unfold in H0. rewrite walk_unfold in H. rewrite (proj1 Hf _ Hb) in H.
    assert (cur ++ [n] ≠ []) as Hne by (by destruct cur).
    destruct (f0 !! (cur ++ [n])) as [[z| |t]|] eqn:E.
    + destruct (is_last a); [|done]. injection H0 as <-.
      rewrite (node_at_lookup _ _ _ E Hne) in HD. done.
    + by apply IHr.
    + cbn [negb andb] in H0. destruct fuel as [|fuel']; [done|].
      assert (negb follow && is_last (a ++ rest) = false) as Hc.
      { destruct Hr as [Hr| ->]; [|done]. apply andb_false_iff. right.
        destruct a; [by destruct rest|done]. }
      rewrite Hc in H. rewrite app_assoc in H. by apply (IHf fuel' (t ++ a)); [lia|..].
    + destruct (is_last a); [|done]. injection H0 as <-.
      rewrite node_at_snoc, E in HD. done.
  Unshelve. all: exact _.
Qed.

(** A path that the path of [D] goes through. *)
Lemma walk_region_prefix f fuel follow cur a b k :
  inside f → node_at f0 D = Some NDir →
  walk fuel f0 true cur (a ++ b) = inl D →
  below D cur ∨ is_Some (node_at f cur) →
  walk fuel f follow cur a = inl k →
  below D k ∨ is_Some (node_at f k).
Proof.
  intros Hf HD. revert k. pattern fuel, cur, a. apply walk_ind; clear fuel cur a.
  - intros fuel cur k _ Hcur H. rewrite walk_unfold in H. by injection H as <-.
  - intros fuel cur n a IHf IHr k H0 Hcur H. cbn [app] in H0.
    destruct (decide (below D (cur ++ [n]))) as [Hb|Hb].
    { apply below_snoc_inv in Hb.
      destruct (walk_stay _ _ _ _ _ _ Hf Hb H) as [[? _]|]; [done|by left]. }
    rewrite walk_unfold in H0. rewrite walk_unfold in H. rewrite (proj1 Hf _ Hb) in H.
    assert (cur ++ [n] ≠ []) as Hne by (by destruct cur).
    assert (∀ x, f0 !! (cur ++ [n]) = Some x → is_Some (node_at f (cur ++ [n]))) as Hin.
    { intros x E. rewrite node_at_snoc, (proj1 Hf _ Hb), E. by eexists. }
    destruct (f0 !! (cur ++ [n])) as [[z| |t]|] eqn:E.
    + destruct (is_last (a ++ b)); [|done]. injection H0 as <-.
      rewrite (node_at_lookup _ _ _ E Hne) in HD. done.
    + apply IHr; [done| |done]. right. by eapply Hin.
    + cbn [negb andb] in H0. destruct fuel as [|fuel']; [done|].
      destruct (negb follow && is_last a).
      * injection H as <-. right. by eapply Hin.
      * rewrite app_assoc in H0. apply (IHf fuel' (t ++ a)); [lia|done| |done].
        right. by eexists.
    + destruct (is_last (a ++ b)); [|done]. injection H0 as <-.
      rewrite node_at_snoc, E in HD. done.
Qed.

(** [p] is above the destination or below it. *)
Definition comparable (p d : path) : Prop := p `prefix_of` d ∨ d `prefix_of` p.

Lemma comparable_prefix p q d : comparable p d → q `prefix_of` p → comparable q d.
Proof.
  intros [H|H] Hq; [left; by etrans|]. destruct (prefix_weak_total q d p Hq H); [by left|by right].
Qed.

Lemma region_locate f d follow p k :
  inside f → dest f0 d = Some D → comparable p d →
  locate f follow p = inl k → below D k ∨ is_Some (node_at f k).
Proof.
  intros Hf HD Hp H. pose proof (dest_node _ _ _ HD) as HN.
  pose proof (dest_locate _ _ _ HD) as H0. unfold locate in *.
  assert (∀ b, d = p ++ b → below D k ∨ is_Some (node_at f k)) as Hpre.
  { intros b ->. eapply (walk_region_prefix f _ follow [] p b k); try done.
    right. by eexists. }
  destruct Hp as [[b ->]|[rest ->]]; [by eapply Hpre|].
  destruct (decide (rest = [])) as [->|Hr]; [by apply (Hpre []); rewrite !app_nil_r|].
  destruct (walk_region f _ follow [] d rest k Hf HN H0 H) as [?|[? _]]; [by left|by left|done].
Qed.

Lemma region_locate_true f d p k :
  inside f → dest f0 d = Some D → d `prefix_of` p →
  locate f true p = inl k → below D k ∨ k = D.
Proof.
  intros Hf HD [rest ->] H. pose proof (dest_node _ _ _ HD) as HN.
  pose proof (dest_locate _ _ _ HD) as H0. unfold locate in *.
  destruct (walk_region f _ true [] d rest k Hf HN H0 H) as [?|[_ ?]]; [by right|by left|by right].
Qed.

Lemma inside_insert f k x :
  inside f → below D k → (∀ t, x ≠ NLink t) → inside (<[k := x]> f).
Proof.
  intros [A B] Hk Hx. split.
  - intros c Hc. rewrite lookup_insert_ne; [by apply A|]. by intros ->.
  - intros c t Hc. destruct (decide (k = c)) as [->|Hne].
    + rewrite lookup_insert_eq. intros [= ->]. by destruct (Hx t).
    + rewrite lookup_insert_ne by done. by apply B.
Qed.

(** The calls of an extraction keep the file system in this form. *)
Definition stays_inside (st st' : state) : Prop := inside (fs st) → inside (fs st').

#[local] Instance stays_inside_preorder : PreOrder stays_inside.
Proof.
  split; [intros st H; exact H|]. intros s1 s2 s3 H1 H2 H. by apply H2, H1.
Qed.

Lemma stays_same_fs st st' : fs st' = fs st → stays_inside st st'.
Proof. intros E H. by rewrite E. Qed.

Context (d : path) (Hdest : dest f0 d = Some D).

Lemma stays_os_mkdir p : comparable p d → steps stays_inside (os_mkdir p).
Proof.
  intros Hp st. rewrite os_mkdir_eq. destruct (locate (fs st) false p) as [k|] eqn:E;
    [|reflexivity].
  destruct (node_at (fs st) k) eqn:N; [reflexivity|]. intros Hf. cbn.
  destruct (region_locate _ _ _ _ _ Hf Hdest Hp E) as [Hb|[x Hx]]; [|congruence].
  by apply inside_insert.
Qed.

Ltac stays_leaf := first [ by apply stays_same_fs | reflexivity ].
Ltac stays_tac := repeat (steps_step stays_leaf).

Lemma stays_mkdir_leaf b p : comparable p d → steps stays_inside (mkdir_leaf b p).
Proof.
  intros Hp. unfold mkdir_leaf. steps_step stays_leaf; [by apply stays_os_mkdir|]. stays_tac.
Qed.

Lemma stays_makedirs_split b name :
  comparable (rev name) d → steps stays_inside (makedirs_split b name).
Proof.
  induction name as [|tail head IH]; intros Hc; cbn [makedirs_split];
    [by apply stays_mkdir_leaf|].
  cbn [rev] in Hc. steps_step stays_leaf; [stays_tac|].
  steps_step stays_leaf; [|by apply stays_mkdir_leaf].
  steps_step stays_leaf; [stays_tac|]. steps_step stays_leaf; [|stays_tac].
  apply IH. eapply comparable_prefix; [exact Hc|]. by apply prefix_app_r.
Qed.

Lemma stays_makedirs b p : comparable p d → steps stays_inside (makedirs b p).
Proof. intros Hp. apply stays_makedirs_split. by rewrite rev_involutive. Qed.

Lemma write_file_eq p size st :
  write_file p size st
  = match locate (fs st) true p with
    | inr e => (st, Raise (os_error e p))
    | inl k =>
        match node_at (fs st) k with
        | Some NDir => (st, Raise (IsADirectoryError (path_str p)))
        | _ => ({| backup_dir := backup_dir st; fs := <[k := NFile size]> (fs st);
                   log := log st ++ [Extracted p] |}, Ok tt)
        end
    end.
Proof.
  unfold write_file, bind, get. cbv beta iota.
  destruct (locate (fs st) true p); [|reflexivity].
  by destruct (node_at (fs st) _) as [[| |]|].
Qed.

Lemma stays_write_file p size : d `prefix_of` p → steps stays_inside (write_file p size).
Proof.
  intros Hp st. rewrite write_file_eq. destruct (locate (fs st) true p) as [k|] eqn:E;
    [|reflexivity].
  assert (inside (fs st) → below D k ∨ node_at (fs st) k = Some NDir) as Hk.
  { intros Hf. destruct (region_locate_true _ _ _ _ Hf Hdest Hp E) as [?| ->]; [by left|].
    right. rewrite (inside_node _ _ Hf (not_below_self D)). by eapply dest_node. }
  destruct (node_at (fs st) k) as [[z| |t]|] eqn:N; try reflexivity;
    intros Hf; cbn; (destruct (Hk Hf) as [Hb|]; [|done]); by apply inside_insert.
Qed.

Lemma removelast_snoc_app (a b : path) : b ≠ [] → removelast (a ++ b) = a ++ removelast b.
Proof. intros Hb. by apply removelast_app. Qed.

Lemma comparable_upperdirs arc : comparable (removelast (d ++ arc)) d.
Proof.
  destruct (decide (arc = [])) as [->|Hne].
  - left. rewrite app_nil_r. destruct d as [|x l _] using rev_ind; [done|].
    rewrite removelast_last. by apply prefix_app_r.
  - right. rewrite removelast_snoc_app by done. by apply prefix_app_r.
Qed.

Lemma stays_extract_member m : steps stays_inside (extract_member d m).
Proof.
  unfold extract_member. cbv zeta. steps_step stays_leaf; [stays_tac|].
  steps_step stays_leaf.
  { steps_step stays_leaf; [|stays_tac]. apply stays_makedirs, comparable_upperdirs. }
  steps_step stays_leaf.
  { unfold member_is_dir. stays_tac. }
  steps_step stays_leaf; [|apply stays_write_file; by apply prefix_app_r].
  steps_step stays_leaf; [stays_tac|]. steps_step stays_leaf; [|stays_tac].
  apply stays_os_mkdir. right. by apply prefix_app_r.
Qed.

Lemma stays_extract ms : steps stays_inside (for_each ms (extract_member d)).
Proof. apply steps_for_each; [apply _|]. apply stays_extract_member. Qed.

Lemma stays_zip_read name : steps stays_inside (zip_read name).
Proof. unfold zip_read, emit. stays_tac. Qed.

Lemma stays_extract_all b :
  steps stays_inside (members <- zip_read b;; for_each members (extract_member d)).
Proof.
  steps_step stays_leaf; [apply stays_zip_read|]. apply stays_extract.
Qed.

End Region.

(** *** Nodes are never removed by an extraction *)

(** Every node stays, a file possibly with another content. *)
Definition same_kind (x y : node) : Prop :=
  x = y ∨ ∃ z z', x = NFile z ∧ y = NFile z'.

Definition keeps_nodes (st st' : state) : Prop :=
  ∀ k x, fs st !! k = Some x → ∃ y, fs st' !! k = Some y ∧ same_kind x y.

#[global] Instance keeps_nodes_preorder : PreOrder keeps_nodes.
Proof.
  split.
  - intros st k x H. exists x. split; [done|by left].
  - intros s1 s2 s3 H1 H2 k x Hk. destruct (H1 k x Hk) as (y & Hy & K1).
    destruct (H2 k y Hy) as (z & Hz & K2). exists z. split; [done|].
    destruct K1 as [->|(a & b & -> & ->)]; [done|].
    destruct K2 as [<-|(a' & b' & [= <-] & ->)]; right; by eexists _, _.
Qed.

Lemma keeps_adds st st' : adds_dirs st st' → keeps_nodes st st'.
Proof.
  intros [A _] k x H. exists x. split; [by eapply lookup_weaken|by left].
Qed.

(** [stat] does not end at a symbolic link. *)
Lemma walk_true_not_link f fuel cur rest k t :
  walk fuel f true cur rest = inl k → rest ≠ [] → k ≠ [] → f !! k ≠ Some (NLink t).
Proof.
  revert k. pattern fuel, cur, rest. apply walk_ind; clear fuel cur rest; [done|].
  intros fuel cur n rest IHf IHr k H _ Hk. rewrite walk_unfold in H.
  destruct (f !! (cur ++ [n])) as [[z| |t']|] eqn:E.
  - destruct (is_last rest); [|done]. injection H as <-. by rewrite E.
  - destruct rest as [|m rest]; [|by apply IHr].
    rewrite walk_unfold in H. injection H as <-. by rewrite E.
  - cbn [negb andb] in H. destruct fuel as [|fuel']; [done|].
    destruct (t' ++ rest) as [|a l] eqn:Et.
    + rewrite walk_unfold in H. by injection H as <-.
    + rewrite <- Et in H. apply (IHf fuel' (t' ++ rest)); [lia|done| |done]. by rewrite Et.
  - destruct (is_last rest); [|done]. injection H as <-. by rewrite E.
Qed.

Lemma keeps_write_file p size : steps keeps_nodes (write_file p size).
Proof.
  intros st. rewrite write_file_eq. destruct (locate (fs st) true p) as [k|] eqn:E;
    [|reflexivity].
  assert (∀ x, node_at (fs st) k = x → x ≠ Some NDir →
               keeps_nodes st {| backup_dir := backup_dir st;
                                 fs := <[k := NFile size]> (fs st);
                                 log := log st ++ [Extracted p] |}) as Hins.
  { intros x N Hx c y Hc. cbn. destruct (decide (c = k)) as [->|Hne].
    - rewrite lookup_insert_eq. eexists. split; [done|].
      assert (k ≠ []) as Hk by (intros ->; by rewrite <- N in Hx).
      assert (p ≠ []) as Hp.
      { intros ->. unfold locate in E. rewrite walk_unfold in E. by injection E as <-. }
      destruct y as [z| |t].
      + right. by eexists _, _.
      + rewrite <- N in Hx. by rewrite (node_at_lookup _ _ _ Hc Hk) in Hx.
      + by destruct (walk_true_not_link _ _ _ _ _ t E Hp Hk).
    - rewrite lookup_insert_ne by done. exists y. split; [done|by left]. }
  destruct (node_at (fs st) k) as [[z| |t]|] eqn:N; try reflexivity;
    cbn [fst]; by apply (Hins _ eq_refl).
Qed.

Lemma keeps_os_mkdir p : steps keeps_nodes (os_mkdir p).
Proof. intros st. apply keeps_adds, adds_os_mkdir. Qed.

Lemma keeps_makedirs b p : steps keeps_nodes (makedirs b p).
Proof. intros st. apply keeps_adds, adds_makedirs. Qed.

Lemma keeps_same_fs st st' : fs st' = fs st → keeps_nodes st st'.
Proof. intros E k x H. exists x. rewrite E. split; [done|by left]. Qed.

Ltac keeps_leaf := first [ by apply keeps_same_fs | reflexivity ].
Ltac keeps_tac := repeat (steps_step keeps_leaf).

Lemma keeps_extract_member d m : steps keeps_nodes (extract_member d m).
Proof.
  unfold extract_member. cbv zeta. steps_step keeps_leaf; [keeps_tac|].
  steps_step keeps_leaf.
  { steps_step keeps_leaf; [apply keeps_makedirs|keeps_tac]. }
  steps_step keeps_leaf.
  { unfold member_is_dir. keeps_tac. }
  steps_step keeps_leaf; [|apply keeps_write_file].
  steps_step keeps_leaf; [keeps_tac|]. steps_step keeps_leaf; [apply keeps_os_mkdir|keeps_tac].
Qed.

Lemma keeps_zip_read name : steps keeps_nodes (zip_read name).
Proof. unfold zip_read, emit. keeps_tac. Qed.

Lemma keeps_extract b d :
  steps keeps_nodes (members <- zip_read b;; for_each members (extract_member d)).
Proof.
  steps_step keeps_leaf; [apply keeps_zip_read|].
  steps_step keeps_leaf. apply keeps_extract_member.
Qed.

End ExtractFacts.

(** * The run of [clear_directory] and of a restore *)
Module RestoreRegion.
Import Exec ExecFacts Restore RestoreFacts RestoreMain WalkFacts ClearDirectory ExtractFacts.
Local Open Scope exec_scope.

(** *** [os.makedirs] reads the file system only *)

Definition fs_only {A} (m : M state A) : Prop :=
  ∀ st st', fs st = fs st' → fs (m st).1 = fs (m st').1 ∧ (m st).2 = (m st').2.

Lemma fs_only_os_mkdir p : fs_only (os_mkdir p).
Proof.
  intros st st' E. rewrite !os_mkdir_eq, <- E.
  destruct (locate (fs st) false p) as [k|]; [|done].
  destruct (node_at (fs st) k); [done|]. cbn. by rewrite E.
Qed.

Lemma fs_only_mkdir_leaf b p : fs_only (mkdir_leaf b p).
Proof.
  intros st st' E. unfold mkdir_leaf, try_except.
  destruct (fs_only_os_mkdir p st st' E) as [E1 E2].
  destruct (os_mkdir p st) as [s1 r1], (os_mkdir p st') as [s1' r1']. cbn in E1, E2.
  subst r1'. destruct r1 as [a|e]; [done|]. unfold bind, get. cbv beta iota.
  rewrite <- E1. by destruct (b && fs_isdir (fs s1) p).
Qed.

Lemma fs_only_makedirs_split b name : fs_only (makedirs_split b name).
Proof.
  induction name as [|tail head IH]; cbn [makedirs_split]; [apply fs_only_mkdir_leaf|].
  intros st st' E. unfold bind at 1 3, get. cbv beta iota. unfold bind. rewrite <- E.
  assert (∀ s s' : state, fs s = fs s' →
            fs (mkdir_leaf b (rev head ++ [tail]) s).1
            = fs (mkdir_leaf b (rev head ++ [tail]) s').1
            ∧ (mkdir_leaf b (rev head ++ [tail]) s).2
              = (mkdir_leaf b (rev head ++ [tail]) s').2) as Hleaf.
  { intros s s' Es. by apply fs_only_mkdir_leaf. }
  destruct (fs_exists (fs st) (rev head)); [by apply Hleaf|].
  unfold try_except. destruct (IH st st' E) as [E1 E2].
  destruct (makedirs_split b head st) as [s1 r1], (makedirs_split b head st') as [s1' r1'].
  cbn in E1, E2. subst r1'. destruct r1 as [[]|e]; [by apply Hleaf|].
  destruct e; try done; by apply Hleaf.
Qed.

Lemma makedirs_add_log b d tr st :
  fs (makedirs b d (add_log tr st)).1 = fs (makedirs b d st).1.
Proof. by apply fs_only_makedirs_split. Qed.

(** *** [clear_directory] *)

Lemma entry_name_entry d n : entry_name d (d ++ [n]) = Some n.
Proof. induction d as [|x d IH]; simpl; [done|]. by rewrite String.eqb_refl. Qed.

Lemma listdir_complete D f n x :
  f !! (D ++ [n]) = Some x →
  n ∈ omap (λ kv : path * node, entry_name D kv.1) (map_to_list f).
Proof.
  intros H. apply list_elem_of_omap. exists (D ++ [n], x). split.
  - by apply elem_of_map_to_list.
  - apply entry_name_entry.
Qed.

(** The run, from the state [s0] that [os.makedirs] leaves: when [d]
    names no directory there, nothing more is done; when it names [D],
    nodes below [D] are removed. *)
Lemma clear_directory_run d st :
  let s0 := (makedirs true d st).1 in
  let r := clear_directory d st in
  match dest (fs s0) d with
  | None => r.1 = s0 ∧ r.2 ≠ Ok tt
  | Some D =>
      cleared D (fs s0) (fs r.1)
      ∧ backup_dir r.1 = backup_dir s0
      ∧ (∃ tr, log r.1 = log s0 ++ tr ∧ Forall (clear_event d D (fs s0)) tr)
      ∧ (r.2 = Ok tt →
         ∀ n k, (D ++ [n]) `prefix_of` k →
                k = D ++ [n] ∨ fs s0 !! (D ++ [n]) = Some NDir → fs r.1 !! k = None)
  end.
Proof.
  cbn zeta. rewrite clear_directory_eq. unfold bind.
  destruct (makedirs true d st) as [s0 [[]|e]] eqn:EM; cbn [fst snd].
  - destruct (makedirs_ok _ _ _ EM) as [D HD]. rewrite HD.
    rewrite fs_listdir_eq. rewrite (proj1 (dest_stat _ _ _) HD).
    cbv beta iota.
    destruct (clear_loop d D (fs s0) (omap (λ kv : path * node, entry_name D kv.1)
                                          (map_to_list (fs s0))) s0 HD
                (cleared_refl D (fs s0))) as (C & S & B & L & G).
    split; [done|]. split; [done|]. split; [done|].
    intros HR n k Hp Hk. destruct (fs s0 !! (D ++ [n])) as [x|] eqn:En.
    + apply (G HR n k); [by eapply listdir_complete|exact Hp|by rewrite En].
    + destruct Hk as [->|Hk]; [|done].
      eapply lookup_weaken_None; [exact En|exact S].
  - destruct (dest (fs s0) d) as [D|]; [|done].
    split; [apply cleared_refl|]. split; [done|].
    split; [by exists []; rewrite app_nil_r|]. done.
Qed.

(** In a tree nothing is left below [D] when [clear_directory] returns. *)
Lemma clear_directory_empty d D st :
  let s0 := (makedirs true d st).1 in
  let r := clear_directory d st in
  dest (fs s0) d = Some D → tree_like (fs st) → r.2 = Ok tt →
  ∀ k, below D k → fs r.1 !! k = None.
Proof.
  cbn zeta. intros HD Ht HR k [n Hn].
  pose proof (clear_directory_run d st) as H. cbn zeta in H. rewrite HD in H.
  destruct H as ([S _] & _ & _ & G).
  destruct (fs (clear_directory d st).1 !! k) as [x|] eqn:Ek; [|done].
  rewrite <- Ek. apply (G HR n k Hn).
  destruct (decide (k = D ++ [n])) as [->|Hne]; [by left|right].
  pose proof (lookup_weaken _ _ _ _ Ek S) as E0.
  pose proof (tree_like_adds _ _ (adds_makedirs true d st) Ht) as Ht0.
  pose proof (tree_like_above _ _ _ _ Ht0 E0 Hn (not_eq_sym Hne)) as Hd.
  by rewrite node_at_snoc in Hd.
Qed.

(** *** The restore *)

Definition restore_prints (prefix b : string) (d : path) : list event :=
  [Printed (MsgRestoring prefix b); Printed (MsgTarget prefix d)].

Lemma restore_fs prefix b d st :
  fs (restore_library_from_backup prefix b d st).1
  = fs ((clear_directory d;; members <- zip_read b;;
         for_each members (extract_member d)) (add_log (restore_prints prefix b d) st)).1.
Proof.
  unfold restore_library_from_backup. rewrite (bind_ok _ _ _ _ _ (print_eq _ st)).
  rewrite (bind_ok _ _ _ _ _ (print_eq _ _)). rewrite add_log_add_log.
  change ([Printed (MsgRestoring prefix b)] ++ [Printed (MsgTarget prefix d)])
    with (restore_prints prefix b d).
  generalize (add_log (restore_prints prefix b d) st). intros s.
  unfold bind at 1 4. destruct (clear_directory d s) as [s1 [[]|e]]; [|done].
  unfold bind at 1 3. destruct (zip_read b s1) as [s2 [ms|e]]; [|done].
  unfold bind. destruct (for_each ms (extract_member d) s2) as [s3 [[]|e]]; [|done].
  by rewrite print_eq.
Qed.

(** Nodes that are not below the destination are never removed by a
    restore. *)
Lemma restore_keeps prefix b d st k x :
  let s0 := (makedirs true d st).1 in
  fs st !! k = Some x →
  (∀ D, dest (fs s0) d = Some D → ¬ below D k) →
  ∃ y, fs (restore_library_from_backup prefix b d st).1 !! k = Some y ∧ same_kind x y.
Proof.
  cbn zeta. intros Hk Hb. rewrite restore_fs.
  set (s := add_log (restore_prints prefix b d) st).
  assert (fs (makedirs true d s).1 = fs (makedirs true d st).1) as E0
    by (apply makedirs_add_log).
  pose proof (adds_makedirs true d s) as [A _].
  pose proof (lookup_weaken _ _ _ _ (Hk : fs s !! k = Some x) A) as Hk0.
  pose proof (clear_directory_run d s) as H. cbn zeta in H.
  assert (fs (clear_directory d s).1 !! k = Some x) as Hk1.
  { destruct (dest (fs (makedirs true d s).1) d) as [D|] eqn:HD.
    - destruct H as ([_ C] & _). destruct (decide (fs (clear_directory d s).1 !! k
                                                   = fs (makedirs true d s).1 !! k))
        as [E|E]; [congruence|].
      apply C in E. destruct (Hb D); [by rewrite <- E0|done].
    - destruct H as [-> _]. done. }
  unfold bind at 1. destruct (clear_directory d s) as [s1 [[]|e]]; cbn [fst] in *.
  - destruct (keeps_extract b d s1 k x Hk1) as (y & Hy & K). by exists y.
  - exists x. split; [done|by left].
Qed.

(** In a tree, they are left as they were. *)
Lemma restore_frame prefix b d st k x :
  let s0 := (makedirs true d st).1 in
  tree_like (fs st) →
  fs st !! k = Some x →
  (∀ D, dest (fs s0) d = Some D → ¬ below D k) →
  fs (restore_library_from_backup prefix b d st).1 !! k = Some x.
Proof.
  cbn zeta. intros Ht Hk Hb. rewrite restore_fs.
  set (s := add_log (restore_prints prefix b d) st).
  assert (fs (makedirs true d s).1 = fs (makedirs true d st).1) as E0
    by (apply makedirs_add_log).
  pose proof (adds_makedirs true d s) as [A _].
  pose proof (lookup_weaken _ _ _ _ (Hk : fs s !! k = Some x) A) as Hk0.
  pose proof (clear_directory_run d s) as H. cbn zeta in H.
  pose proof (clear_directory_empty d) as Hempty. cbn zeta in Hempty.
  destruct (dest (fs (makedirs true d s).1) d) as [D|] eqn:HD.
  - specialize (Hempty D s HD Ht).
    destruct H as ([S C] & _).
    assert (¬ below D k) as HbD by (apply Hb; by rewrite <- E0).
    unfold bind at 1. destruct (clear_directory d s) as [s1 [[]|e]]; cbn [fst snd] in *.
    + assert (inside (fs (makedirs true d s).1) D (fs s1)) as Hin.
      { split.
        - intros c Hc. destruct (decide (fs s1 !! c = fs (makedirs true d s).1 !! c))
            as [E|E]; [done|]. by apply C in E.
        - intros c t Hc. by rewrite (Hempty eq_refl c Hc). }
      pose proof (stays_extract_all _ D d HD b s1 Hin) as Hs.
      rewrite (proj1 Hs k HbD). done.
    + destruct (decide (fs s1 !! k = fs (makedirs true d s).1 !! k)) as [E|E];
        [congruence|]. by apply C in E.
  - destruct H as [E1 HR]. unfold bind at 1.
    destruct (clear_directory d s) as [s1 [[]|e]]; cbn [fst snd] in *; [done|].
    by subst s1.
Qed.

End RestoreRegion.

(** * Clearing the destination of a restore (claim C10) *)
Module Clearing.
Import Exec ExecFacts Restore RestoreFacts RestoreMain WalkFacts ClearDirectory
       ExtractFacts RestoreRegion.

(** C10.  [clear_directory d], where [s0] is the state that
    [os.makedirs(d, exist_ok=True)] leaves and [D] the directory that the
    path [d] names in it (the place where [os.stat(d)] ends: [d] itself,
    or the target of the symbolic links on it):
    - [os.makedirs] keeps every node and adds directories only; a
      directory that [d] names already stays the one it names;
    - the loop leaves every node that is not below [D] as it was, and
      adds nothing: the target of a symbolic link found in [D], and what
      the target holds, stay when they are not below [D];
    - it removes through [shutil.rmtree] only entries of [D] that are
      directories and through [os.remove] only entries of [D] that are
      not; an entry that is a symbolic link is unlinked, whatever it
      points to;
    - when it returns, [D] is a directory without entries (and, in a
      tree, nothing is below it).
    The whole restore of a library into [d] removes no node that is not
    below [D]; it leaves these nodes as they were when the file system
    is a tree. *)
Theorem clear_directory_frame (d : path) (st : state) :
  let s0 := (makedirs true d st).1 in
  let st' := (clear_directory d st).1 in
  ((∀ k x, fs st !! k = Some x → fs s0 !! k = Some x)
   ∧ (∀ k x, fs s0 !! k = Some x → fs st !! k = None → x = NDir)
   ∧ (∀ D, dest (fs st) d = Some D → dest (fs s0) d = Some D))
  ∧ (∀ k x, fs s0 !! k = Some x →
            (∀ D, dest (fs s0) d = Some D → ¬ below D k) →
            fs st' !! k = Some x)
  ∧ (∀ k x, fs st' !! k = Some x → fs s0 !! k = Some x)
  ∧ (∃ made removed,
       trace_of (clear_directory d) st = made ++ removed
       ∧ Forall (made_event d) made
       ∧ match dest (fs s0) d with
         | Some D => Forall (clear_event d D (fs s0)) removed
         | None => removed = []
         end)
  ∧ (∀ D n t s,
       dest (fs s) d = Some D → fs s !! (D ++ [n]) = Some (NLink t) →
       clear_body d n s = (unlinked d D n s, Ok tt))
  ∧ ((clear_directory d st).2 = Ok tt →
     ∃ D, dest (fs s0) d = Some D
       ∧ node_at (fs st') D = Some NDir
       ∧ (∀ n, fs st' !! (D ++ [n]) = None)
       ∧ (tree_like (fs st) → ∀ k, below D k → fs st' !! k = None))
  ∧ (∀ prefix b k x,
       fs st !! k = Some x →
       (∀ D, dest (fs s0) d = Some D → ¬ below D k) →
       let st2 := (restore_library_from_backup prefix b d st).1 in
       (∃ y, fs st2 !! k = Some y ∧ same_kind x y)
       ∧ (tree_like (fs st) → fs st2 !! k = Some x)).
Proof.
  cbv zeta. pose proof (adds_makedirs true d st) as [A B].
  pose proof (clear_directory_run d st) as HR. cbv zeta in HR.
  split; [|split; [|split; [|split; [|split; [|split]]]]].
  - split; [|split].
    + intros k x Hk. by eapply lookup_weaken.
    + intros k x Hk Hn. by destruct (B k x Hk Hn).
    + intros D. by apply dest_mono.
  - intros k x Hk Hb. destruct (dest (fs (makedirs true d st).1) d) as [D|] eqn:HD.
    + destruct HR as ([_ C] & _).
      destruct (decide (fs (clear_directory d st).1 !! k = fs (makedirs true d st).1 !! k))
        as [E|E]; [congruence|]. apply C in E. by destruct (Hb D).
    + destruct HR as [-> _]. done.
  - intros k x Hk. destruct (dest (fs (makedirs true d st).1) d) as [D|] eqn:HD.
    + destruct HR as ([S _] & _). by eapply lookup_weaken.
    + destruct HR as [E _]. by rewrite E in Hk.
  - destruct (made_makedirs true d st) as (made & L0 & F0). exists made.
    unfold trace_of. destruct (dest (fs (makedirs true d st).1) d) as [D|] eqn:HD.
    + destruct HR as (_ & _ & (tr & L & F) & _). exists tr. rewrite L, L0.
      rewrite <- app_assoc, drop_app_length. done.
    + destruct HR as [-> _]. exists []. rewrite L0, drop_app_length, app_nil_r. done.
  - intros D n t s. apply clear_body_link.
  - intros HOk. destruct (dest (fs (makedirs true d st).1) d) as [D|] eqn:HD.
    + exists D. split; [done|]. destruct HR as ([S C] & _ & _ & G).
      split; [|split].
      * destruct D as [|a D]; [done|]. cbn [node_at].
        destruct (decide (fs (clear_directory d st).1 !! (a :: D)
                          = fs (makedirs true d st).1 !! (a :: D))) as [E|E].
        -- rewrite E. exact (dest_node _ _ _ HD).
        -- apply C in E. by destruct (not_below_self (a :: D)).
      * intros n. apply (G HOk n); [done|by left].
      * intros Ht. by apply (clear_directory_empty d D st HD Ht HOk).
    + by destruct HR as [_ HR].
  - intros prefix b k x Hk Hb. split.
    + by apply restore_keeps.
    + intros Ht. by apply restore_frame.
Qed.

(** On the sample disk: clearing the books library unlinks [shelf] and
    leaves the directory it points to and the file there; clearing
    through the link [shelf] empties the directory it points to and
    leaves the books library. *)
Lemma clear_directory_frame_witness :
  let st1 := (clear_directory Consumer.books_dir Consumer.st_pending).1 in
  let st2 := (clear_directory (Consumer.books_dir ++ ["shelf"]) Consumer.st_pending).1 in
  (fs st1 !! ["Volumes"; "shelf"; "keep.epub"] = Some (NFile 9)
   ∧ node_at (fs st1) Consumer.books_dir = Some NDir
   ∧ fs st1 !! (Consumer.books_dir ++ ["shelf"]) = None
   ∧ fs st1 !! (Consumer.books_dir ++ ["Old Author"; "old.mobi"]) = None)
  ∧ (dest (fs Consumer.st_pending) (Consumer.books_dir ++ ["shelf"])
     = Some ["Volumes"; "shelf"]
     ∧ fs st2 !! (Consumer.books_dir ++ ["old.epub"]) = Some (NFile 5)
     ∧ fs st2 !! (Consumer.books_dir ++ ["shelf"]) = Some (NLink ["Volumes"; "shelf"])
     ∧ node_at (fs st2) ["Volumes"; "shelf"] = Some NDir
     ∧ fs st2 !! ["Volumes"; "shelf"; "keep.epub"] = None).
Proof.
  cbv zeta. split.
  - destruct (clear_directory_frame Consumer.books_dir Consumer.st_pending)
      as (_ & H2 & _ & _ & _ & H6 & _).
    destruct H6 as (D & HD & H6 & H7 & H8); [vm_compute; reflexivity|].
    assert (D = Consumer.books_dir) as -> by (vm_compute in HD; injection HD as <-; reflexivity).
    split; [|split; [exact H6|split; [apply H7|]]].
    + apply H2; [vm_compute; reflexivity|]. intros D' HD'. rewrite HD in HD'.
      injection HD' as <-. apply (bool_decide_unpack _). vm_compute. exact I.
    + apply H8; [apply (bool_decide_unpack _); vm_compute; exact I|].
      apply (bool_decide_unpack _). vm_compute. exact I.
  - destruct (clear_directory_frame (Consumer.books_dir ++ ["shelf"]) Consumer.st_pending)
      as (_ & H2 & _ & _ & _ & H6 & _).
    destruct H6 as (D & HD & H6 & H7 & H8); [vm_compute; reflexivity|].
    assert (D = ["Volumes"; "shelf"]) as -> by (vm_compute in HD; injection HD as <-; reflexivity).
    split; [vm_compute; reflexivity|].
    split; [|split; [|split; [exact H6|apply (H7 "keep.epub")]]].
    + apply H2; [vm_compute; reflexivity|]. intros D' HD'. rewrite HD in HD'.
      injection HD' as <-. apply (bool_decide_unpack _). vm_compute. exact I.
    + apply H2; [vm_compute; reflexivity|]. intros D' HD'. rewrite HD in HD'.
      injection HD' as <-. apply (bool_decide_unpack _). vm_compute. exact I.
Defined.

End Clearing.

(** * The consumer: which archive is restored *)
Module LatestFacts.
Import Exec ExecFacts Restore RestoreFacts RestoreMain RestoreState PyFacts FingerprintFacts.
Local Open Scope exec_scope.

(** The names [find_latest_non_monthly_backup] keeps. *)
Definition candidates (prefix : string) (d : gmap string Backup.content) : list string :=
  filter (λ name, is_candidate prefix name) (map fst (map_to_list d)).

Lemma elem_of_candidates p d n :
  n ∈ candidates p d ↔ is_candidate p n = true ∧ is_Some (d !! n).
Proof.
  unfold candidates. rewrite list_elem_of_filter.
  change (map fst (map_to_list d)) with (PruneFacts.names d).
  rewrite PruneFacts.elem_of_names. destruct (is_candidate p n); simpl; naive_solver.
Qed.

Lemma last_sorted_max (l : list string) b :
  StronglySorted String.le l → last l = Some b → ∀ x, x ∈ l → String.le x b.
Proof.
  intros Hs Hl x Hx. apply last_Some in Hl as [l' ->].
  apply elem_of_app in Hx as [Hx|Hx].
  - eapply StronglySorted_app_1_elem_of; [exact Hs|exact Hx|apply list_elem_of_here].
  - apply list_elem_of_singleton in Hx as ->. reflexivity.
Qed.

Lemma last_elem {A} (l : list A) b : last l = Some b → b ∈ l.
Proof. intros Hl. apply last_Some in Hl as [l' ->]. apply elem_of_app. right. apply list_elem_of_here. Qed.

Lemma latest_artifact_eq p st :
  latest_artifact st p = last (Py.sort (candidates p (files st))).
Proof.
  unfold latest_artifact, find_latest_non_monthly_backup, bind, get, ret, files.
  destruct (backup_dir st) as [d|]; cbn.
  - fold (candidates p d). destruct (candidates p d) eqn:E; [done|]. done.
  - done.
Qed.

Lemma latest_artifact_none p st :
  latest_artifact st p = None → candidates p (files st) = [].
Proof.
  rewrite latest_artifact_eq. intros H. apply last_None in H.
  apply Permutation_nil_r. by rewrite <- (sort_perm (candidates p (files st))), H.
Qed.

Lemma latest_artifact_some p st b :
  latest_artifact st p = Some b →
  is_candidate p b = true ∧ is_Some (files st !! b)
  ∧ ∀ n, is_candidate p n = true → is_Some (files st !! n) → String.le n b.
Proof.
  rewrite latest_artifact_eq. intros H.
  pose proof (last_elem _ _ H) as Hb. rewrite sort_perm in Hb.
  apply elem_of_candidates in Hb as [Hc Hd]. split; [done|]. split; [done|].
  intros n Hn Hdn. apply (last_sorted_max _ _ (sort_sorted _) H).
  rewrite sort_perm. by apply elem_of_candidates.
Qed.

(** *** The names of the producer, seen by the consumer *)

Lemma endswith_zip a : Py.endswith (a +:+ ".zip") ".zip" = true.
Proof. apply endswith_app. Qed.

Lemma candidate_recent_name p t :
  Backup.is_monthly p = false → is_candidate p (NameFacts.recent_name p t) = true.
Proof.
  intros Hp. unfold is_candidate.
  pose proof (NameFacts.recent_name_not_monthly p t Hp) as Hm.
  unfold Backup.is_monthly in Hm. rewrite Hm. cbn [negb]. rewrite andb_true_r.
  apply andb_true_iff. split.
  - unfold NameFacts.recent_name. rewrite <- !str_app_assoc. apply endswith_zip.
  - unfold Py.startswith, NameFacts.recent_name. rewrite <- str_app_assoc. apply prefix_app.
Qed.

Lemma candidate_monthly_name p t : is_candidate p (NameFacts.monthly_name p t) = false.
Proof.
  unfold is_candidate.
  pose proof (NameFacts.monthly_name_is_monthly p t) as Hm.
  unfold Backup.is_monthly in Hm. rewrite Hm. cbn [negb]. apply andb_false_r.
Qed.

End LatestFacts.

(** * The consumer: state files and the choice of the archive *)
Module ConsumerState.
Import Exec ExecFacts Restore RestoreFacts RestoreMain RestoreService RestoreState
       RestoreConverge PyFacts FingerprintFacts LatestFacts.
Local Open Scope exec_scope.

Ltac by_computation := apply (bool_decide_unpack _); vm_compute; exact I.

(** X3.  [find_latest_non_monthly_backup] leaves the state as it is and
    raises nothing.  It returns [None] exactly when the backup directory
    is missing or holds no file whose name ends in [.zip], starts with
    [prefix_library_] and does not contain [_monthly]; otherwise it
    returns such a file of the directory, the one whose name is the
    greatest. *)
Theorem find_latest_is_greatest (prefix : string) (st : state) :
  (find_latest_non_monthly_backup prefix st).1 = st
  ∧ ∃ o, (find_latest_non_monthly_backup prefix st).2 = Ok o
         ∧ match o with
           | None =>
               ∀ n, is_Some (files st !! n) → is_candidate prefix n = false
           | Some b =>
               is_candidate prefix b = true
               ∧ is_Some (files st !! b)
               ∧ ∀ n, is_candidate prefix n = true → is_Some (files st !! n) →
                      String.le n b
           end.
Proof.
  rewrite find_latest_eq. cbn [fst snd]. split; [done|].
  exists (latest_artifact st prefix). split; [done|].
  destruct (latest_artifact st prefix) as [b|] eqn:E.
  - by apply latest_artifact_some.
  - intros n Hn. apply latest_artifact_none in E.
    destruct (is_candidate prefix n) eqn:Hc; [|done].
    assert (n ∈ candidates prefix (files st)) as Hin by by apply elem_of_candidates.
    rewrite E in Hin. by apply elem_of_nil in Hin.
Qed.

(** X4.  The consumer takes every archive the producer creates for a
    library (whose prefix does not contain [_monthly]) for a candidate,
    and no monthly snapshot.  So when the file it selects is an archive
    of the producer, no archive of the producer for this library that is
    in the directory bears a later date. *)
Theorem latest_is_newest_archive (prefix : string) :
  (∀ t, Backup.is_monthly prefix = false →
        is_candidate prefix (NameFacts.recent_name prefix t) = true)
  ∧ (∀ t, is_candidate prefix (NameFacts.monthly_name prefix t) = false)
  ∧ (∀ st t1 t2,
       Backup.is_monthly prefix = false →
       NameFacts.valid t1 → NameFacts.valid t2 →
       is_Some (files st !! NameFacts.recent_name prefix t1) →
       (find_latest_non_monthly_backup prefix st).2
       = Ok (Some (NameFacts.recent_name prefix t2)) →
       NameFacts.datetime_compare t1 t2 ≠ Gt).
Proof.
  split; [|split].
  - intros t Hp. by apply candidate_recent_name.
  - apply candidate_monthly_name.
  - intros st t1 t2 Hp H1 H2 Hin E. rewrite find_latest_eq in E. cbn in E.
    injection E as E. apply latest_artifact_some in E as (_ & _ & Hmax).
    rewrite <- (NameFacts.recent_name_compare prefix t1 t2) by done.
    apply NameFacts.le_compare. apply Hmax; [|done]. by apply candidate_recent_name.
Qed.

Definition at_time (d h : N) : Backup.datetime :=
  {| Backup.year := 2024; Backup.month := 5; Backup.day := d;
     Backup.hour := h; Backup.minute := 0; Backup.second := 0 |}.

(** Two archives and a snapshot of the books library. *)
Definition st_two_archives : state :=
  {| backup_dir := Some (list_to_map
       [ (NameFacts.recent_name "books" (at_time 1 10), Backup.Archive []);
         (NameFacts.recent_name "books" (at_time 2 9), Backup.Archive []);
         (NameFacts.monthly_name "books" (at_time 1 10), Backup.Archive []) ]);
     fs := ∅; log := [] |}.

Lemma latest_is_newest_archive_witness :
  NameFacts.datetime_compare (at_time 1 10) (at_time 2 9) ≠ Gt.
Proof.
  destruct (latest_is_newest_archive "books") as (_ & _ & H).
  apply (H st_two_archives).
  - vm_compute. reflexivity.
  - vm_compute. repeat split; reflexivity.
  - vm_compute. repeat split; reflexivity.
  - by_computation.
  - vm_compute. reflexivity.
Defined.

(** X5.  The names of the state files do not collide: the state files of
    two prefixes are the same only for the same prefix, a consumer state
    file is never a producer state file, the consumer reads the producer
    fingerprint under the name the producer writes it, and no state file
    is taken for an archive. *)
Theorem state_files_distinct (p q : string) :
  (local_state_file p = local_state_file q ↔ p = q)
  ∧ (remote_state_file p = remote_state_file q ↔ p = q)
  ∧ local_state_file p ≠ remote_state_file q
  ∧ remote_state_file p = Backup.state_file_for_prefix p
  ∧ is_candidate q (local_state_file p) = false
  ∧ is_candidate q (remote_state_file p) = false
  ∧ Backup.is_backup_of q (local_state_file p) = false
  ∧ Backup.is_backup_of q (remote_state_file p) = false.
Proof.
  assert (∀ a, Py.endswith (a +:+ "_library_last_restored_state.txt") ".zip" = false) as H1.
  { intros a. by rewrite endswith_app_r by (cbn; lia). }
  assert (∀ a, Py.endswith (a +:+ "_library_state.txt") ".zip" = false) as H2.
  { intros a. by rewrite endswith_app_r by (cbn; lia). }
  split; [split; [apply local_state_file_inj|by intros ->]|].
  split; [split; [apply remote_state_file_inj|by intros ->]|].
  split; [apply local_ne_remote|]. split; [done|].
  unfold is_candidate, Backup.is_backup_of, local_state_file, remote_state_file,
    LOCAL_STATE_SUFFIX.
  rewrite !lower_app, H1, H2.
  change (Py.lower "_library_last_restored_state.txt")
    with "_library_last_restored_state.txt".
  change (Py.lower "_library_state.txt") with "_library_state.txt".
  by rewrite H1, H2.
Qed.

(** X6.  In the backup directory a run of the consumer writes the
    consumer state files of its libraries and nothing else: every other
    file, so every producer state file and every archive, is after the
    run what it was before, however the run ends. *)
Theorem consumer_run_keeps_backups (libs : list (string * path)) (st : state) :
  let st' := (main_for libs st).1 in
  (∀ n, (∀ q, q ∈ libs.*1 → n ≠ local_state_file q) → files st' !! n = files st !! n)
  ∧ (∀ p, files st' !! remote_state_file p = files st !! remote_state_file p)
  ∧ (∀ n, Py.endswith n ".zip" = true → files st' !! n = files st !! n).
Proof.
  cbv zeta.
  assert (∀ n, (∀ q, q ∈ libs.*1 → n ≠ local_state_file q) →
               files (main_for libs st).1 !! n = files st !! n) as H.
  { intros n Hn. unfold main_for, bind at 1, get.
    destruct (backup_dir st) as [d|] eqn:Hd; [|done].
    pose proof (loop_frame libs false st n Hn) as HL.
    unfold bind at 1.
    destruct (for_fold libs main_body false st) as [s [v|e]]; cbn [fst] in *; [|done].
    rewrite <- HL. unfold bind. destruct v.
    - by rewrite start_eq, print_eq.
    - by rewrite !print_eq. }
  split; [exact H|]. split.
  - intros p. apply H. intros q _ E. symmetry in E. by apply local_ne_remote in E.
  - intros n Hz. apply H. intros q _ ->.
    unfold local_state_file, LOCAL_STATE_SUFFIX in Hz.
    by rewrite endswith_app_r in Hz by (cbn; lia).
Qed.

Lemma consumer_run_keeps_backups_witness :
  files (main Consumer.repo Consumer.st_truncated).1 !! "books_library_state.txt"
  = Some (Backup.Text "b2").
Proof.
  destruct (consumer_run_keeps_backups (LIBRARIES Consumer.repo) Consumer.st_truncated)
    as (_ & H & _).
  unfold main. change "books_library_state.txt" with (remote_state_file "books").
  rewrite H. vm_compute. reflexivity.
Defined.

(** X7.  A turn of the loop for one library does not change where
    another library stands: its producer and consumer fingerprints read
    the same after the turn, however the turn ends. *)
Theorem turn_keeps_other_status (v : bool) (q : string) (d : path) (st : state) (p : string) :
  p ≠ q →
  status_of (main_body v (q, d) st).1 p = status_of st p
  ∧ stored (main_body v (q, d) st).1 (local_state_file p) = stored st (local_state_file p)
  ∧ stored (main_body v (q, d) st).1 (remote_state_file p) = stored st (remote_state_file p).
Proof.
  intros Hne. pose proof (frame_main_body v (q, d) st) as H. cbn [fst] in H.
  assert (files (main_body v (q, d) st).1 !! local_state_file p
          = files st !! local_state_file p) as Hl.
  { apply H. intros E. by apply local_state_file_inj in E. }
  assert (files (main_body v (q, d) st).1 !! remote_state_file p
          = files st !! remote_state_file p) as Hr.
  { apply H. intros E. symmetry in E. by apply local_ne_remote in E. }
  split; [by apply status_of_ext|]. split; by apply stored_ext.
Qed.

Lemma turn_keeps_other_status_witness :
  status_of (main_body false ("books", Consumer.books_dir) Consumer.st_pending).1 "manga"
  = Pending "m2".
Proof.
  destruct (turn_keeps_other_status false "books" Consumer.books_dir Consumer.st_pending
              "manga") as (H & _).
  - discriminate.
  - rewrite H. vm_compute. reflexivity.
Defined.

End ConsumerState.

(** * The archive [create_backup_zip] writes *)
Module ArchiveFacts.
Import Exec ExecFacts Backup PyFacts FingerprintFacts BackupFacts NameFacts.
Local Open Scope exec_scope.

(** The paths [zf.write] is called on, in order. *)
Definition paths_of (step : path * list string) : list path :=
  map (λ file, step.1 ++ [file]) step.2.
Definition walk_paths (top : entry) : list path :=
  flat_map paths_of (os_walk (λ dirs, dirs) [] top).

(** What [zf.write] makes of the path [q]: the metadata of the member, or
    the exception it raises. *)
Definition zip_entry (lt : Z → result datetime) (top : entry) (q : path)
  : result stat_result :=
  match os_stat top q with
  | None => Raise (FileNotFoundError (relpath q))
  | Some s =>
      match lt (floor_of_mtime s) with
      | Raise e => Raise e
      | Ok t =>
          if (year t <? 1980)%N
          then Raise (ValueError "ZIP does not support timestamps before 1980")
          else if (2107 <? year t)%N
          then Raise (StructError "ushort format requires 0 <= number <= 65535")
          else Ok s
      end
  end.

(** A file whose time of modification, in local time, is in a year that
    a zip archive can hold. *)
Definition datable (lt : Z → result datetime) (s : stat_result) : Prop :=
  ∃ t, lt (floor_of_mtime s) = Ok t ∧ (1980 ≤ year t ≤ 2107)%N.

(** The members written before the first path that fails, and that path
    with its exception. *)
Fixpoint archive_prefix (lt : Z → result datetime) (top : entry) (ps : list path)
  : list (path * stat_result) * option (path * exn) :=
  match ps with
  | [] => ([], None)
  | p :: ps' =>
      match zip_entry lt top p with
      | Raise e => ([], Some (p, e))
      | Ok s => let '(ms, r) := archive_prefix lt top ps' in ((p, s) :: ms, r)
      end
  end.

(** *** Loops *)

Lemma for_each_map {S A B} (f : A → B) (l : list A) (g : B → M S unit) st :
  for_each (map f l) g st = for_each l (λ x, g (f x)) st.
Proof.
  revert st. induction l as [|x l IH]; intros st; [done|]. cbn [map for_each].
  unfold bind. destruct (g (f x) st) as [s [[]|]]; [apply IH|done].
Qed.

Lemma for_each_flat_map {S A B} (f : A → list B) (l : list A) (g : B → M S unit) st :
  for_each l (λ x, for_each (f x) g) st = for_each (flat_map f l) g st.
Proof.
  revert st. induction l as [|x l IH]; intros st; [done|]. cbn [flat_map for_each].
  rewrite for_each_app. unfold bind.
  destruct (for_each (f x) g st) as [s [[]|]]; [apply IH|done].
Qed.

Lemma walk_loop name top st :
  for_each (os_walk (λ dirs, dirs) [] top)
    (λ '(root, files), for_each files (λ file, zip_write name top (root ++ [file]))) st
  = for_each (walk_paths top) (zip_write name top) st.
Proof.
  unfold walk_paths. rewrite <- for_each_flat_map.
  generalize (os_walk (λ dirs, dirs) [] top). intros l. revert st.
  induction l as [|[root files] l IH]; intros st; [done|]. cbn [for_each].
  unfold bind. unfold paths_of at 1. cbn [fst snd]. rewrite for_each_map.
  destruct (for_each files _ st) as [s [[]|]]; [apply IH|done].
Qed.

(** *** The members of the archive *)

Definition with_archive (name : string) (ms : list (path * stat_result))
    (d : gmap string content) (tr : list event) (st : state) : state :=
  {| backup_dir := Some (<[name := Archive ms]> d); libraries := libraries st;
     clock := clock st; ticks := ticks st; localtime := localtime st; log := log st ++ tr |}.

Definition raised (failed : option (path * exn)) : result unit :=
  match failed with
  | None => Ok tt
  | Some (_, e) => Raise e
  end.

Lemma zip_entry_ok lt top q s :
  zip_entry lt top q = Ok s ↔ os_stat top q = Some s ∧ datable lt s.
Proof.
  unfold zip_entry, datable. destruct (os_stat top q) as [s'|]; [|naive_solver].
  destruct (lt (floor_of_mtime s')) as [t|e] eqn:Et.
  - destruct (N.ltb_spec (year t) 1980); [|destruct (N.ltb_spec 2107 (year t))].
    + split; [done|]. intros ([= <-] & t' & Ht & ?). rewrite Et in Ht.
      injection Ht as <-. lia.
    + split; [done|]. intros ([= <-] & t' & Ht & ?). rewrite Et in Ht.
      injection Ht as <-. lia.
    + split.
      * intros [= <-]. split; [done|]. exists t. split; [done|lia].
      * by intros ([= <-] & _).
  - split; [done|]. intros ([= <-] & t' & Ht & ?). congruence.
Qed.

Lemma zip_write_eq name top q st :
  zip_write name top q st
  = match zip_entry (localtime st) top q with
    | Raise e => (st, Raise e)
    | Ok s =>
        (add_log [ZipMember name q]
           (set_backup_dir
              (alter (λ c, match c with
                           | Archive ms => Archive (ms ++ [(q, s)])
                           | Text _ => c
                           end) name <$> backup_dir st) st), Ok tt)
    end.
Proof.
  unfold zip_write, zip_entry. destruct (os_stat top q) as [s|]; [|done].
  unfold bind at 1, get. destruct (localtime st (floor_of_mtime s)) as [t|e]; [|done].
  destruct (year t <? 1980)%N; [done|]. destruct (2107 <? year t)%N; [done|].
  unfold bind, modify. by rewrite producer_emit_eq.
Qed.

Lemma zip_loop name top ps :
  ∀ st d ms0,
    backup_dir st = Some d → d !! name = Some (Archive ms0) →
    for_each ps (zip_write name top) st
    = (with_archive name (ms0 ++ (archive_prefix (localtime st) top ps).1) d
         (map (ZipMember name) (archive_prefix (localtime st) top ps).1.*1) st,
       raised (archive_prefix (localtime st) top ps).2).
Proof.
  induction ps as [|q ps IH]; intros st d ms0 Hd Hn.
  - cbn. unfold ret, with_archive. rewrite !app_nil_r, insert_id by done.
    destruct st; cbn in *. by subst.
  - cbn [for_each archive_prefix]. unfold bind at 1. rewrite zip_write_eq.
    destruct (zip_entry (localtime st) top q) as [s|e] eqn:Hs.
    + cbv beta iota. rewrite Hd. cbn [fmap option_fmap option_map].
      rewrite (IH _ (alter (λ c, match c with
                                 | Archive ms => Archive (ms ++ [(q, s)])
                                 | Text _ => c
                                 end) name d) (ms0 ++ [(q, s)])).
      * cbn [localtime add_log set_backup_dir].
        destruct (archive_prefix (localtime st) top ps) as [ms r]. cbn [fst snd].
        unfold with_archive. cbn. f_equal. f_equal.
        -- f_equal. rewrite <- app_assoc. cbn.
           apply map_eq. intros k. destruct (decide (k = name)) as [->|Hk].
           ++ by rewrite !lookup_insert_eq.
           ++ by rewrite !lookup_insert_ne, lookup_alter_ne.
        -- by rewrite <- app_assoc.
      * done.
      * by rewrite lookup_alter_eq, Hn.
    + cbn. unfold with_archive. rewrite !app_nil_r, insert_id by done.
      destruct st; cbn in *. by subst.
Qed.

(** What [create_backup_zip] does. *)
Lemma create_backup_zip_eq p dir st d :
  backup_dir st = Some d →
  create_backup_zip p dir st =
  let name := recent_name p (clock st (ticks st)) in
  let top := library_tree st dir in
  let ms := (archive_prefix (localtime st) top (walk_paths top)).1 in
  let failed := (archive_prefix (localtime st) top (walk_paths top)).2 in
  ({| backup_dir := Some (<[name := Archive ms]> d); libraries := libraries st;
      clock := clock st; ticks := S (ticks st); localtime := localtime st;
      log := log st ++ [Printed (MsgCreatingBackup p name); ZipOpened name]
                    ++ map (ZipMember name) ms.*1
                    ++ match failed with
                       | None => [Printed (MsgBackupCreated p)]
                       | Some _ => []
                       end |},
   match failed with
   | None => Ok name
   | Some (_, e) => Raise e
   end).
Proof.
  intros Hd. unfold create_backup_zip. unfold bind at 1. unfold datetime_now at 1.
  cbv beta iota zeta. fold (recent_name p (clock st (ticks st))).
  set (name := recent_name p (clock st (ticks st))).
  rewrite (bind_ok _ _ _ _ _ (producer_print_eq (MsgCreatingBackup p name) _)).
  rewrite (bind_ok get _ _ _ _ eq_refl). cbv beta zeta.
  change (library_tree (add_log _ _) dir) with (library_tree st dir).
  set (top := library_tree st dir).
  assert (∀ s, backup_dir s = Some d →
               zip_open name s
               = (add_log [ZipOpened name]
                    (set_backup_dir (Some (<[name := Archive []]> d)) s), Ok tt)) as HO.
  { intros s Hs. unfold zip_open, bind at 1, get. rewrite Hs. done. }
  erewrite (bind_ok (zip_open name)); [|apply HO; exact Hd].
  unfold bind at 1. rewrite walk_loop.
  rewrite (zip_loop name top _ _ (<[name := Archive []]> d) []);
    [|done|by rewrite lookup_insert_eq].
  cbn [localtime add_log set_backup_dir].
  destruct (archive_prefix (localtime st) top (walk_paths top)) as [ms [[q e]|]];
    cbn [fst snd raised app].
  - unfold with_archive. cbn. rewrite insert_insert_eq.
    rewrite app_nil_r, <- !app_assoc. reflexivity.
  - unfold bind. rewrite producer_print_eq. unfold ret, with_archive, add_log. cbn.
    rewrite insert_insert_eq. rewrite <- !app_assoc. reflexivity.
Qed.

(** *** The paths of the walk are the files of the tree *)

Lemma elem_of_paths_of step q : q ∈ paths_of step ↔ ∃ f, q = step.1 ++ [f] ∧ f ∈ step.2.
Proof.
  unfold paths_of. split.
  - intros H. apply list_elem_of_In, in_map_iff in H as (f & <- & H).
    exists f. split; [done|]. by apply list_elem_of_In.
  - intros (f & -> & H). apply list_elem_of_In, in_map_iff. exists f.
    split; [done|]. by apply list_elem_of_In.
Qed.

Lemma elem_of_flat_map {A B} (g : A → list B) l y :
  y ∈ flat_map g l ↔ ∃ x, x ∈ l ∧ y ∈ g x.
Proof.
  rewrite list_elem_of_In, in_flat_map. split; intros (x & H1 & H2); exists x;
    by rewrite ?list_elem_of_In in *.
Qed.

Lemma elem_of_concat_map {A B} (g : A → list B) l y :
  y ∈ concat (map g l) ↔ ∃ x, x ∈ l ∧ y ∈ g x.
Proof.
  induction l as [|x l IH]; cbn.
  - split; [intros H; by apply elem_of_nil in H|]. intros (x & H & _).
    by apply elem_of_nil in H.
  - rewrite elem_of_app, IH. split.
    + intros [H|(x' & H1 & H2)]; [exists x; split; [apply list_elem_of_here|done]|].
      exists x'. split; [by apply list_elem_of_further|done].
    + intros (x' & H1 & H2). apply elem_of_cons in H1 as [->|H1]; [by left|].
      right. by exists x'.
Qed.

Lemma walk_paths_elem e :
  wf e →
  ∀ rel q,
    q ∈ flat_map paths_of (os_walk (λ dirs, dirs) rel e)
    ↔ ∃ suf st, suf ≠ [] ∧ q = rel ++ suf ∧ entry_at e suf = Some (File st).
Proof.
  induction e as [st0| |cs IH] using entry_ind'; intros Hwf rel q.
  - cbn. split; [intros H; by apply elem_of_nil in H|].
    intros (suf & st & Hs & _ & H). by destruct suf.
  - cbn. split; [intros H; by apply elem_of_nil in H|].
    intros (suf & st & Hs & _ & H). by destruct suf.
  - inversion Hwf as [| |? Hnd Hcs]; subst.
    rewrite os_walk_Dir. cbn [flat_map]. rewrite elem_of_app, elem_of_paths_of.
    cbn [fst snd]. rewrite flat_map_concat, flat_map_map.
    rewrite elem_of_flat_map. split.
    + intros [(f & -> & Hf)|(n & Hn & Hq)].
      * apply list_elem_of_fmap in Hf as ([f' c] & -> & Hf).
        apply list_elem_of_filter in Hf as [Hd Hf]. cbn in *.
        destruct c as [st| |]; try done.
        exists [f'], st. split; [done|]. split; [done|]. cbn.
        by rewrite (proj2 (lookup_name_Some f' (File st) cs Hnd) Hf).
      * destruct (lookup_name n cs) as [c|] eqn:Hc; cbn in Hq;
          [|by apply elem_of_nil in Hq].
        pose proof (lookup_name_elem _ _ _ Hc) as Hin.
        eapply Forall_forall in IH; [|exact Hin].
        eapply Forall_forall in Hcs; [|exact Hin]. cbn in IH, Hcs.
        apply (IH Hcs) in Hq as (suf & st & Hs & -> & Hat).
        exists (n :: suf), st. split; [done|]. split; [by rewrite <- app_assoc|].
        cbn. by rewrite Hc.
    + intros (suf & st & Hs & -> & Hat). destruct suf as [|n suf]; [done|].
      cbn in Hat. destruct (lookup_name n cs) as [c|] eqn:Hc; [|done].
      pose proof (lookup_name_elem _ _ _ Hc) as Hin.
      destruct suf as [|m suf].
      * cbn in Hat. injection Hat as ->. left. exists n. split; [done|].
        apply list_elem_of_fmap. exists (n, File st). split; [done|].
        by apply list_elem_of_filter.
      * right. exists n.
        assert (is_dir c = true) as Hd by (by destruct c).
        split.
        -- apply list_elem_of_fmap. exists (n, c). split; [done|].
           by apply list_elem_of_filter.
        -- rewrite Hc. cbn.
           eapply Forall_forall in IH; [|exact Hin].
           eapply Forall_forall in Hcs; [|exact Hin]. cbn in IH, Hcs.
           apply (IH Hcs). exists (m :: suf), st. split; [done|].
           split; [by rewrite <- app_assoc|done].
Qed.

Lemma elem_of_walk_paths top q :
  wf top → q ∈ walk_paths top ↔ ∃ st, q ≠ [] ∧ entry_at top q = Some (File st).
Proof.
  intros Hwf. unfold walk_paths. rewrite (walk_paths_elem top Hwf [] q). cbn.
  split; [intros (suf & st & ? & -> & ?)|intros (st & ? & ?)]; eauto.
Qed.

(** *** The members, by the first path that fails *)

Lemma archive_prefix_elem lt top ps q s :
  (q, s) ∈ (archive_prefix lt top ps).1 → q ∈ ps ∧ zip_entry lt top q = Ok s.
Proof.
  induction ps as [|p ps IH]; cbn; [intros H; by apply elem_of_nil in H|].
  destruct (zip_entry lt top p) as [s'|e] eqn:Hs; [|intros H; by apply elem_of_nil in H].
  destruct (archive_prefix lt top ps) as [ms r]. cbn in *.
  intros H. apply elem_of_cons in H as [[= -> ->]|H].
  - split; [apply list_elem_of_here|done].
  - destruct (IH H). split; [by apply list_elem_of_further|done].
Qed.

Lemma archive_prefix_all lt top ps :
  (∀ q, q ∈ ps → ∃ s, zip_entry lt top q = Ok s) →
  (archive_prefix lt top ps).2 = None
  ∧ ∀ q s, q ∈ ps → zip_entry lt top q = Ok s → (q, s) ∈ (archive_prefix lt top ps).1.
Proof.
  induction ps as [|p ps IH]; intros H; cbn.
  - split; [done|]. intros q s Hq. by apply elem_of_nil in Hq.
  - destruct (H p) as [s' Hs]; [apply list_elem_of_here|]. rewrite Hs.
    destruct IH as [IH1 IH2]; [intros q Hq; by apply H, list_elem_of_further|].
    destruct (archive_prefix lt top ps) as [ms r]. cbn in *. split; [done|].
    intros q s Hq Hqs. apply elem_of_cons in Hq as [->|Hq].
    + rewrite Hs in Hqs. injection Hqs as ->. apply list_elem_of_here.
    + apply list_elem_of_further. by apply IH2.
Qed.

Lemma archive_prefix_failed lt top ps q e :
  (archive_prefix lt top ps).2 = Some (q, e) → q ∈ ps ∧ zip_entry lt top q = Raise e.
Proof.
  induction ps as [|p ps IH]; cbn; [done|].
  destruct (zip_entry lt top p) as [s'|e'] eqn:Hs.
  - destruct (archive_prefix lt top ps) as [ms r]. cbn in *. intros H.
    destruct (IH H). split; [by apply list_elem_of_further|done].
  - intros [= -> ->]. split; [apply list_elem_of_here|done].
Qed.

Lemma archive_prefix_fails lt top ps q e :
  q ∈ ps → zip_entry lt top q = Raise e → is_Some (archive_prefix lt top ps).2.
Proof.
  induction ps as [|p ps IH]; cbn; [intros H; by apply elem_of_nil in H|].
  intros Hq Hs. destruct (zip_entry lt top p) as [s'|e'] eqn:Hp; [|by eexists].
  apply elem_of_cons in Hq as [->|Hq]; [congruence|].
  specialize (IH Hq Hs). by destruct (archive_prefix lt top ps) as [ms r].
Qed.

(** The members are the paths before the first one that fails. *)
Lemma archive_prefix_split lt top ps :
  ∃ rest, ps = (archive_prefix lt top ps).1.*1
               ++ match (archive_prefix lt top ps).2 with
                  | Some (q, _) => q :: rest
                  | None => rest
                  end
          ∧ ((archive_prefix lt top ps).2 = None → rest = []).
Proof.
  induction ps as [|p ps (rest & IH1 & IH2)]; cbn; [by exists []|].
  destruct (zip_entry lt top p) as [s|e].
  - destruct (archive_prefix lt top ps) as [ms r]. cbn in *. exists rest.
    split; [by f_equal|done].
  - by exists ps.
Qed.

End ArchiveFacts.

(** * Trees: what can be archived, and what the fingerprint does not see *)
Module TreeFacts.
Import Exec Backup PyFacts FingerprintFacts BackupFacts PruneFacts NameFacts ArchiveFacts.

(** Every name listed below [e] can be stat-ed. *)
Fixpoint complete (e : entry) : bool :=
  match e with
  | File None => false
  | File (Some _) => true
  | DirLink => true
  | Dir cs => forallb (λ nc, complete nc.2) cs
  end.

(** No file that can be stat-ed is found below [e]: [e] is an empty
    directory, a link to a directory, a name that cannot be stat-ed, or a
    directory of such entries. *)
Fixpoint silent (e : entry) : bool :=
  match e with
  | File None => true
  | File (Some _) => false
  | DirLink => true
  | Dir cs => forallb (λ nc, silent nc.2) cs
  end.

Lemma complete_entry_at e :
  complete e = true → ∀ q, entry_at e q ≠ Some (File None).
Proof.
  induction e as [st| |cs IH] using entry_ind'; intros Hc q.
  - destruct q; cbn; [|done]. intros [= ->]. done.
  - by destruct q.
  - destruct q as [|n q]; [done|]. cbn.
    destruct (lookup_name n cs) as [c|] eqn:Hn; [|done].
    apply lookup_name_elem in Hn. cbn in Hc. rewrite forallb_forall in Hc.
    eapply Forall_forall in IH; [|exact Hn]. apply IH.
    apply (Hc (n, c)). by apply list_elem_of_In.
Qed.

Lemma complete_stat top q :
  wf top → complete top = true → q ∈ walk_paths top → is_Some (os_stat top q).
Proof.
  intros Hwf Hc Hq. apply (elem_of_walk_paths top q Hwf) in Hq as (st & _ & Hat).
  unfold os_stat. rewrite Hat. destruct st as [s|]; [by eexists|].
  by destruct (complete_entry_at top Hc q).
Qed.

Lemma os_stat_Some top q s :
  os_stat top q = Some s ↔ entry_at top q = Some (File (Some s)).
Proof.
  unfold os_stat. destruct (entry_at top q) as [[[s'|]| |]|]; naive_solver.
Qed.

Lemma spec_records_silent e : silent e = true → ∀ rel, spec_records rel e = [].
Proof.
  induction e as [st| |cs IH] using entry_ind'; intros Hs rel; [done..|].
  rewrite spec_records_Dir. cbn in Hs. rewrite forallb_forall in Hs.
  assert (∀ n c, lookup_name n cs = Some c → silent c = true) as Hc.
  { intros n c Hn. apply lookup_name_elem in Hn. apply (Hs (n, c)).
    by apply list_elem_of_In. }
  assert (∀ (g : string → list string) l, (∀ x, x ∈ l → g x = []) → flat_map g l = [])
    as Hnil.
  { intros g l Hg. induction l as [|x l IHl]; [done|]. cbn.
    rewrite (Hg x) by apply list_elem_of_here. apply IHl.
    intros y Hy. apply Hg. by apply list_elem_of_further. }
  apply app_nil. split; apply Hnil; intros n _.
  - destruct (lookup_name n cs) as [c|] eqn:Hn; [|done].
    pose proof (Hc n c Hn) as Hsc. by destruct c as [[]| |].
  - destruct (lookup_name n cs) as [c|] eqn:Hn; [|done]. cbn.
    pose proof (Hc n c Hn) as Hsc. apply lookup_name_elem in Hn.
    eapply Forall_forall in IH; [|exact Hn]. by apply IH.
Qed.

Lemma lookup_name_middle {A} m n (e : A) cs1 cs2 :
  m ≠ n → lookup_name m (cs1 ++ (n, e) :: cs2) = lookup_name m (cs1 ++ cs2).
Proof.
  intros Hne. induction cs1 as [|[k c] cs1 IH]; cbn.
  - by destruct (String.eqb_spec m n).
  - by rewrite IH.
Qed.

Lemma filter_ne_id (n : string) (l : list string) :
  n ∉ l → filter (λ m, m ≠ n) l = l.
Proof.
  induction l as [|x l IH]; [done|]. rewrite not_elem_of_cons. intros [Hx Hl].
  rewrite filter_cons_True by done. by rewrite IH.
Qed.

Lemma wf_remove cs1 n e cs2 :
  wf (Dir (cs1 ++ (n, e) :: cs2)) →
  wf (Dir (cs1 ++ cs2)) ∧ n ∉ (cs1 ++ cs2).*1
  ∧ lookup_name n (cs1 ++ (n, e) :: cs2) = Some e.
Proof.
  intros Hwf. inversion Hwf as [| |? Hnd Hcs]; subst.
  rewrite fmap_app, fmap_cons in Hnd. cbn in Hnd.
  pose proof Hnd as Hnd0.
  apply NoDup_app in Hnd as (H1 & H2 & H3). apply NoDup_cons in H3 as [H3 H4].
  apply Forall_app in Hcs as [Hc1 Hc2]. apply Forall_cons in Hc2 as [_ Hc2].
  split; [|split].
  - constructor; [|by apply Forall_app].
    rewrite fmap_app. apply NoDup_app. split; [done|]. split; [|done].
    intros x Hx Hx'. apply (H2 x Hx). by apply list_elem_of_further.
  - rewrite fmap_app, not_elem_of_app. split; [|done].
    intros Hn. apply (H2 n Hn). apply list_elem_of_here.
  - apply lookup_name_Some.
    + by rewrite fmap_app, fmap_cons.
    + apply elem_of_app. right. apply list_elem_of_here.
Qed.

(** A silent entry adds no record. *)
Lemma spec_records_remove rel cs1 n e cs2 :
  wf (Dir (cs1 ++ (n, e) :: cs2)) → silent e = true →
  spec_records rel (Dir (cs1 ++ (n, e) :: cs2)) = spec_records rel (Dir (cs1 ++ cs2)).
Proof.
  intros Hwf Hs. destruct (wf_remove _ _ _ _ Hwf) as (Hwf' & Hn & Hl).
  rewrite !spec_records_Dir.
  assert (filter (λ m, m ≠ n) (cs1 ++ (n, e) :: cs2).*1 = (cs1 ++ cs2).*1) as Hf.
  { rewrite !fmap_app, fmap_cons in *. cbn. apply not_elem_of_app in Hn as [Hn1 Hn2].
    rewrite filter_app, filter_cons_False by (by intros ?).
    by rewrite !filter_ne_id. }
  assert (∀ x, x ∈ Py.sort (cs1 ++ cs2).*1 → x ≠ n) as Hx.
  { intros x Hin ->. by rewrite sort_perm in Hin. }
  f_equal.
  - rewrite <- (flat_map_filter _ (λ m, m ≠ n) (Py.sort (cs1 ++ (n, e) :: cs2).*1)).
    2: { intros x _ Hxn. apply dec_stable in Hxn as ->. rewrite Hl.
         by destruct e as [[]| |]. }
    rewrite <- sort_filter, Hf. apply flat_map_ext_in. intros x Hin.
    by rewrite lookup_name_middle by by apply Hx.
  - rewrite <- (flat_map_filter _ (λ m, m ≠ n) (Py.sort (cs1 ++ (n, e) :: cs2).*1)).
    2: { intros x _ Hxn. apply dec_stable in Hxn as ->. rewrite Hl. cbn.
         by apply spec_records_silent. }
    rewrite <- sort_filter, Hf. apply flat_map_ext_in. intros x Hin.
    by rewrite lookup_name_middle by by apply Hx.
Qed.

(** *** The fingerprint is a string of 64 characters *)

Lemma length_hex n x : String.length (Sha256.hex n x) = n.
Proof. induction n as [|n IH]; cbn; [done|]. by rewrite IH. Qed.

Lemma length_hexdigest data : String.length (Sha256.hexdigest_of data) = 64.
Proof.
  unfold Sha256.hexdigest_of.
  assert (length (take 8 (Sha256.digest_words (Sha256.bytes_of_string data)
                          ++ repeat 0%N 8)) = 8) as Hl.
  { rewrite length_take, List.length_app, repeat_length. lia. }
  revert Hl.
  generalize (take 8 (Sha256.digest_words (Sha256.bytes_of_string data) ++ repeat 0%N 8)).
  intros ws Hl.
  assert (String.length (fold_right (λ w acc, Sha256.hex 8 w +:+ acc) "" ws)
          = 8 * length ws) as ->; [|lia].
  clear Hl. induction ws as [|w ws IH]; [done|].
  cbn [fold_right length]. rewrite PyFacts.length_app, length_hex, IH. lia.
Qed.

Lemma fingerprint_not_empty top : compute_library_fingerprint top ≠ "".
Proof.
  intros E. apply (f_equal String.length) in E.
  unfold compute_library_fingerprint, Sha256.hexdigest in E.
  rewrite length_hexdigest in E. discriminate E.
Qed.

(** *** Names *)

Lemma endswith_inv s suf : Py.endswith s suf = true → ∃ a, s = a +:+ suf.
Proof.
  induction s as [|c s IH].
  - destruct suf; cbn; [by exists ""|done].
  - rewrite endswith_cons. destruct (String.eqb_spec (String c s) suf) as [<-|].
    + by exists "".
    + intros H. destruct (IH H) as [a ->]. by exists (String c a).
Qed.

Lemma endswith_zip_lower n :
  Py.endswith n ".zip" = true → Py.endswith (Py.lower n) ".zip" = true.
Proof.
  intros H. apply endswith_inv in H as [a ->]. rewrite lower_app. apply endswith_app.
Qed.

(** *** The partitions of a directory *)

Lemma recent_of_ext p d1 d2 :
  (∀ n, is_backup_of p n = true → is_monthly n = false →
        (is_Some (d1 !! n) ↔ is_Some (d2 !! n))) →
  recent_of p d1 = recent_of p d2.
Proof.
  intros H. apply (StronglySorted_unique String.le); [apply sort_sorted..|].
  apply NoDup_Permutation; [apply NoDup_recent..|].
  intros n. rewrite !elem_of_recent. naive_solver.
Qed.

Lemma kept_one_max (l : list string) x :
  StronglySorted String.le l → NoDup l → x ∈ l → (∀ y, y ∈ l → String.le y x) →
  kept 1 l = [x].
Proof.
  intros Hs Hnd Hx Hmax.
  pose proof (length_kept 1 l) as Hl.
  assert (length l ≠ 0) by (destruct l; [by apply elem_of_nil in Hx|done]).
  destruct (kept 1 l) as [|y [|??]] eqn:Hk; cbn [length] in Hl; try lia.
  f_equal. assert (y ∈ kept 1 l) as Hy by (rewrite Hk; apply list_elem_of_here).
  rewrite <- (doomed_kept 1 l) in Hx. apply elem_of_app in Hx as [Hx|Hx].
  - destruct (doomed_older 1 l x y Hs Hnd Hx Hy) as [Hle Hne].
    destruct Hne. apply (anti_symm String.le); [done|].
    apply Hmax. by apply elem_of_kept in Hy.
  - rewrite Hk in Hx. by apply list_elem_of_singleton in Hx.
Qed.

End TreeFacts.

(** * A turn of the producer that archives its library *)
Module TurnFacts.
Import Exec ExecFacts Backup PyFacts FingerprintFacts BackupFacts BackupBody BackupFrame
       PruneFacts NameFacts MonthlyFacts ArchiveFacts TreeFacts.
Local Open Scope exec_scope.

(** *** Pruning, when the newest archive is known *)

Lemma lookup_pruned p d k :
  k ∉ doomed MAX_RECENT_BACKUPS (recent_of p d) →
  k ∉ doomed MAX_MONTHLY_SNAPSHOTS (monthly_of p d) →
  pruned p d !! k = d !! k.
Proof.
  intros H1 H2. unfold pruned. apply option_eq. intros x.
  rewrite map_lookup_filter_Some. cbn. rewrite not_elem_of_app. tauto.
Qed.

Lemma lookup_pruned_other p d k : is_backup_of p k = false → pruned p d !! k = d !! k.
Proof.
  intros Hk. apply lookup_pruned; intros H; apply elem_of_doomed in H.
  - apply elem_of_recent in H as (_ & H & _). congruence.
  - apply elem_of_monthly in H as (_ & H & _). congruence.
Qed.

Lemma pruned_newest p d name :
  is_backup_of p name = true → is_monthly name = false → is_Some (d !! name) →
  (∀ n, n ∈ recent_of p d → String.le n name) →
  recent_of p (pruned p d) = [name] ∧ pruned p d !! name = d !! name.
Proof.
  intros Hb Hm Hin Hmax.
  assert (name ∈ recent_of p d) as Hr by by apply elem_of_recent.
  assert (kept MAX_RECENT_BACKUPS (recent_of p d) = [name]) as Hk.
  { apply kept_one_max; [apply sort_sorted|apply NoDup_recent|done|done]. }
  split; [by rewrite recent_pruned|].
  apply lookup_pruned.
  - intros Hd. pose proof (NoDup_recent p d) as Hnd.
    rewrite <- (doomed_kept MAX_RECENT_BACKUPS (recent_of p d)), Hk in Hnd.
    apply NoDup_app in Hnd as (_ & Hnd & _). apply (Hnd name Hd), list_elem_of_here.
  - intros Hd. apply elem_of_doomed, elem_of_monthly in Hd as (Hd & _). congruence.
Qed.

Lemma state_file_not_backup p q : is_backup_of q (state_file_for_prefix p) = false.
Proof.
  unfold is_backup_of. pose proof (is_zip_state_file p) as H. unfold is_zip in H.
  by rewrite H.
Qed.

(** *** The turn *)

Definition members_of (lt : Z → result datetime) (top : entry)
  : list (path * stat_result) :=
  (archive_prefix lt top (walk_paths top)).1.

(** Every file of the tree can be archived: it can be stat-ed, and its
    time of modification is in a year a zip archive can hold. *)
Lemma archive_complete lt top :
  wf top → complete top = true →
  (∀ q s, q ≠ [] → entry_at top q = Some (File (Some s)) → datable lt s) →
  (archive_prefix lt top (walk_paths top)).2 = None
  ∧ ∀ q s, (q, s) ∈ members_of lt top ↔ q ≠ [] ∧ entry_at top q = Some (File (Some s)).
Proof.
  intros Hwf Hc Hd.
  assert (∀ q, q ∈ walk_paths top → ∃ s, zip_entry lt top q = Ok s) as Hall.
  { intros q Hq. destruct (complete_stat top q Hwf Hc Hq) as [s Hs]. exists s.
    apply zip_entry_ok. split; [done|].
    apply (elem_of_walk_paths top q Hwf) in Hq as (st0 & Hne & _).
    apply (Hd q s Hne). by apply os_stat_Some. }
  destruct (archive_prefix_all lt top (walk_paths top) Hall) as [Hnone Hin].
  split; [done|]. intros q s. unfold members_of. split.
  - intros Hm. apply archive_prefix_elem in Hm as [Hq Hs].
    apply (elem_of_walk_paths top q Hwf) in Hq as (st0 & Hne & _).
    split; [done|]. apply zip_entry_ok in Hs as [Hs _]. by apply os_stat_Some.
  - intros [Hne Hat]. apply Hin.
    + apply (elem_of_walk_paths top q Hwf). eauto.
    + apply zip_entry_ok. split; [by apply os_stat_Some|]. by apply (Hd q s).
Qed.

(** The bounds of [datable], checked along the walk. *)
Definition datable_tree (lt : Z → result datetime) (top : entry) : bool :=
  forallb (λ q, match os_stat top q with
                | Some s => match lt (floor_of_mtime s) with
                            | Ok t => (1980 <=? year t)%N && (year t <=? 2107)%N
                            | Raise _ => false
                            end
                | None => true
                end) (walk_paths top).

Lemma datable_tree_spec lt top :
  wf top → datable_tree lt top = true →
  ∀ q s, q ≠ [] → entry_at top q = Some (File (Some s)) → datable lt s.
Proof.
  intros Hwf H q s Hne Hat. unfold datable_tree in H. rewrite forallb_forall in H.
  specialize (H q). rewrite (proj2 (os_stat_Some top q s) Hat) in H.
  assert (In q (walk_paths top)) as Hin.
  { apply list_elem_of_In, (elem_of_walk_paths top q Hwf). eauto. }
  specialize (H Hin). destruct (lt (floor_of_mtime s)) as [t|e] eqn:Et; [|done].
  apply andb_true_iff in H as [H1 H2]. exists t. split; [done|].
  apply N.leb_le in H1, H2. lia.
Qed.

(** A turn for a library that has changed, up to the archive. *)
Lemma turn_to_archive p dir st d o :
  is_library_dir st dir = true →
  backup_dir st = Some d →
  stored st p = Ok o →
  o ≠ Some (current_fingerprint st dir) →
  let F := current_fingerprint st dir in
  let name := recent_name p (clock st (ticks st)) in
  let sf := state_file_for_prefix p in
  let ms := members_of (localtime st) (library_tree st dir) in
  ∃ st2,
    backup_dir st2 = Some (<[name := Archive ms]> (<[sf := Text F]> d))
    ∧ libraries st2 = libraries st
    ∧ clock st2 = clock st ∧ ticks st2 = S (ticks st)
    ∧ match (archive_prefix (localtime st) (library_tree st dir)
               (walk_paths (library_tree st dir))).2 with
      | Some (_, e) => main_body (p, dir) st = (st2, Raise e)
      | None =>
          main_body (p, dir) st
          = (ensure_monthly_snapshot p name;; prune_backups_for_prefix p) st2
      end.
Proof.
  intros Hdir Hd Hs Hne F name sf ms.
  set (top := library_tree st dir) in *.
  assert (has_library_changed p dir st = written p F st) as EH.
  { rewrite has_library_changed_eq. cbv zeta. rewrite Hs. fold F.
    destruct o as [P|]; [|done].
    destruct (String.eqb_spec P F) as [->|]; [by destruct Hne|done]. }
  rewrite producer_main_body_eq, Hdir, EH.
  unfold written. rewrite Hd. unfold after_change.
  set (st1 := {| backup_dir := Some (<[sf := Text F]> d); libraries := libraries st;
                 clock := clock st; ticks := ticks st; localtime := localtime st;
                 log := log st ++ [StateWritten sf F; Printed (MsgChangesDetected p)] |}).
  pose proof (create_backup_zip_eq p dir st1 _ eq_refl) as EC. cbv zeta in EC.
  change (library_tree st1 dir) with top in EC.
  change (recent_name p (clock st1 (ticks st1))) with name in EC.
  change (localtime st1) with (localtime st) in EC.
  fold (members_of (localtime st) top) in EC. fold ms in EC.
  match type of EC with _ = (?s, _) => exists s end.
  split; [done|]. split; [done|]. split; [done|]. split; [done|].
  destruct (archive_prefix (localtime st) top (walk_paths top)).2 as [[q e]|].
  - by rewrite (bind_raise _ _ _ _ _ EC).
  - by rewrite (bind_ok _ _ _ _ _ EC).
Qed.

Lemma recent_insert_le p d k c name :
  (∀ n, n ∈ recent_of p d → String.le n name) →
  (k = name ∨ is_backup_of p k = false ∨ is_monthly k = true) →
  ∀ n, n ∈ recent_of p (<[k := c]> d) → String.le n name.
Proof.
  intros Hmax Hk n Hn. apply elem_of_recent in Hn as (Hn1 & Hn2 & Hn3).
  destruct (decide (n = k)) as [->|Hne].
  - destruct Hk as [->|[Hk|Hk]]; [reflexivity|congruence|congruence].
  - rewrite lookup_insert_ne in Hn3 by done. apply Hmax, elem_of_recent. done.
Qed.

Lemma changed_turn p dir st d o :
  is_monthly p = false →
  is_library_dir st dir = true →
  backup_dir st = Some d →
  stored st p = Ok o →
  o ≠ Some (current_fingerprint st dir) →
  (archive_prefix (localtime st) (library_tree st dir)
     (walk_paths (library_tree st dir))).2 = None →
  (∀ n, n ∈ recent_of p d → String.le n (recent_name p (clock st (ticks st)))) →
  ∃ st' d',
    main_body (p, dir) st = (st', Ok tt)
    ∧ backup_dir st' = Some d'
    ∧ libraries st' = libraries st
    ∧ recent_of p d' = [recent_name p (clock st (ticks st))]
    ∧ d' !! recent_name p (clock st (ticks st))
      = Some (Archive (members_of (localtime st) (library_tree st dir)))
    ∧ d' !! state_file_for_prefix p = Some (Text (current_fingerprint st dir)).
Proof.
  intros Hp Hdir Hd Hs Hne Hnone Hmax.
  destruct (turn_to_archive p dir st d o Hdir Hd Hs Hne)
    as (st2 & Hd2 & Hl2 & Hc2 & Ht2 & EB).
  rewrite Hnone in EB. rewrite EB. clear EB.
  set (F := current_fingerprint st dir) in *.
  set (name := recent_name p (clock st (ticks st))) in *.
  set (top := library_tree st dir) in *.
  set (sf := state_file_for_prefix p) in *.
  set (d1 := <[sf := Text F]> d) in *.
  set (d2 := <[name := Archive (members_of (localtime st) top)]> d1) in *.
  pose proof (ensure_monthly_eq p name st2) as EM. cbv zeta in EM.
  set (m := monthly_name p (clock st2 (ticks st2))) in *.
  assert (files st2 = d2) as Hf2 by (unfold files; by rewrite Hd2).
  assert (∃ st3 d3, ensure_monthly_snapshot p name st2 = (st3, Ok tt)
                    ∧ backup_dir st3 = Some d3 ∧ libraries st3 = libraries st
                    ∧ (d3 = d2 ∨ ∃ c, d3 = <[m := c]> d2)) as (st3 & d3 & E3 & Hd3 & Hl3 & Hd3').
  { destruct (bool_decide (is_Some (files st2 !! m))).
    - eexists _, d2. split; [exact EM|]. split; [done|]. split; [done|]. by left.
    - rewrite Hd2, Hf2 in EM.
      assert (d2 !! name = Some (Archive (members_of (localtime st) top))) as Hn2
        by (unfold d2; apply lookup_insert_eq).
      rewrite Hn2 in EM.
      eexists _, _. split; [exact EM|]. split; [done|]. split; [done|]. right. eauto. }
  rewrite (bind_ok _ _ _ _ _ E3).
  pose proof (prune_files p st3 d3 Hd3) as HF.
  pose proof (prune_eq p st3 d3 Hd3) as EP.
  assert (is_backup_of p name = true) as Hbn by apply recent_name_is_backup.
  assert (is_monthly name = false) as Hmn by by apply recent_name_not_monthly.
  assert (is_monthly m = true) as Hmm by apply monthly_name_is_monthly.
  assert (name ≠ m) as Hnm by (intros E; congruence).
  assert (sf ≠ name) as Hsn.
  { intros E. pose proof (state_file_not_backup p p) as H. fold sf in H. congruence. }
  assert (sf ≠ m) as Hsm.
  { intros E. pose proof (state_file_not_backup p p) as H. fold sf in H.
    pose proof (monthly_name_is_backup p (clock st2 (ticks st2))) as H'. fold m in H'.
    congruence. }
  assert (d3 !! name = Some (Archive (members_of (localtime st) top))) as Hn3.
  { destruct Hd3' as [->|[c ->]]; [|rewrite lookup_insert_ne by done];
      unfold d2; by rewrite lookup_insert_eq. }
  assert (d3 !! sf = Some (Text F)) as Hs3.
  { destruct Hd3' as [->|[c ->]]; [|rewrite lookup_insert_ne by done];
      unfold d2, d1; by rewrite lookup_insert_ne, lookup_insert_eq. }
  destruct (pruned_newest p d3 name) as [Hr Hk]; [done|done|by rewrite Hn3| |].
  { intros n Hn. apply elem_of_recent in Hn as (Hn1 & Hn2 & Hn3').
    destruct (decide (n = name)) as [->|Hne']; [reflexivity|].
    apply Hmax, elem_of_recent. split; [done|]. split; [done|].
    assert (n ≠ sf) as Hnsf.
    { intros ->. pose proof (state_file_not_backup p p) as H. fold sf in H. congruence. }
    assert (n ≠ m) as Hnm' by (intros ->; congruence).
    destruct Hd3' as [->|[c ->]]; [|rewrite lookup_insert_ne in Hn3' by done];
      unfold d2, d1 in Hn3'; by rewrite !lookup_insert_ne in Hn3' by done. }
  rewrite EP. eexists _, (pruned p d3). split; [reflexivity|].
  rewrite EP in HF. cbn [fst] in HF. split; [exact HF|]. split; [by cbn|].
  split; [done|]. split; [by rewrite Hk|].
  rewrite lookup_pruned_other by apply state_file_not_backup. done.
Qed.

(** What a turn for a library that has changed leaves in the backup
    directory, whether the archive could be completed or not: the new
    fingerprint, and a file under the name of the new archive, which no
    other archive of the library exceeds. *)
Lemma changed_turn_leaves p dir st d o :
  is_monthly p = false →
  is_library_dir st dir = true →
  backup_dir st = Some d →
  stored st p = Ok o →
  o ≠ Some (current_fingerprint st dir) →
  (∀ n, n ∈ recent_of p d → String.le n (recent_name p (clock st (ticks st)))) →
  ∃ d',
    backup_dir (main_body (p, dir) st).1 = Some d'
    ∧ is_Some (d' !! recent_name p (clock st (ticks st)))
    ∧ d' !! state_file_for_prefix p = Some (Text (current_fingerprint st dir))
    ∧ ∀ n, n ∈ recent_of p d' → String.le n (recent_name p (clock st (ticks st))).
Proof.
  intros Hp Hdir Hd Hs Hne Hmax.
  destruct (archive_prefix (localtime st) (library_tree st dir)
              (walk_paths (library_tree st dir))).2 as [[q e]|] eqn:Hfail.
  - destruct (turn_to_archive p dir st d o Hdir Hd Hs Hne)
      as (st2 & Hd2 & _ & _ & _ & EB).
    rewrite Hfail in EB. rewrite EB. cbn [fst]. eexists. split; [exact Hd2|].
    assert (state_file_for_prefix p ≠ recent_name p (clock st (ticks st))) as Hsn.
    { intros E. pose proof (state_file_not_backup p p) as H.
      pose proof (recent_name_is_backup p (clock st (ticks st))) as H'. congruence. }
    split; [by rewrite lookup_insert_eq|].
    split; [by rewrite lookup_insert_ne, lookup_insert_eq|].
    apply recent_insert_le; [|by left].
    apply recent_insert_le; [done|]. right. left. apply state_file_not_backup.
  - destruct (changed_turn p dir st d o Hp Hdir Hd Hs Hne Hfail Hmax)
      as (st' & d' & E & Hd' & _ & Hr & Hn & Hf).
    rewrite E. cbn [fst]. exists d'. split; [done|]. split; [by rewrite Hn|].
    split; [done|]. intros n Hn'. rewrite Hr in Hn'.
    apply list_elem_of_singleton in Hn' as ->. reflexivity.
Qed.

End TurnFacts.

(** * The producer: the archive, the files it leaves alone *)
Module ProducerArchive.
Import Exec ExecFacts Backup PyFacts FingerprintFacts BackupFacts BackupBody BackupFrame
       BackupIdempotent PruneFacts NameFacts MonthlyFacts ArchiveFacts TreeFacts TurnFacts.
Local Open Scope exec_scope.

Ltac by_computation := apply (bool_decide_unpack _); vm_compute; exact I.

Lemma shelf_wf : wf Producer.shelf.
Proof.
  repeat first [ apply wf_Dir | apply wf_File | apply wf_DirLink | apply Forall_cons; split
               | apply Forall_nil ];
    simpl; apply (bool_decide_unpack _); by vm_compute.
Defined.

(** X8.  When every name listed below the library can be stat-ed and
    the time of modification of every file, in the local time of the
    machine, is in a year from 1980 to 2107 (what a zip archive can
    hold), [create_backup_zip] returns the name
    [p_library_<timestamp>.zip] for the time it read, and the file of
    that name in the backup directory is an archive whose members are
    exactly the files found below the library (not the directories, not
    what is behind a link to a directory), each under its path relative
    to the library and with the metadata [os.stat] gives.  No other file
    of the backup directory changes, and the libraries do not change. *)
Theorem backup_holds_every_file (p dir : string) (st : state) (d : gmap string content) :
  backup_dir st = Some d →
  wf (library_tree st dir) →
  complete (library_tree st dir) = true →
  (∀ q s, q ≠ [] → entry_at (library_tree st dir) q = Some (File (Some s)) →
          datable (localtime st) s) →
  let top := library_tree st dir in
  let name := recent_name p (clock st (ticks st)) in
  let st' := (create_backup_zip p dir st).1 in
  (create_backup_zip p dir st).2 = Ok name
  ∧ (∃ ms, files st' !! name = Some (Archive ms)
           ∧ ∀ q s, (q, s) ∈ ms ↔ q ≠ [] ∧ entry_at top q = Some (File (Some s)))
  ∧ (∀ n, n ≠ name → files st' !! n = files st !! n)
  ∧ libraries st' = libraries st.
Proof.
  intros Hd Hwf Hc Hdate top name st'. subst st'.
  rewrite (create_backup_zip_eq p dir st d Hd). cbv zeta. fold top name.
  destruct (archive_complete (localtime st) top Hwf Hc Hdate) as [Hnone Hall].
  rewrite Hnone. cbn [fst snd]. split; [done|]. split; [|split; [|done]].
  - eexists. split; [unfold files; cbn; by rewrite lookup_insert_eq|]. exact Hall.
  - intros n Hn. unfold files. cbn. rewrite Hd. cbn. by rewrite lookup_insert_ne.
Qed.

Lemma backup_holds_every_file_witness :
  (create_backup_zip "books" Producer.books Producer.st_first).2
  = Ok "books_library_2024-05-01_12-00-00.zip"
  ∧ ∃ ms, files (create_backup_zip "books" Producer.books Producer.st_first).1
            !! "books_library_2024-05-01_12-00-00.zip" = Some (Archive ms)
          ∧ ∃ s, (["Author"; "book.epub"], s) ∈ ms.
Proof.
  destruct (backup_holds_every_file "books" Producer.books Producer.st_first ∅)
    as (H1 & (ms & H2 & H3) & _).
  - reflexivity.
  - exact shelf_wf.
  - vm_compute. reflexivity.
  - apply (datable_tree_spec _ _ shelf_wf). vm_compute. reflexivity.
  - split; [exact H1|]. exists ms. split; [exact H2|].
    eexists. apply H3. split; [discriminate|]. vm_compute. reflexivity.
Defined.

(** X9.  When some file listed below the library cannot be archived (it
    cannot be stat-ed: a dangling link, a file deleted after the
    listing; or the year of its time of modification, in local time, is
    not one a zip archive can hold), [create_backup_zip] raises at the
    first such file [q] of its walk: [FileNotFoundError] when [q] cannot
    be stat-ed, [ValueError] for a year before 1980, [struct.error] for a
    year after 2107, or what [time.localtime] raises.  It leaves in the
    backup directory, under the name of the new archive, an archive that
    holds the files walked before [q], which are files of the library,
    and the line "Backup created" is not printed. *)
Theorem backup_stops_at_first_failure (p dir : string) (st : state)
    (d : gmap string content) (bad : path) (sb : option stat_result) :
  backup_dir st = Some d →
  wf (library_tree st dir) →
  bad ≠ [] →
  entry_at (library_tree st dir) bad = Some (File sb) →
  (∀ s, sb = Some s → ¬ datable (localtime st) s) →
  let top := library_tree st dir in
  let name := recent_name p (clock st (ticks st)) in
  let st' := (create_backup_zip p dir st).1 in
  ∃ q sq e ms rest,
    (create_backup_zip p dir st).2 = Raise e
    ∧ entry_at top q = Some (File sq)
    ∧ match sq with
      | None => e = FileNotFoundError (relpath q)
      | Some s =>
          match localtime st (floor_of_mtime s) with
          | Raise e' => e = e'
          | Ok t =>
              if (year t <? 1980)%N
              then e = ValueError "ZIP does not support timestamps before 1980"
              else (2107 < year t)%N
                   ∧ e = StructError "ushort format requires 0 <= number <= 65535"
          end
      end
    ∧ files st' !! name = Some (Archive ms)
    ∧ walk_paths top = ms.*1 ++ q :: rest
    ∧ (∀ m, m ∈ ms → entry_at top m.1 = Some (File (Some m.2)))
    ∧ Printed (MsgBackupCreated p) ∉ trace_of (create_backup_zip p dir) st.
Proof.
  intros Hd Hwf Hne Hbad Hsb top name st'. subst st'. unfold trace_of.
  rewrite (create_backup_zip_eq p dir st d Hd). cbv zeta. fold top name.
  change (entry_at top bad = Some (File sb)) in Hbad.
  assert (bad ∈ walk_paths top) as Hin by (apply (elem_of_walk_paths top bad Hwf); eauto).
  assert (∃ e0, zip_entry (localtime st) top bad = Raise e0) as [e0 He0].
  { destruct (zip_entry (localtime st) top bad) as [s|e0] eqn:E; [|by eexists].
    apply zip_entry_ok in E as [E1 E2]. apply os_stat_Some in E1.
    rewrite Hbad in E1. injection E1 as ->. by destruct (Hsb s). }
  destruct (archive_prefix_fails _ top _ bad e0 Hin He0) as [[q e] Hq].
  destruct (archive_prefix_split (localtime st) top (walk_paths top)) as (rest & Hsplit & _).
  rewrite Hq in Hsplit |- *.
  apply archive_prefix_failed in Hq as Hq'. destruct Hq' as [Hqin Hqe].
  apply (elem_of_walk_paths top q Hwf) in Hqin as (sq & _ & Hat).
  exists q, sq, e, (archive_prefix (localtime st) top (walk_paths top)).1, rest.
  cbn [fst snd]. split; [done|]. split; [done|]. split; [|split; [|split; [|split]]].
  - unfold zip_entry, os_stat in Hqe. rewrite Hat in Hqe. destruct sq as [s|].
    + destruct (localtime st (floor_of_mtime s)) as [t|e']; [|by injection Hqe].
      destruct (N.ltb_spec (year t) 1980); [by injection Hqe|].
      destruct (N.ltb_spec 2107 (year t)); [|done]. split; [done|]. by injection Hqe.
    + by injection Hqe.
  - unfold files. cbn. by rewrite lookup_insert_eq.
  - exact Hsplit.
  - intros [q' s] Hm. apply archive_prefix_elem in Hm as [_ Hm]. cbn.
    apply zip_entry_ok in Hm as [Hm _]. by apply os_stat_Some.
  - cbn [log]. rewrite drop_app_length, app_nil_r.
    intros H. apply elem_of_cons in H as [H|H]; [done|].
    apply elem_of_cons in H as [H|H]; [done|].
    apply list_elem_of_In, in_map_iff in H as (? & ? & _). done.
Qed.

(** A library with a file of 1969 (["sub/c.epub"], a second and a half
    before 1970), which the walk meets after ["metadata.db"]. *)
Definition st_books_of_1969 : state :=
  {| backup_dir := Some ∅;
     libraries :=
       {[ Producer.books :=
            Dir [ ("metadata.db", File (Some {| st_size := 4096;
                                                st_mtime_num := 1714557600;
                                                st_mtime_den := 1 |}));
                  ("sub", Dir [ ("c.epub", File (Some {| st_size := 7; st_mtime_num := -3;
                                                         st_mtime_den := 2 |})) ]);
                  ("Author", Dir [ ("book.epub", File (Some {| st_size := 70000;
                                                               st_mtime_num := 3429115201;
                                                               st_mtime_den := 2 |})) ]) ] ]};
     clock := λ _, Producer.noon; ticks := 0; localtime := gmtime; log := [] |}.

Lemma st_books_of_1969_wf : wf (library_tree st_books_of_1969 Producer.books).
Proof.
  repeat first [ apply wf_Dir | apply wf_File | apply wf_DirLink | apply Forall_cons; split
               | apply Forall_nil ];
    simpl; apply (bool_decide_unpack _); by vm_compute.
Defined.

Lemma backup_stops_at_first_failure_witness :
  (create_backup_zip "books" Producer.books st_books_of_1969).2
  = Raise (ValueError "ZIP does not support timestamps before 1980")
  ∧ ∃ q ms rest,
      files (create_backup_zip "books" Producer.books st_books_of_1969).1
        !! "books_library_2024-05-01_12-00-00.zip" = Some (Archive ms)
      ∧ walk_paths (library_tree st_books_of_1969 Producer.books) = ms.*1 ++ q :: rest.
Proof.
  split; [vm_compute; reflexivity|].
  destruct (backup_stops_at_first_failure "books" Producer.books st_books_of_1969 ∅
              ["sub"; "c.epub"]
              (Some {| st_size := 7; st_mtime_num := -3; st_mtime_den := 2 |}))
    as (q & sq & e & ms & rest & _ & _ & _ & H2 & H3 & _).
  - reflexivity.
  - exact st_books_of_1969_wf.
  - discriminate.
  - vm_compute. reflexivity.
  - intros s [= <-] (t & Ht & Hy). vm_compute in Ht. injection Ht as <-.
    destruct Hy as [Hy _]. vm_compute in Hy. by apply Hy.
  - exists q, ms, rest. split; [exact H2|exact H3].
Defined.

(** X10.  A run of the producer does not change the libraries, and in
    the backup directory it leaves alone every file whose name does not
    end in [.zip] (in any case) and is not the state file of one of its
    libraries, however the run ends. *)
Theorem producer_run_frame (libs : list (string * string)) (st : state) :
  let st' := (main_for libs st).1 in
  libraries st' = libraries st
  ∧ ∀ n, Py.endswith (Py.lower n) ".zip" = false →
         (∀ q, q ∈ libs.*1 → n ≠ state_file_for_prefix q) →
         files st' !! n = files st !! n.
Proof.
  cbv zeta.
  assert (steps (frame (λ n, ∀ q, q ∈ libs.*1 → keep q n)) (main_for libs)) as Hst.
  { unfold main_for. apply steps_bind; [apply _| |intros _].
    - intros s. unfold ensure_backup_dir, modify. cbn [fst].
      destruct (backup_dir s) eqn:E; [done|]. split; [done|].
      intros n _. unfold files. cbn. by rewrite E.
    - apply steps_bind; [apply _|apply frame_loop|intros _]. apply frame_emit. }
  destruct (Hst st) as [HL HF].
  split; [exact HL|]. intros n Hz Hn. apply HF. intros q Hq. split; [by apply Hn|done].
Qed.

Definition st_with_notes : state :=
  {| backup_dir := Some {[ "README.txt" := Text "keep" ]};
     libraries := {[ Producer.books := Producer.shelf ]};
     clock := λ _, Producer.noon; ticks := 0; localtime := gmtime; log := [] |}.

Lemma producer_run_frame_witness :
  files (main st_with_notes).1 !! "README.txt" = Some (Text "keep").
Proof.
  destruct (producer_run_frame LIBRARIES st_with_notes) as [_ H].
  unfold main. rewrite H.
  - reflexivity.
  - vm_compute. reflexivity.
  - intros q Hq. apply elem_of_cons in Hq as [->|Hq]; [discriminate|].
    apply list_elem_of_singleton in Hq as ->. discriminate.
Defined.

(** X11.  Pruning twice is pruning once: right after
    [prune_backups_for_prefix] has run, a second call deletes nothing
    and prints nothing. *)
Theorem prune_twice (p : string) (st : state) (d : gmap string content) :
  backup_dir st = Some d →
  let st1 := (prune_backups_for_prefix p st).1 in
  prune_backups_for_prefix p st1 = (st1, Ok tt).
Proof.
  intros Hd st1. pose proof (prune_files p st d Hd) as H1. fold st1 in H1.
  rewrite (prune_eq p st1 (pruned p d) H1).
  rewrite recent_pruned, monthly_pruned.
  rewrite !doomed_nil by (rewrite length_kept; lia).
  clearbody st1. destruct st1 as [b l c t lg]. cbn in H1. subst b.
  unfold removed. cbn. rewrite !app_nil_r. f_equal. f_equal. f_equal.
  rewrite map_filter_filter. apply map_filter_id. intros i x _. cbn.
  split; apply not_elem_of_nil.
Qed.

Lemma prune_twice_witness :
  prune_backups_for_prefix "books" (prune_backups_for_prefix "books" Prune.st_sample).1
  = ((prune_backups_for_prefix "books" Prune.st_sample).1, Ok tt).
Proof. apply (prune_twice "books" Prune.st_sample Prune.sample_dir). reflexivity. Defined.

(** X12.  The fingerprint does not see an entry below which no file can
    be stat-ed: adding to a directory of the library, or removing from
    it, an empty directory, a directory of empty directories, a link to
    a directory or a dangling link leaves the fingerprint as it is. *)
Theorem fingerprint_ignores_silent (cs1 cs2 : list (string * entry)) (n : string)
    (e : entry) :
  wf (Dir (cs1 ++ (n, e) :: cs2)) →
  silent e = true →
  compute_library_fingerprint (Dir (cs1 ++ (n, e) :: cs2))
  = compute_library_fingerprint (Dir (cs1 ++ cs2)).
Proof.
  intros Hwf Hs. destruct (wf_remove _ _ _ _ Hwf) as (Hwf' & _ & _).
  rewrite !fingerprint_lines.
  rewrite (walk_records _ _ [] eq_refl Hwf), (walk_records _ _ [] eq_refl Hwf').
  by rewrite spec_records_remove.
Qed.

Definition front : list (string * entry) :=
  [ ("metadata.db", File (Some {| st_size := 4096; st_mtime_num := 1714557600;
                                  st_mtime_den := 1 |})) ].

Definition back : list (string * entry) :=
  [ ("Author", Dir [ ("book.epub", File (Some {| st_size := 70000;
                                                 st_mtime_num := 3429115201;
                                                 st_mtime_den := 2 |})) ]) ].

Definition new_folder : entry := Dir [ ("inner", Dir []); ("shortcut", DirLink) ].

Lemma shelf_with_new_folder_wf : wf (Dir (front ++ ("New folder", new_folder) :: back)).
Proof.
  repeat first [ apply wf_Dir | apply wf_File | apply wf_DirLink | apply Forall_cons; split
               | apply Forall_nil ];
    simpl; apply (bool_decide_unpack _); by vm_compute.
Defined.

Lemma fingerprint_ignores_silent_witness :
  compute_library_fingerprint (Dir (front ++ ("New folder", new_folder) :: back))
  = compute_library_fingerprint (Dir (front ++ back)).
Proof.
  apply fingerprint_ignores_silent.
  - exact shelf_with_new_folder_wf.
  - reflexivity.
Defined.

(** X13.  A turn of the producer for a library that has changed, whose
    listed names can all be stat-ed and whose files all have a time of
    modification in a year from 1980 to 2107 (in local time), when no
    archive of the library in the backup directory has a name above the
    name for the current time: the turn completes, the new archive is in
    the backup directory with every file of the library, it is the only
    archive of the library that pruning leaves, and the state file holds
    the new fingerprint. *)
Theorem turn_leaves_new_archive (p dir : string) (st : state) (d : gmap string content)
    (o : option string) :
  is_monthly p = false →
  is_library_dir st dir = true →
  backup_dir st = Some d →
  stored st p = Ok o →
  o ≠ Some (current_fingerprint st dir) →
  wf (library_tree st dir) →
  complete (library_tree st dir) = true →
  (∀ q s, q ≠ [] → entry_at (library_tree st dir) q = Some (File (Some s)) →
          datable (localtime st) s) →
  (∀ n, n ∈ recent_of p d → String.le n (recent_name p (clock st (ticks st)))) →
  let top := library_tree st dir in
  let name := recent_name p (clock st (ticks st)) in
  let st' := (main_body (p, dir) st).1 in
  (main_body (p, dir) st).2 = Ok tt
  ∧ recent_of p (files st') = [name]
  ∧ (∃ ms, files st' !! name = Some (Archive ms)
           ∧ ∀ q s, (q, s) ∈ ms ↔ q ≠ [] ∧ entry_at top q = Some (File (Some s)))
  ∧ stored st' p = Ok (Some (current_fingerprint st dir))
  ∧ libraries st' = libraries st.
Proof.
  intros Hp Hdir Hd Hs Hne Hwf Hc Hdate Hmax top name st'. subst st'.
  destruct (archive_complete (localtime st) (library_tree st dir) Hwf Hc Hdate)
    as [Hnone Hall].
  destruct (changed_turn p dir st d o Hp Hdir Hd Hs Hne Hnone Hmax)
    as (s & d' & E & Hd' & Hl & Hr & Hn & Hf).
  rewrite E. cbn [fst snd]. unfold files, stored, files. rewrite Hd'. cbn [from_option id].
  split; [done|]. split; [done|]. split; [|split; [|done]].
  - eexists. split; [exact Hn|]. exact Hall.
  - rewrite Hf. unfold current_fingerprint. by rewrite strip_fingerprint.
Qed.

Lemma turn_leaves_new_archive_witness :
  recent_of "books" (files (main_body ("books", Producer.books) Producer.st_first).1)
  = ["books_library_2024-05-01_12-00-00.zip"].
Proof.
  destruct (turn_leaves_new_archive "books" Producer.books Producer.st_first ∅ None)
    as (_ & H & _).
  - vm_compute. reflexivity.
  - vm_compute. reflexivity.
  - reflexivity.
  - vm_compute. reflexivity.
  - discriminate.
  - exact shelf_wf.
  - vm_compute. reflexivity.
  - apply (datable_tree_spec _ _ shelf_wf). vm_compute. reflexivity.
  - intros n Hn. vm_compute in Hn. by apply elem_of_nil in Hn.
  - exact H.
Defined.

End ProducerArchive.

(** * From the producer to the consumer *)
Module Pipeline.
Import Exec ExecFacts Restore RestoreFacts RestoreMain RestoreState LatestFacts PyFacts.
Local Open Scope exec_scope.

Ltac by_computation := apply (bool_decide_unpack _); vm_compute; exact I.

(** X16.  After a turn of the producer that archived a changed library
    (under a name that no archive of the library in the backup directory
    exceeds), a consumer that sees the backup directory as the turn left
    it reads the fingerprint of the library from the producer's state
    file and selects the archive of that turn. *)
Theorem consumer_sees_new_backup (p dir : string) (st : Backup.state)
    (d : gmap string Backup.content) (o : option string) (cst : state) :
  Backup.is_monthly p = false →
  Backup.is_library_dir st dir = true →
  Backup.backup_dir st = Some d →
  Backup.stored st p = Ok o →
  o ≠ Some (Backup.current_fingerprint st dir) →
  Backup.wf (Backup.library_tree st dir) →
  TreeFacts.complete (Backup.library_tree st dir) = true →
  (∀ n, n ∈ PruneFacts.recent_of p d →
        String.le n (NameFacts.recent_name p (Backup.clock st (Backup.ticks st)))) →
  backup_dir cst = Backup.backup_dir (Backup.main_body (p, dir) st).1 →
  (read_state (remote_state_file p) cst).2 = Ok (Some (Backup.current_fingerprint st dir))
  ∧ (find_latest_non_monthly_backup p cst).2
    = Ok (Some (NameFacts.recent_name p (Backup.clock st (Backup.ticks st)))).
Proof.
  intros Hp Hdir Hd Hs Hne Hwf Hc Hmax Hsync.
  destruct (TurnFacts.changed_turn_leaves p dir st d o Hp Hdir Hd Hs Hne Hmax)
    as (d' & Hd' & Hn & Hf & Hle).
  rewrite Hd' in Hsync.
  assert (files cst = d') as HF by (unfold files; by rewrite Hsync).
  set (name := NameFacts.recent_name p (Backup.clock st (Backup.ticks st))) in *.
  split.
  - change ((read_state (remote_state_file p) cst).2) with (stored cst (remote_state_file p)).
    apply stored_text.
    + rewrite HF. exact Hf.
    + apply FingerprintFacts.strip_fingerprint.
    + apply TreeFacts.fingerprint_not_empty.
  - rewrite find_latest_eq. cbn [snd]. f_equal.
    assert (name ∈ candidates p (files cst)) as Hin.
    { apply elem_of_candidates. split; [by apply candidate_recent_name|]. by rewrite HF. }
    destruct (latest_artifact cst p) as [b|] eqn:EL.
    + apply latest_artifact_some in EL as (Hb & Hbin & Hmaxb). rewrite HF in Hbin.
      assert (b ∈ PruneFacts.recent_of p d') as Hb'.
      { apply PruneFacts.elem_of_recent. unfold is_candidate in Hb.
        apply andb_true_iff in Hb as [Hb Hm]. apply andb_true_iff in Hb as [Hz Hst].
        apply negb_true_iff in Hm. split; [exact Hm|]. split; [|done].
        unfold Backup.is_backup_of. apply andb_true_iff. split; [|exact Hst].
        by apply TreeFacts.endswith_zip_lower. }
      f_equal. apply (anti_symm String.le); [by apply Hle|].
      apply elem_of_candidates in Hin as [Hc1 Hc2]. by apply Hmaxb.
    + apply latest_artifact_none in EL. rewrite EL in Hin. by apply elem_of_nil in Hin.
Qed.

Definition st_after_turn : state :=
  {| backup_dir := Backup.backup_dir
                     (Backup.main_body ("books", Producer.books) Producer.st_first).1;
     fs := Consumer.disk; log := [] |}.

Lemma consumer_sees_new_backup_witness :
  (find_latest_non_monthly_backup "books" st_after_turn).2
  = Ok (Some "books_library_2024-05-01_12-00-00.zip").
Proof.
  destruct (consumer_sees_new_backup "books" Producer.books Producer.st_first ∅ None
              st_after_turn) as [_ H].
  - vm_compute. reflexivity.
  - vm_compute. reflexivity.
  - reflexivity.
  - vm_compute. reflexivity.
  - discriminate.
  - exact ProducerArchive.shelf_wf.
  - vm_compute. reflexivity.
  - intros n Hn. vm_compute in Hn. by apply elem_of_nil in Hn.
  - reflexivity.
  - exact H.
Defined.

End Pipeline.
